(** * visionqc-local-ai: decision engine and result store

    A shallow embedding of [api/local_ai_api.py], [utils/config.py] and
    [db/db.py], and the properties of the decision engine and of the
    content-addressed result store.

    Conventions of the embedding.
    - A Python [str] is a [string] (a sequence of bytes); the [str] methods
      below are modelled on the ASCII range, which covers every label of the
      configuration.
    - A raised exception is the [Err] case of [result].
    - A value of a softmax output is a [prob]: a finite IEEE number, which is
      a rational and is compared as one, or NaN.  The code after the softmax
      only compares these values, it does no arithmetic on them.  The score
      handed to the store is such a [float] too; SQLite keeps a NaN as NULL.
    - A logit is a finite number, an infinity or NaN.  Of [torch.softmax]
      the propagation of NaN is written out; the numbers it gives on the
      other rows are the library's.
    - A file system gives, at each path, the content of a file or the error
      [open] and [read] meet there.
    - The SQLite table [results] is the list of its rows in rowid order,
      together with the AUTOINCREMENT counter of [sqlite_sequence].  Resource
      limits of the storage engine (disk space, number of host parameters,
      64-bit range of integers) are outside the model. *)

From Stdlib Require Import ZArith QArith List String Ascii Bool Lia.
From Stdlib Require Import Permutation Sorted.
Import ListNotations.

Local Open Scope string_scope.

(** ** Python values and exceptions *)

Module Py.

Inductive exn : Type :=
| IndexError
| KeyError
| FileNotFoundError
| IsADirectoryError
| PermissionError
| NotADirectoryError
| OSError
| IntegrityError.

(** The reasons for which [open(fpath, "rb")], or a [read] after it, fails,
    and the subclass of [OSError] Python raises for each. *)
Inductive os_error : Type :=
| ENOENT
| EISDIR
| EACCES
| ENOTDIR
| EIO.

Definition raised (e : os_error) : exn :=
  match e with
  | ENOENT => FileNotFoundError
  | EISDIR => IsADirectoryError
  | EACCES => PermissionError
  | ENOTDIR => NotADirectoryError
  | EIO => OSError
  end.

Inductive result (A : Type) : Type :=
| Ok (a : A)
| Err (e : exn).

Arguments Ok {A} a.
Arguments Err {A} e.

Definition bind {A B : Type} (r : result A) (k : A -> result B) : result B :=
  match r with
  | Ok a => k a
  | Err e => Err e
  end.

Definition is_ok {A : Type} (r : result A) : bool :=
  match r with
  | Ok _ => true
  | Err _ => false
  end.

(** [l[i]] for a non-negative index. *)
Definition getitem {A : Type} (l : list A) (i : nat) : result A :=
  match nth_error l i with
  | Some a => Ok a
  | None => Err IndexError
  end.

(** A [dict] with [str] keys: an association list in insertion order; a
    later binding of a key replaces the earlier one in place. *)
Definition dict (V : Type) : Type := list (string * V).

Fixpoint dict_set {V : Type} (d : dict V) (k : string) (v : V) : dict V :=
  match d with
  | [] => [(k, v)]
  | (k', v') :: d' =>
      if String.eqb k' k then (k', v) :: d' else (k', v') :: dict_set d' k v
  end.

Fixpoint dict_find {V : Type} (d : dict V) (k : string) : option V :=
  match d with
  | [] => None
  | (k', v) :: d' => if String.eqb k' k then Some v else dict_find d' k
  end.

(** [d[k]] *)
Definition dict_getitem {V : Type} (d : dict V) (k : string) : result V :=
  match dict_find d k with
  | Some v => Ok v
  | None => Err KeyError
  end.

(** [d.get(k, default)] *)
Definition dict_get {V : Type} (d : dict V) (k : string) (default : V) : V :=
  match dict_find d k with
  | Some v => v
  | None => default
  end.

(** *** [str] methods *)

Definition lower_ascii (c : ascii) : ascii :=
  let n := nat_of_ascii c in
  if (65 <=? n)%nat && (n <=? 90)%nat then ascii_of_nat (n + 32) else c.

Fixpoint lower (s : string) : string :=
  match s with
  | EmptyString => EmptyString
  | String c s' => String (lower_ascii c) (lower s')
  end.

(** [s.replace(a, b)] for one-character [a] and [b]. *)
Fixpoint replace_char (a b : ascii) (s : string) : string :=
  match s with
  | EmptyString => EmptyString
  | String c s' =>
      String (if Ascii.eqb c a then b else c) (replace_char a b s')
  end.

Definition is_space (c : ascii) : bool :=
  let n := nat_of_ascii c in
  ((9 <=? n)%nat && (n <=? 13)%nat)
  || ((28 <=? n)%nat && (n <=? 32)%nat).

Fixpoint lstrip (s : string) : string :=
  match s with
  | EmptyString => EmptyString
  | String c s' => if is_space c then lstrip s' else s
  end.

Fixpoint rstrip (s : string) : string :=
  match s with
  | EmptyString => EmptyString
  | String c s' =>
      match rstrip s' with
      | EmptyString => if is_space c then EmptyString else String c EmptyString
      | t => String c t
      end
  end.

Definition strip (s : string) : string := rstrip (lstrip s).

(** [s.split(sep)] for a one-character separator. *)
Fixpoint split (sep : ascii) (s : string) : list string :=
  match s with
  | EmptyString => [EmptyString]
  | String c s' =>
      if Ascii.eqb c sep then EmptyString :: split sep s'
      else
        match split sep s' with
        | [] => [String c EmptyString]
        | w :: ws => String c w :: ws
        end
  end.

(** Truth value of a [str]. *)
Definition truthy (s : string) : bool :=
  match s with
  | EmptyString => false
  | String _ _ => true
  end.

(** Truth value of an optional [str] argument ([None] or a [str]). *)
Definition truthy_opt (o : option string) : bool :=
  match o with
  | None => false
  | Some s => truthy s
  end.

(** [x in l] for a list of [str]. *)
Definition contains (l : list string) (x : string) : bool :=
  existsb (String.eqb x) l.

End Py.

Import Py.

Notation "'do' x <- r ; k" := (Py.bind r (fun x => k))
  (at level 10, x pattern, r at level 100, k at level 200).

(** ** utils/config.py *)

Module Config.

Definition DEFAULT_DEFECT_LABELS : string :=
  "no_defect, dent, scratch, crack, glass shatter, lamp broken, tire flat".

(** [[lbl.strip() for lbl in s.split(",") if lbl.strip()]] *)
Definition parse_labels (s : string) : list string :=
  filter truthy (map strip (split "," s)).

Definition DEFECT_LABELS : list string := parse_labels DEFAULT_DEFECT_LABELS.

Definition SEVERITY_UI : list string := ["High"; "Medium"; "Low"].

Definition SEVERITY_MAP : dict string :=
  [("High", "A"); ("Medium", "B"); ("Low", "C")].

(** [{v: k for k, v in d.items()}] *)
Definition invert (d : dict string) : dict string :=
  fold_left (fun acc kv => dict_set acc (snd kv) (fst kv)) d [].

Definition SEVERITY_MAP_REVERSE : dict string := invert SEVERITY_MAP.

End Config.

(** ** api/local_ai_api.py *)

Module LocalAI.

Definition CONFIG_DEFECT_LABELS : list string :=
  Config.parse_labels Config.DEFAULT_DEFECT_LABELS.

Definition INTERNAL_DEFECT_LABELS : list string :=
  ["dent"; "scratch"; "crack"; "glass shatter"; "lamp broken"; "tire flat"].

Definition SEVERITY_LABELS : list string := ["minor"; "moderate"; "severe"].
Definition LOCATION_LABELS : list string := ["front"; "rear"; "side"].

Definition NO_DEFECT_THRESHOLD : Q := 0.25.

Definition _norm (s : string) : string :=
  strip (replace_char " " "_" (lower s)).

(** [{_norm(lbl): lbl for lbl in CONFIG_DEFECT_LABELS}] *)
Definition CONFIG_DEFECT_MAP : dict string :=
  fold_left (fun d lbl => dict_set d (_norm lbl) lbl) CONFIG_DEFECT_LABELS [].

Definition map_internal_defect_to_config (name : string) : string :=
  let key := _norm name in
  dict_get CONFIG_DEFECT_MAP key name.

(** *** Values of a probability vector *)

Inductive prob : Type :=
| PNum (q : Q)
| PNaN.

(** [a < b] on floats: false as soon as one side is NaN. *)
Definition prob_ltb (a b : prob) : bool :=
  match a, b with
  | PNum x, PNum y => negb (Qle_bool y x)
  | _, _ => false
  end.

(** The reduction of [torch.max(dim)] and [torch.argmax(dim)]: a NaN wins
    over every number, and among equal candidates the lowest index wins.
    [beats x best] says that [x], met after [best], replaces it. *)
Definition beats (x best : prob) : bool :=
  match best, x with
  | PNaN, _ => false
  | PNum _, PNaN => true
  | PNum b, PNum a => negb (Qle_bool a b)
  end.

Fixpoint max_from (best : prob) (bi : nat) (i : nat) (l : list prob)
  : prob * nat :=
  match l with
  | [] => (best, bi)
  | x :: l' =>
      if beats x best then max_from x i (S i) l'
      else max_from best bi (S i) l'
  end.

(** [values, indices = t.max(dim=1)] on a row; reducing an empty row
    raises [IndexError]. *)
Definition torch_max (l : list prob) : result (prob * nat) :=
  match l with
  | [] => Err IndexError
  | x :: l' => Ok (max_from x 0 1 l')
  end.

Definition torch_argmax (l : list prob) : result nat :=
  do (_, i) <- torch_max l; Ok i.

(** *** Post-processing *)

Definition _severity_to_abc (sev : string) : string :=
  let sev := lower sev in
  if String.eqb sev "severe" then "A"
  else if String.eqb sev "moderate" then "B"
  else "C".

Definition _decide_action (label severity_abc : string) : string :=
  if String.eqb label "no_defect" then "Pass"
  else if String.eqb severity_abc "A" then "Reject"
  else if String.eqb severity_abc "B" then "Rework"
  else "Hold".

Definition korean_location : dict string :=
  [("front", "전면부"); ("rear", "후면부"); ("side", "측면부")].

Definition korean_severity : dict string :=
  [("C", "경미한"); ("B", "보통 수준의"); ("A", "심각한")].

Definition korean_label : dict string :=
  [("dent", "찌그러짐"); ("scratch", "긁힘"); ("crack", "균열");
   ("glass shatter", "유리 깨짐"); ("lamp broken", "램프 고장");
   ("tire flat", "타이어 터짐")].

Definition _build_description (label severity_abc location : string)
  : result string :=
  if String.eqb label "no_defect" then
    Ok "눈에 띄는 결함이 감지되지 않았습니다."
  else
    do loc <- dict_getitem korean_location location;
    do sev <- dict_getitem korean_severity severity_abc;
    do lbl <- dict_getitem korean_label label;
    Ok ("위치: " ++ loc ++ ", 등급: " ++ sev ++ " 수준의 " ++ lbl
        ++ " 결함이 감지되었습니다.").

Record Verdict : Type := mkVerdict {
  label : string;
  confidence : prob;
  description : string;
  severity : string;
  location : string;
  action : string
}.

(** [classify_image] from the three softmax outputs [probs_def],
    [probs_sev] and [probs_loc] on. *)
Definition classify_probs (probs_def probs_sev probs_loc : list prob)
  : result Verdict :=
  do (conf, idx) <- torch_max probs_def;
  do internal_defect <- getitem INTERNAL_DEFECT_LABELS idx;
  do idx_sev <- torch_argmax probs_sev;
  do sev_label_internal <- getitem SEVERITY_LABELS idx_sev;
  let sev_abc := _severity_to_abc sev_label_internal in
  do idx_loc <- torch_argmax probs_loc;
  do loc_label <- getitem LOCATION_LABELS idx_loc;
  let final_label :=
    if prob_ltb conf (PNum NO_DEFECT_THRESHOLD) then "no_defect"
    else map_internal_defect_to_config internal_defect in
  let action := _decide_action final_label sev_abc in
  do description <- _build_description final_label sev_abc loc_label;
  Ok {| label := final_label;
        confidence := conf;
        description := description;
        severity := sev_abc;
        location := loc_label;
        action := action |}.

(** *** Logits and the softmax *)

(** A value of a logit row: an IEEE number, finite or infinite, or NaN. *)
Inductive logit : Type :=
| LNum (q : Q)
| LInf (negative : bool)
| LNaN.

Definition is_lnan (x : logit) : bool :=
  match x with
  | LNaN => true
  | _ => false
  end.

Definition is_pos_inf (x : logit) : bool :=
  match x with
  | LInf false => true
  | _ => false
  end.

Definition is_neg_inf (x : logit) : bool :=
  match x with
  | LInf true => true
  | _ => false
  end.

(** The rows [torch.softmax] has no numbers for.  It takes the exponential
    of each entry less the largest and divides by the sum: a NaN entry, or
    an entry of plus infinity, or a row of nothing but minus infinity, makes
    a NaN of a term of the sum, and so of every entry of the result. *)
Definition nan_row (row : list logit) : bool :=
  existsb is_lnan row || existsb is_pos_inf row || forallb is_neg_inf row.

(** The numerical part of [torch.softmax], on the other rows. *)
Class Torch : Type := {
  softmax_values : list logit -> list Q
}.

(** [torch.softmax(logits, dim=1)] on the one row of [logits]. *)
Definition softmax `{Torch} (row : list logit) : list prob :=
  if nan_row row then map (fun _ => PNaN) row
  else map PNum (softmax_values row).

(** The classifier up to the logits: opening and preprocessing the image
    and running the network, which gives the three rows of logits.  It
    raises on an image it cannot open. *)
Class Classifier : Type := {
  model_logits : string -> result (list logit * list logit * list logit)
}.

Definition classify_image `{Classifier} `{Torch} (image_path : string)
  : result Verdict :=
  do (logits_def, logits_sev, logits_loc) <- model_logits image_path;
  classify_probs (softmax logits_def) (softmax logits_sev)
    (softmax logits_loc).

End LocalAI.

(** ** db/db.py *)

(** The two external libraries the store leans on.  [hashlib.sha256] is a
    function of the bytes fed to it: feeding a file in chunks of 1 MiB gives
    the digest of the whole content.  SQLite's [datetime()] and [date()]
    return NULL ([None]) on a text they cannot read as a time. *)
Class Hashlib : Type := {
  sha256_hexdigest : list Byte.byte -> string
}.

Class SqliteDate : Type := {
  sql_datetime : string -> option string;
  sql_date : string -> option string
}.

Module DB.

(** A file system as far as [open(fpath, "rb")] and reading to the end see
    it: at each path the content of a file, or the error met (no such file,
    a directory, no permission, ...). *)
Inductive file : Type :=
| Readable (content : list Byte.byte)
| Unreadable (e : os_error).

Definition FileSystem : Type := string -> file.

(** A [float] as SQLite keeps it in the REAL column [score]: the number, or
    NULL for NaN, which [sqlite3] binds as NULL. *)
Definition sql_real (x : LocalAI.prob) : option Q :=
  match x with
  | LocalAI.PNum q => Some q
  | LocalAI.PNaN => None
  end.

Record Row : Type := mkRow {
  id : Z;
  file_name : string;
  image_path : string;
  image_hash : string;
  defect_type : string;
  severity : string;
  location : string;
  score : option Q;
  detail : string;
  action : string;
  ts : string
}.

(** The table [results] and its entry in [sqlite_sequence]. *)
Record Table : Type := mkTable {
  rows : list Row;
  seq : Z
}.

(** A database file: [None] until the table has been created. *)
Definition Database : Type := option Table.

Definition empty_table : Table := {| rows := []; seq := 0 |}.

(** [CREATE TABLE IF NOT EXISTS] and [CREATE INDEX IF NOT EXISTS]: the
    table as it stands once [ensure_schema] has run. *)
Definition ensure_schema (db : Database) : Table :=
  match db with
  | None => empty_table
  | Some t => t
  end.

(** *** The SQL statements of the module *)

Definition max_rowid (rs : list Row) : Z :=
  fold_right (fun r m => Z.max (id r) m) 0%Z rs.

(** The rowid an AUTOINCREMENT table gives to a new row: one more than the
    largest rowid it has ever handed out. *)
Definition new_rowid (t : Table) : Z :=
  (Z.max (max_rowid (rows t)) (seq t) + 1)%Z.

(** The unique indices [idx_results_image_path] and
    [idx_results_image_hash]. *)
Definition unique_conflict (rs : list Row) (path hash : string) : bool :=
  existsb (fun r => String.eqb (image_path r) path
                    || String.eqb (image_hash r) hash) rs.

(** The row a statement writes from the values [v] bound to its
    parameters: a new row under the rowid [rid], and an existing row [r]
    after [SET file_name=?, image_path=?, defect_type=?, severity=?,
    location=?, score=?, detail=?, action=?, ts=?], which leaves [id] and
    [image_hash] alone. *)
Definition stored (rid : Z) (v : Row) : Row :=
  {| id := rid;
     file_name := file_name v;
     image_path := image_path v;
     image_hash := image_hash v;
     defect_type := defect_type v;
     severity := severity v;
     location := location v;
     score := score v;
     detail := detail v;
     action := action v;
     ts := ts v |}.

Definition overwrite (r v : Row) : Row :=
  {| id := id r;
     file_name := file_name v;
     image_path := image_path v;
     image_hash := image_hash r;
     defect_type := defect_type v;
     severity := severity v;
     location := location v;
     score := score v;
     detail := detail v;
     action := action v;
     ts := ts v |}.

(** [INSERT OR IGNORE INTO results (...) VALUES (...)]: the row count and
    the table afterwards.  The rowid is drawn before the indices are
    checked, so a skipped row still moves the counter on. *)
Definition sql_insert_or_ignore (t : Table) (v : Row) : Z * Table :=
  let rid := new_rowid t in
  if unique_conflict (rows t) (image_path v) (image_hash v) then
    (0%Z, {| rows := rows t; seq := rid |})
  else
    (1%Z, {| rows := rows t ++ [stored rid v]; seq := rid |}).

(** [INSERT INTO results (...) VALUES (...)]: [lastrowid] and the table
    afterwards, or [sqlite3.IntegrityError] with the statement undone. *)
Definition sql_insert (t : Table) (v : Row) : result (Z * Table) :=
  let rid := new_rowid t in
  if unique_conflict (rows t) (image_path v) (image_hash v) then
    Err IntegrityError
  else
    Ok (rid, {| rows := rows t ++ [stored rid v]; seq := rid |}).

(** [SELECT id FROM results WHERE image_hash = ?] followed by
    [fetchone()]. *)
Definition sql_select_id_by_hash (t : Table) (hash : string) : option Z :=
  match find (fun r => String.eqb (image_hash r) hash) (rows t) with
  | Some r => Some (id r)
  | None => None
  end.

(** [UPDATE results SET file_name=?, image_path=?, defect_type=?, ...
    WHERE id=?]: every column but [id] and [image_hash] is overwritten.
    The new path must not be that of another row. *)
Definition sql_update (t : Table) (rid : Z) (v : Row) : result Table :=
  if existsb (fun r => Z.eqb (id r) rid) (rows t)
     && existsb (fun r => negb (Z.eqb (id r) rid)
                          && String.eqb (image_path r) (image_path v))
                (rows t)
  then Err IntegrityError
  else
    Ok {| rows := map (fun r => if Z.eqb (id r) rid then overwrite r v else r)
                  (rows t);
          seq := seq t |}.

(** [DELETE FROM results WHERE id IN (?, ..., ?)]: the row count and the
    table afterwards. *)
Definition sql_delete_in (t : Table) (ids : list Z) : Z * Table :=
  let hit := fun r => existsb (Z.eqb (id r)) ids in
  (Z.of_nat (List.length (filter hit (rows t))),
   {| rows := filter (fun r => negb (hit r)) (rows t); seq := seq t |}).

(** The ten columns every [SELECT] of the module lists, in its order. *)
Definition Selected : Type :=
  (Z * string * string * string * string * string * option Q * string
   * string * string)%type.

Definition select_cols (r : Row) : Selected :=
  (id r, image_path r, file_name r, defect_type r, severity r, location r,
   score r, detail r, action r, ts r).

(** Order of two SQL values of type text-or-NULL: NULL sorts first. *)
Definition null_compare (a b : option string) : comparison :=
  match a, b with
  | None, None => Eq
  | None, Some _ => Lt
  | Some _, None => Gt
  | Some x, Some y => String.compare x y
  end.

Section Queries.
Context `{SqliteDate}.

(** [ORDER BY datetime(ts) DESC, id DESC]: [order_before a b] when [a] is
    not to come after [b]. *)
Definition order_before (a b : Row) : bool :=
  match null_compare (sql_datetime (ts a)) (sql_datetime (ts b)) with
  | Gt => true
  | Lt => false
  | Eq => Z.leb (id b) (id a)
  end.

Fixpoint insert_sorted (r : Row) (l : list Row) : list Row :=
  match l with
  | [] => [r]
  | x :: l' => if order_before r x then r :: l else x :: insert_sorted r l'
  end.

Definition order_by (rs : list Row) : list Row :=
  fold_right insert_sorted [] rs.

(** [LIMIT ?]: a negative limit is no limit. *)
Definition sql_limit {A : Type} (n : Z) (l : list A) : list A :=
  if (n <? 0)%Z then l else firstn (Z.to_nat n) l.

(** [x LIKE pattern], on bytes: [%] stands for any run of characters, [_]
    for any one, and letters of the ASCII range match without regard to
    case. *)
Fixpoint sql_like (pattern text : string) : bool :=
  match pattern with
  | EmptyString =>
      match text with
      | EmptyString => true
      | String _ _ => false
      end
  | String p pattern' =>
      if Ascii.eqb p "%" then
        (fix skip (t : string) : bool :=
           sql_like pattern' t
           || match t with
              | EmptyString => false
              | String _ t' => skip t'
              end) text
      else
        match text with
        | EmptyString => false
        | String c text' =>
            (Ascii.eqb p "_" || Ascii.eqb (lower_ascii p) (lower_ascii c))
            && sql_like pattern' text'
        end
  end.

(** [a >= b] and [a <= b] on SQL values: NULL on a NULL side, which a
    WHERE clause takes as false. *)
Definition sql_ge (a b : option string) : bool :=
  match a, b with
  | Some x, Some y => String.leb y x
  | _, _ => false
  end.

Definition sql_le (a b : option string) : bool :=
  match a, b with
  | Some x, Some y => String.leb x y
  | _, _ => false
  end.

(** One [AND ...] term of the WHERE clause per argument that is given and
    not empty. *)
Definition clause (arg : option string) (test : string -> Row -> bool)
  : list (Row -> bool) :=
  match arg with
  | Some a => if truthy a then [test a] else []
  | None => []
  end.

Definition where_clauses
  (defect_type severity action location keyword date_from date_to
   : option string) : list (Row -> bool) :=
  clause defect_type (fun a r => String.eqb (DB.defect_type r) a)
  ++ clause severity (fun a r => String.eqb (DB.severity r) a)
  ++ clause action (fun a r => String.eqb (DB.action r) a)
  ++ clause location (fun a r => sql_like ("%" ++ a ++ "%") (DB.location r))
  ++ clause keyword (fun a r =>
       let w := "%" ++ a ++ "%" in
       sql_like w (file_name r) || sql_like w (detail r)
       || sql_like w (DB.location r))
  ++ clause date_from (fun a r => sql_ge (sql_date (ts r)) (sql_date a))
  ++ clause date_to (fun a r => sql_le (sql_date (ts r)) (sql_date a)).

Definition fetch_results (limit : Z) (db : Database)
  : list Selected * Database :=
  let t := ensure_schema db in
  (map select_cols (sql_limit limit (order_by (rows t))), Some t).

Definition search_results
  (defect_type severity action location keyword date_from date_to
   : option string) (limit : Z) (db : Database)
  : list Selected * Database :=
  let t := ensure_schema db in
  let base :=
    where_clauses defect_type severity action location keyword date_from
      date_to in
  (map select_cols
     (sql_limit limit
        (order_by (filter (fun r => forallb (fun c => c r) base) (rows t)))),
   Some t).

End Queries.

Section Writes.
Context `{Hashlib}.

Definition _file_sha256 (fs : FileSystem) (fpath : string) : result string :=
  match fs fpath with
  | Readable content => Ok (sha256_hexdigest content)
  | Unreadable e => Err (raised e)
  end.

(** [Path(image_path).name] in the POSIX flavour: the last component of the
    path, empty and ["."] components set aside. *)
Definition path_name (image_path : string) : string :=
  last (filter (fun c => truthy c && negb (String.eqb c "."))
          (split "/" image_path)) EmptyString.

(** [ts or datetime.now().strftime("%Y-%m-%d %H:%M:%S")], with [now] the
    formatted reading of the clock. *)
Definition ts_or_now (ts : option string) (now : string) : string :=
  match ts with
  | Some s => if truthy s then s else now
  | None => now
  end.

(** [if defect_type not in DEFECT_LABELS: defect_type = DEFECT_LABELS[0]] *)
Definition check_label (defect_type : string) : result string :=
  if negb (contains Config.DEFECT_LABELS defect_type) then
    getitem Config.DEFECT_LABELS 0
  else Ok defect_type.

(** What both write operations compute before they open the connection:
    the values they bind, as the row to be written, its [id] still to be
    given.  [float(score)] is the score itself, and is kept as [sql_real]
    has it. *)
Definition prepare (fs : FileSystem) (now : string)
  (image_path defect_type severity location : string) (score : LocalAI.prob)
  (detail action : string) (ts : option string) : result Row :=
  do ihash <- _file_sha256 fs image_path;
  let file_name := path_name image_path in
  let ts_val := ts_or_now ts now in
  do defect_type <- check_label defect_type;
  Ok {| id := 0;
        file_name := file_name;
        image_path := image_path;
        image_hash := ihash;
        defect_type := defect_type;
        severity := severity;
        location := location;
        score := sql_real score;
        detail := detail;
        action := action;
        ts := ts_val |}.

Definition insert_result (fs : FileSystem) (now : string)
  (image_path defect_type severity location : string) (score : LocalAI.prob)
  (detail action : string) (ts : option string) (db : Database)
  : result bool * Database :=
  let t := ensure_schema db in
  match prepare fs now image_path defect_type severity location score
          detail action ts with
  | Err e => (Err e, Some t)
  | Ok v =>
      let (rowcount, t') := sql_insert_or_ignore t v in
      let ok := Z.eqb rowcount 1 in
      (Ok ok, Some t')
  end.

Definition upsert_result (fs : FileSystem) (now : string)
  (image_path defect_type severity location : string) (score : LocalAI.prob)
  (detail action : string) (ts : option string) (db : Database)
  : result Z * Database :=
  let t := ensure_schema db in
  match prepare fs now image_path defect_type severity location score
          detail action ts with
  | Err e => (Err e, Some t)
  | Ok v =>
      match sql_select_id_by_hash t (image_hash v) with
      | Some rid =>
          match sql_update t rid v with
          | Ok t' => (Ok rid, Some t')
          | Err e => (Err e, Some t)
          end
      | None =>
          match sql_insert t v with
          | Ok (rid, t') => (Ok rid, Some t')
          | Err e => (Err e, Some t)
          end
      end
  end.

End Writes.

Definition delete_results (ids : list Z) (db : Database) : Z * Database :=
  match ids with
  | [] => (0%Z, db)
  | _ :: _ =>
      let t := ensure_schema db in
      let (n, t') := sql_delete_in t ids in
      (n, Some t')
  end.

(** *** What the schema guarantees

    The primary key and the two unique indices, and the counter being ahead
    of every rowid in use. *)
Record table_ok (t : Table) : Prop := {
  ok_ids : NoDup (map id (rows t));
  ok_paths : NoDup (map image_path (rows t));
  ok_hashes : NoDup (map image_hash (rows t));
  ok_seq : Forall (fun r => (0 < id r <= seq t)%Z) (rows t)
}.

Definition db_ok (db : Database) : Prop := table_ok (ensure_schema db).

(** The Records of a database. *)
Definition records (db : Database) : list Row := rows (ensure_schema db).

End DB.

(** ** Vocabulary of the specification *)

Module Spec.
Import LocalAI.

(** The three tier codes, and the text the engine hands out for each. *)
Inductive tier : Type := TierA | TierB | TierC.

Definition tier_code (t : tier) : string :=
  match t with
  | TierA => "A"
  | TierB => "B"
  | TierC => "C"
  end.

(** The decision table of the specification: no finding gives Pass;
    otherwise the high tier gives Reject, the medium tier Rework and the low
    tier Hold. *)
Definition action_table (no_finding : bool) (t : tier) : string :=
  match no_finding, t with
  | true, _ => "Pass"
  | false, TierA => "Reject"
  | false, TierB => "Rework"
  | false, TierC => "Hold"
  end.

Definition is_nan (p : prob) : bool :=
  match p with
  | PNaN => true
  | PNum _ => false
  end.

Definition is_zero (p : prob) : bool :=
  match p with
  | PNum q => Qeq_bool q 0
  | PNaN => false
  end.

(** The two degenerate rows of the specification. *)
Definition all_zero (l : list prob) : bool := forallb is_zero l.
Definition has_nan (l : list prob) : bool := existsb is_nan l.

Fixpoint first_nan (l : list prob) : option nat :=
  match l with
  | [] => None
  | p :: l' =>
      if is_nan p then Some 0%nat
      else match first_nan l' with
           | Some i => Some (S i)
           | None => None
           end
  end.

(** The threshold test, as a proposition on the confidence. *)
Definition at_least (p : prob) (t : Q) : Prop :=
  match p with
  | PNum q => t <= q
  | PNaN => False
  end.

Definition below (p : prob) (t : Q) : Prop :=
  match p with
  | PNum q => q < t
  | PNaN => False
  end.

(** C8 as the specification words it: an input whose row of defect
    probabilities is degenerate is turned down with an error. *)
Definition degenerate_rows_rejected : Prop :=
  forall (C : Classifier) (T : Torch) (image_path : string)
         (ld ls ll : list logit),
    model_logits image_path = Ok (ld, ls, ll) ->
    all_zero (softmax ld) = true \/ has_nan (softmax ld) = true ->
    exists e, classify_image image_path = Err e.

(** *** A small world for the concrete runs of the engine *)

(** A network gone wrong, as one with a NaN among its weights is: every
    logit it gives is NaN. *)
Definition nan_classifier : Classifier :=
  {| model_logits := fun _ =>
       Ok ([LNaN; LNaN; LNaN; LNaN; LNaN; LNaN], [LNaN; LNaN; LNaN],
           [LNaN; LNaN; LNaN]) |}.

(** A stand-in for the numerical part of the softmax: the uniform row. *)
Definition demo_torch : Torch :=
  {| softmax_values := fun row =>
       map (fun _ => 1 # Pos.of_nat (List.length row)) row |}.

End Spec.

(** ** Vocabulary of the specification: the store *)

Module StoreSpec.
Import DB.

(** The label a write stores: the argument when it is a configured label,
    the first configured label otherwise. *)
Definition coerce (defect_type : string) : string :=
  if contains Config.DEFECT_LABELS defect_type then defect_type
  else "no_defect".

(** The ids among [ids] that some Record of the database bears. *)
Definition existing_ids (db : Database) (ids : list Z) : list Z :=
  filter (fun i => existsb (fun r => Z.eqb (id r) i) (records db)) ids.

(** The score a Record bears is the very score given: a NaN given is not
    found again, the column then holds NULL. *)
Definition same_score (kept : option Q) (given : LocalAI.prob) : Prop :=
  match given with
  | LocalAI.PNum q => kept = Some q
  | LocalAI.PNaN => False
  end.

(** [name] is the last component of the path [p]: a name that holds no
    slash, is not empty and is not ["."], standing alone or behind the last
    slash of [p]. *)
Definition last_component (p name : string) : Prop :=
  name <> EmptyString /\ name <> "."
  /\ ~ In "/"%char (list_ascii_of_string name)
  /\ (p = name \/ exists dir, p = dir ++ "/" ++ name).

(** C2 as the specification words it: after two upserts of the same
    content, the first on content not yet stored, both calls return the same
    id and the Record bears the very values handed to the second call. *)
Definition upsert_keeps_latest_values : Prop :=
  forall (H : Hashlib) (fs1 fs2 : FileSystem) (now1 now2 : string)
         (p1 l1 s1 loc1 : string) (sc1 : LocalAI.prob) (d1 a1 ts1 : string)
         (p2 l2 s2 loc2 : string) (sc2 : LocalAI.prob) (d2 a2 ts2 : string)
         (db : Database) (c1 c2 : list Byte.byte),
    fs1 p1 = Readable c1 -> fs2 p2 = Readable c2 ->
    sha256_hexdigest c1 = sha256_hexdigest c2 ->
    (forall r, In r (records db) -> image_hash r <> sha256_hexdigest c1) ->
    let o1 := upsert_result fs1 now1 p1 l1 s1 loc1 sc1 d1 a1 (Some ts1) db in
    let o2 :=
      upsert_result fs2 now2 p2 l2 s2 loc2 sc2 d2 a2 (Some ts2) (snd o1) in
    exists N r,
      fst o1 = Ok N /\ fst o2 = Ok N
      /\ In r (records (snd o2)) /\ id r = N
      /\ file_name r = path_name p2 /\ image_path r = p2
      /\ defect_type r = l2 /\ severity r = s2 /\ location r = loc2
      /\ same_score (score r) sc2
      /\ detail r = d2 /\ action r = a2 /\ ts r = ts2.

(** *** A small world for the concrete runs *)

(** A stand-in for the digest: one-to-one, as SHA-256 is taken to be. *)
Definition demo_hashlib : Hashlib :=
  {| sha256_hexdigest := string_of_list_byte |}.

(** Three files in two directories; the first two files have the same
    content. *)
Definition demo_fs : FileSystem :=
  fun fpath =>
    if String.eqb fpath "in/a.png" then Readable [Byte.x89; Byte.x50; Byte.x4e]
    else if String.eqb fpath "copy/a.png" then
      Readable [Byte.x89; Byte.x50; Byte.x4e]
    else if String.eqb fpath "in/b.png" then Readable [Byte.xff; Byte.xd8]
    else if String.eqb fpath "in" then Unreadable EISDIR
    else if String.eqb fpath "copy" then Unreadable EISDIR
    else Unreadable ENOENT.

(** The same paths after the file at ["in/a.png"] has been edited in
    place. *)
Definition demo_fs_edited : FileSystem :=
  fun fpath =>
    if String.eqb fpath "in/a.png" then Readable [Byte.x89; Byte.x50; Byte.x00]
    else demo_fs fpath.

Definition demo_now : string := "2025-01-02 03:04:05".

(** [datetime()] and [date()] on the one format the store writes,
    [YYYY-MM-DD HH:MM:SS]: the text itself and its first ten characters;
    NULL on a text of another length. *)
Definition demo_sqlite : SqliteDate :=
  {| sql_datetime := fun s =>
       if Nat.eqb (String.length s) 19 then Some s else None;
     sql_date := fun s =>
       if Nat.eqb (String.length s) 19 || Nat.eqb (String.length s) 10
       then Some (substring 0 10 s) else None |}.

(** The database after ["in/a.png"] has been inserted into a fresh one. *)
Definition demo_db : Database :=
  snd (@insert_result demo_hashlib demo_fs demo_now "in/a.png" "dent" "A"
         "front" (LocalAI.PNum 0.9) EmptyString "Reject" None None).

End StoreSpec.

(** ** gui/main_app.py: what the window computes around the engine and the
    store *)

Module MainApp.
Import LocalAI.






(** The loop of [on_upload_folder] over [candidates]: a path met before or
    already stored is skipped, the others are kept in their order.  The two
    sets are lists here, [seen.add(f)] puts [f] in front. *)
Fixpoint unique_paths_loop (candidates existing_paths seen : list string)
  : list string :=
  match candidates with
  | [] => []
  | f :: rest =>
      if contains seen f then unique_paths_loop rest existing_paths seen
      else if contains existing_paths f then
        unique_paths_loop rest existing_paths (f :: seen)
      else f :: unique_paths_loop rest existing_paths (f :: seen)
  end.

Definition unique_paths (candidates existing_paths : list string)
  : list string :=
  unique_paths_loop candidates existing_paths [].

(** [{row[1] for row in fetch_results(limit=100000)}], as a list. *)
Definition existing_paths `{SqliteDate} (db : DB.Database) : list string :=
  map (fun row : DB.Selected =>
         snd (fst (fst (fst (fst (fst (fst (fst (fst row)))))))))
    (fst (DB.fetch_results 100000 db)).

End MainApp.

(** ** Runs of the store *)

Module StoreRun.
Import DB.

(** One call of a write operation, with the file system and the clock as
    they are when it is made. *)
Inductive call : Type :=
| EnsureSchema
| Insert (fs : FileSystem) (now : string)
    (image_path defect_type severity location : string) (score : LocalAI.prob)
    (detail action : string) (ts : option string)
| Upsert (fs : FileSystem) (now : string)
    (image_path defect_type severity location : string) (score : LocalAI.prob)
    (detail action : string) (ts : option string)
| Delete (ids : list Z).

Definition step `{Hashlib} (c : call) (db : Database) : Database :=
  match c with
  | EnsureSchema => Some (ensure_schema db)
  | Insert fs now p l s loc sc d a ts0 =>
      snd (insert_result fs now p l s loc sc d a ts0 db)
  | Upsert fs now p l s loc sc d a ts0 =>
      snd (upsert_result fs now p l s loc sc d a ts0 db)
  | Delete ids => snd (delete_results ids db)
  end.

(** The calls made one after the other, an exception of one not stopping
    the next. *)
Definition run `{Hashlib} (calls : list call) (db : Database) : Database :=
  fold_left (fun db c => step c db) calls db.

(** Columns of a selected row. *)
Definition sel_id (row : Selected) : Z :=
  fst (fst (fst (fst (fst (fst (fst (fst (fst row)))))))).

Definition sel_defect_type (row : Selected) : string :=
  snd (fst (fst (fst (fst (fst (fst row)))))).

Definition sel_severity (row : Selected) : string :=
  snd (fst (fst (fst (fst (fst row))))).

Definition sel_ts (row : Selected) : string := snd row.

(** The order of a result set, on two of its rows: [a] does not belong
    after [b]. *)
Definition newer_first `{SqliteDate} (a b : Selected) : Prop :=
  match null_compare (sql_datetime (sel_ts a)) (sql_datetime (sel_ts b)) with
  | Gt => True
  | Lt => False
  | Eq => (sel_id b <= sel_id a)%Z
  end.

(** The same order on two rows of the table. *)
Definition before `{SqliteDate} (a b : Row) : Prop :=
  order_before a b = true.

(** The values a write operation binds for a readable file of content
    [c], and the row a query shows for them under the id [rid]. *)
Definition bound_values `{Hashlib} (now p l s loc : string) (sc : LocalAI.prob)
  (d a : string) (ts0 : option string) (c : list Byte.byte) : Row :=
  {| id := 0;
     file_name := path_name p;
     image_path := p;
     image_hash := sha256_hexdigest c;
     defect_type := StoreSpec.coerce l;
     severity := s;
     location := loc;
     score := sql_real sc;
     detail := d;
     action := a;
     ts := ts_or_now ts0 now |}.

Definition shown_row (rid : Z) (now p l s loc : string) (sc : LocalAI.prob)
  (d a : string) (ts0 : option string) : Selected :=
  (rid, p, path_name p, StoreSpec.coerce l, s, loc, sql_real sc, d, a,
   ts_or_now ts0 now).

(** Every Record bears a configured label. *)
Definition labelled (db : Database) : Prop :=
  Forall (fun r => In (defect_type r) Config.DEFECT_LABELS) (records db).

(** The WHERE clause of [search_results] as one test. *)
Definition matches `{SqliteDate}
  (defect_type severity action location keyword date_from date_to
   : option string) (r : Row) : bool :=
  forallb (fun c => c r)
    (where_clauses defect_type severity action location keyword date_from
       date_to).

End StoreRun.

Example DEFECT_LABELS_value :
  Config.DEFECT_LABELS
  = ["no_defect"; "dent"; "scratch"; "crack"; "glass shatter"; "lamp broken";
     "tire flat"].
Proof. reflexivity. Qed.

Example CONFIG_DEFECT_MAP_value :
  LocalAI.CONFIG_DEFECT_MAP
  = [("no_defect", "no_defect"); ("dent", "dent"); ("scratch", "scratch");
     ("crack", "crack"); ("glass_shatter", "glass shatter");
     ("lamp_broken", "lamp broken"); ("tire_flat", "tire flat")].
Proof. reflexivity. Qed.

Example norm_glass_shatter :
  LocalAI._norm "Glass Shatter" = "glass_shatter"
  /\ LocalAI._norm " Dent" = "_dent".
Proof. split; reflexivity. Qed.

Example path_name_last_component :
  DB.path_name "scan/./2025//a.png" = "a.png" /\ DB.path_name "/" = EmptyString.
Proof. split; reflexivity. Qed.

Example sql_like_runs :
  DB.sql_like "%DENT%" "small dent, left" = true
  /\ DB.sql_like "fr_nt" "Front" = true
  /\ DB.sql_like "%rear%" "front" = false.
Proof. repeat split; reflexivity. Qed.

(** Two Records with the same timestamp come out in descending id order,
    and a predicate on the label keeps the matching one. *)
Example fetch_and_search_run :
  let db :=
    snd (@DB.insert_result StoreSpec.demo_hashlib StoreSpec.demo_fs
           StoreSpec.demo_now "in/b.png" "scratch" "C" "rear" (LocalAI.PNum 0.6)
           EmptyString "Hold" None StoreSpec.demo_db) in
  map (fun row => fst (fst (fst (fst (fst (fst (fst (fst (fst row)))))))))
    (fst (@DB.fetch_results StoreSpec.demo_sqlite 200 db)) = [2%Z; 1%Z]
  /\ map (fun row => fst (fst (fst (fst (fst (fst (fst (fst (fst row)))))))))
       (fst (@DB.search_results StoreSpec.demo_sqlite (Some "dent") None
               None None (Some "A.PNG") (Some "2025-01-01") None 500 db))
     = [1%Z].
Proof. vm_compute. split; reflexivity. Qed.

(** ** The decision engine *)

Module LocalAIFacts.
Import LocalAI.

(** *** The arg-max *)

Lemma max_from_nan (l : list prob) (bi i : nat) :
  max_from PNaN bi i l = (PNaN, bi).
Proof.
  revert i; induction l as [|x l IH]; intros i; simpl; [reflexivity|].
  apply IH.
Qed.

Lemma max_from_index (l : list prob) :
  forall best bi i, (bi < i)%nat ->
    (snd (max_from best bi i l) < i + List.length l)%nat.
Proof.
  induction l as [|x l IH]; intros best bi i Hlt; simpl.
  - lia.
  - destruct (beats x best).
    + specialize (IH x i (S i)). lia.
    + specialize (IH best bi (S i)). lia.
Qed.

Lemma torch_max_index (l : list prob) (c : prob) (i : nat) :
  torch_max l = Ok (c, i) -> (i < List.length l)%nat.
Proof.
  destruct l as [|x l]; simpl; [discriminate|].
  intros E; injection E as E.
  pose proof (max_from_index l x 0%nat 1%nat ltac:(lia)) as Hb.
  rewrite E in Hb; simpl in Hb. lia.
Qed.

Lemma torch_max_nonempty (l : list prob) :
  l <> [] -> exists c i, torch_max l = Ok (c, i).
Proof.
  destruct l as [|x l]; [congruence|]; intros _; simpl.
  destruct (max_from x 0 1 l) as [c i]; eauto.
Qed.

(** The value found bounds the start value and every number of the row. *)
Lemma max_from_upper (l : list prob) :
  forall best bi i c j,
    max_from best bi i l = (PNum c, j) ->
    (forall q, best = PNum q -> q <= c)
    /\ (forall q, In (PNum q) l -> q <= c).
Proof.
  induction l as [|x l IH]; intros best bi i c j E; simpl in E.
  - injection E as E _; subst best. split.
    + intros q [= ->]. apply Qle_refl.
    + intros q [].
  - destruct (beats x best) eqn:B.
    + destruct (IH _ _ _ _ _ E) as [Hx Hl].
      destruct best as [b|]; [|discriminate B].
      destruct x as [a|].
      * simpl in B. apply negb_true_iff in B.
        assert (Hba : b <= a).
        { destruct (Qlt_le_dec a b) as [L|L]; [|exact L].
          apply Qlt_le_weak in L. apply Qle_bool_iff in L. congruence. }
        split.
        -- intros q [= <-]. eapply Qle_trans; [exact Hba|].
           apply Hx; reflexivity.
        -- intros q [[= <-]|Hin]; [apply Hx; reflexivity|apply Hl; exact Hin].
      * rewrite max_from_nan in E. discriminate E.
    + destruct (IH _ _ _ _ _ E) as [Hb Hl].
      destruct best as [b|]; [|rewrite max_from_nan in E; discriminate E].
      destruct x as [a|]; [|discriminate B].
      simpl in B. apply negb_false_iff in B. apply Qle_bool_iff in B.
      split.
      * exact Hb.
      * intros q [[= <-]|Hin]; [|apply Hl; exact Hin].
        eapply Qle_trans; [exact B|]. apply Hb; reflexivity.
Qed.

(** The value found stands in the row at the index found. *)
Lemma max_from_nth (l : list prob) :
  forall best bi i c j,
    max_from best bi i l = (c, j) ->
    (c = best /\ j = bi)
    \/ (exists k, nth_error l k = Some c /\ j = (i + k)%nat).
Proof.
  induction l as [|x l IH]; intros best bi i c j E; simpl in E.
  - injection E as <- <-; left; split; reflexivity.
  - destruct (beats x best).
    + destruct (IH _ _ _ _ _ E) as [[-> ->]|[k [Hk ->]]].
      * right; exists 0%nat; split; [reflexivity|lia].
      * right; exists (S k); split; [exact Hk|lia].
    + destruct (IH _ _ _ _ _ E) as [[-> ->]|[k [Hk ->]]].
      * left; split; reflexivity.
      * right; exists (S k); split; [exact Hk|lia].
Qed.

(** [torch_max] is an arg-max: the value stands at the index, and on a row
    where it is a number it bounds every number of the row. *)
Lemma torch_max_spec (l : list prob) (c : prob) (i : nat) :
  torch_max l = Ok (c, i) ->
  nth_error l i = Some c
  /\ forall m, c = PNum m -> forall q, In (PNum q) l -> q <= m.
Proof.
  destruct l as [|x l]; simpl; [discriminate|].
  intros E; injection E as E. split.
  - destruct (max_from_nth _ _ _ _ _ _ E) as [[-> ->]|[k [Hk ->]]];
      [reflexivity|exact Hk].
  - intros m -> q Hin.
    destruct (max_from_upper _ _ _ _ _ _ E) as [Hx Hl].
    destruct Hin as [Hq|Hin]; [apply Hx; exact Hq|apply Hl; exact Hin].
Qed.

(** *** The verdict *)

Lemma classify_probs_shape (pd ps pl : list prob) (conf : prob) (idx : nat) :
  List.length pd = 6%nat -> List.length ps = 3%nat -> List.length pl = 3%nat ->
  torch_max pd = Ok (conf, idx) ->
  exists internal v,
    nth_error INTERNAL_DEFECT_LABELS idx = Some internal
    /\ classify_probs pd ps pl = Ok v
    /\ confidence v = conf
    /\ label v = (if prob_ltb conf (PNum NO_DEFECT_THRESHOLD) then "no_defect"
                  else map_internal_defect_to_config internal)
    /\ map_internal_defect_to_config internal <> "no_defect"
    /\ action v = _decide_action (label v) (severity v).
Proof.
  intros Hd Hs Hl E.
  pose proof (torch_max_index _ _ _ E) as Hi. rewrite Hd in Hi.
  destruct (torch_max_nonempty ps) as [cs [js Es]].
  { intros ->; discriminate Hs. }
  destruct (torch_max_nonempty pl) as [cl [jl El]].
  { intros ->; discriminate Hl. }
  pose proof (torch_max_index _ _ _ Es) as Hjs. rewrite Hs in Hjs.
  pose proof (torch_max_index _ _ _ El) as Hjl. rewrite Hl in Hjl.
  unfold classify_probs, torch_argmax. rewrite E, Es, El.
  cbv beta iota delta [Py.bind].
  set (b := prob_ltb conf (PNum NO_DEFECT_THRESHOLD)); clearbody b.
  match goal with
  | |- exists internal v, _ /\ ?r = Ok v /\ _ =>
      exists (nth idx INTERNAL_DEFECT_LABELS EmptyString),
        (match r with
         | Ok v => v
         | Err _ =>
             mkVerdict EmptyString conf EmptyString EmptyString EmptyString
               EmptyString
         end)
  end.
  do 6 (try destruct idx as [|idx]); try (exfalso; lia);
    (do 3 (try destruct js as [|js]); try (exfalso; lia));
    (do 3 (try destruct jl as [|jl]); try (exfalso; lia));
    destruct b;
    vm_compute; repeat split; (reflexivity || discriminate).
Qed.

Lemma below_ltb (conf : prob) (t : Q) :
  Spec.below conf t -> prob_ltb conf (PNum t) = true.
Proof.
  destruct conf as [c|]; simpl; [|intros []].
  intros L. apply negb_true_iff.
  destruct (Qle_bool t c) eqn:B; [|reflexivity].
  apply Qle_bool_iff in B. exfalso. exact (Qlt_not_le _ _ L B).
Qed.

Lemma at_least_ltb (conf : prob) (t : Q) :
  Spec.at_least conf t -> prob_ltb conf (PNum t) = false.
Proof.
  destruct conf as [c|]; simpl; [|intros []].
  intros L. apply negb_false_iff. apply Qle_bool_iff. exact L.
Qed.

Lemma classify_image_probs `{Classifier} `{Torch} (image_path : string)
  (ld ls ll : list logit) :
  model_logits image_path = Ok (ld, ls, ll) ->
  classify_image image_path
  = classify_probs (softmax ld) (softmax ls) (softmax ll).
Proof. intros E. unfold classify_image. rewrite E. reflexivity. Qed.

(** *** The arg-max is the first largest entry *)

Lemma beats_lt (a b : Q) : beats (PNum a) (PNum b) = true -> b < a.
Proof.
  simpl. intros B. apply negb_true_iff in B.
  apply Qnot_le_lt. intros L. apply Qle_bool_iff in L. congruence.
Qed.

Lemma beats_le (a b : Q) : beats (PNum a) (PNum b) = false -> a <= b.
Proof.
  simpl. intros B. apply negb_false_iff in B. apply Qle_bool_iff. exact B.
Qed.

(** Where the value found is a number met in the row, the start value and
    every number met before it are strictly smaller. *)
Lemma max_from_first (l : list prob) :
  forall best bi i m j,
    max_from best bi i l = (PNum m, j) ->
    (best = PNum m /\ j = bi)
    \/ exists k,
         j = (i + k)%nat
         /\ (forall b, best = PNum b -> b < m)
         /\ forall k' q, (k' < k)%nat ->
                         nth_error l k' = Some (PNum q) -> q < m.
Proof.
  induction l as [|x l IH]; intros best bi i m j E; cbn [max_from] in E.
  - injection E as -> ->. left. split; reflexivity.
  - destruct best as [b|];
      [|cbn [beats] in E; rewrite max_from_nan in E; discriminate E].
    destruct x as [a|];
      [|cbn [beats] in E; rewrite max_from_nan in E; discriminate E].
    destruct (beats (PNum a) (PNum b)) eqn:B.
    + apply beats_lt in B.
      destruct (IH _ _ _ _ _ E) as [[Ha ->]|(k & -> & Hbest & Hent)].
      * injection Ha as ->. right. exists 0%nat.
        split; [lia|]. split.
        -- intros b0 [= <-]. exact B.
        -- intros k' q Hk. lia.
      * right. exists (S k). split; [lia|]. split.
        -- intros b0 [= <-].
           exact (Qlt_trans _ _ _ B (Hbest a eq_refl)).
        -- intros [|k'] q Hk Hq; cbn [nth_error] in Hq.
           ++ injection Hq as <-. exact (Hbest a eq_refl).
           ++ apply (Hent k' q); [lia|exact Hq].
    + apply beats_le in B.
      destruct (IH _ _ _ _ _ E) as [[Hb ->]|(k & -> & Hbest & Hent)].
      * left. split; [exact Hb|reflexivity].
      * right. exists (S k). split; [lia|]. split; [exact Hbest|].
        intros [|k'] q Hk Hq; cbn [nth_error] in Hq.
        -- injection Hq as <-.
           exact (Qle_lt_trans _ _ _ B (Hbest b eq_refl)).
        -- apply (Hent k' q); [lia|exact Hq].
Qed.

Lemma torch_max_first (l : list prob) (m : Q) (i : nat) :
  torch_max l = Ok (PNum m, i) ->
  forall k q, (k < i)%nat -> nth_error l k = Some (PNum q) -> q < m.
Proof.
  destruct l as [|x l]; cbn [torch_max]; [discriminate|].
  intros E; injection E as E. intros k q Hk Hq.
  destruct (max_from_first _ _ _ _ _ _ E)
    as [[_ ->]|(k0 & -> & Hbest & Hent)]; [lia|].
  destruct k as [|k]; cbn [nth_error] in Hq.
  - injection Hq as ->. apply Hbest. reflexivity.
  - apply (Hent k q); [lia|exact Hq].
Qed.

(** On a row of numbers, [torch_max] gives the largest entry, at the first
    index where it stands. *)
Lemma torch_max_first_max (l : list prob) (c : Q) (idx : nat) :
  nth_error l idx = Some (PNum c) ->
  (forall j p, nth_error l j = Some p -> exists q, p = PNum q /\ q <= c) ->
  (forall j q, (j < idx)%nat -> nth_error l j = Some (PNum q) -> q < c) ->
  torch_max l = Ok (PNum c, idx).
Proof.
  intros Hidx Hmax Hfirst.
  destruct (torch_max_nonempty l) as (c' & i' & E).
  { intros ->. destruct idx; discriminate Hidx. }
  destruct (torch_max_spec _ _ _ E) as [Hn Hup].
  destruct (Hmax _ _ Hn) as (q' & -> & Hle).
  assert (Hge : c <= q').
  { apply (Hup q' eq_refl c). eapply nth_error_In. exact Hidx. }
  assert (Hi : i' = idx).
  { destruct (Nat.lt_trichotomy i' idx) as [L|[L|L]]; [|exact L|].
    - exfalso. exact (Qlt_not_le _ _ (Hfirst _ _ L Hn) Hge).
    - exfalso.
      exact (Qlt_not_le _ _ (torch_max_first _ _ _ E _ _ L Hidx) Hle). }
  subst i'. rewrite Hn in Hidx. injection Hidx as ->. exact E.
Qed.

(** C3: on a row of six defect probabilities whose largest entry is [c],
    met first at the index [idx], the confidence is [c]; when [c] is at or
    above the threshold 0.25 (the threshold itself included) the label is
    the mapped label of the class [idx], which is not ["no_defect"]; when
    [c] is below the threshold the label is ["no_defect"] whichever class
    won. *)
Theorem abstention_threshold (pd ps pl : list prob) (c : Q) (idx : nat) :
  List.length pd = 6%nat -> List.length ps = 3%nat -> List.length pl = 3%nat ->
  nth_error pd idx = Some (PNum c) ->
  (forall j p, nth_error pd j = Some p -> exists q, p = PNum q /\ q <= c) ->
  (forall j q, (j < idx)%nat -> nth_error pd j = Some (PNum q) -> q < c) ->
  exists internal v,
    nth_error INTERNAL_DEFECT_LABELS idx = Some internal
    /\ classify_probs pd ps pl = Ok v
    /\ confidence v = PNum c
    /\ (NO_DEFECT_THRESHOLD <= c ->
        label v = map_internal_defect_to_config internal
        /\ label v <> "no_defect")
    /\ (c < NO_DEFECT_THRESHOLD -> label v = "no_defect").
Proof.
  intros Hd Hs Hl Hidx Hmax Hfirst.
  pose proof (torch_max_first_max pd c idx Hidx Hmax Hfirst) as E.
  destruct (classify_probs_shape pd ps pl (PNum c) idx Hd Hs Hl E)
    as (internal & v & Hn & Hc & Hconf & Hlab & Hne & _).
  exists internal, v.
  split; [exact Hn|]. split; [exact Hc|]. split; [exact Hconf|].
  split; intros T.
  - rewrite (at_least_ltb (PNum c) _ T) in Hlab.
    split; [exact Hlab|]. rewrite Hlab. exact Hne.
  - rewrite (below_ltb (PNum c) _ T) in Hlab. exact Hlab.
Qed.

Lemma abstention_threshold_witness :
  exists v,
    classify_probs
      [PNum 0.15; PNum 0.25; PNum 0.15; PNum 0.15; PNum 0.15; PNum 0.15]
      [PNum 0.2; PNum 0.5; PNum 0.3] [PNum 0.1; PNum 0.3; PNum 0.6] = Ok v
    /\ label v = "scratch".
Proof.
  destruct (abstention_threshold
              [PNum 0.15; PNum 0.25; PNum 0.15; PNum 0.15; PNum 0.15;
               PNum 0.15]
              [PNum 0.2; PNum 0.5; PNum 0.3] [PNum 0.1; PNum 0.3; PNum 0.6]
              0.25 1%nat eq_refl eq_refl eq_refl eq_refl)
    as (internal & v & Hn & Hc & _ & Hat & _).
  - intros j p Hj.
    do 6 (destruct j as [|j];
          [injection Hj as <-; eexists; split;
           [reflexivity|unfold Qle; simpl; lia]|
           cbn [nth_error] in Hj]).
    destruct j; discriminate Hj.
  - intros j q Hlt Hj. destruct j as [|j]; [|lia].
    injection Hj as <-. unfold Qlt. simpl. lia.
  - exists v. split; [exact Hc|].
    destruct Hat as [Hlab _]; [apply Qle_refl|].
    rewrite Hlab. injection Hn as <-. reflexivity.
Defined.

(** C4: the action is defined for every label and every tier and is the
    entry of the decision table: Pass for ["no_defect"], otherwise Reject
    for tier A, Rework for tier B and Hold for tier C. *)
Theorem decide_action_table (lbl : string) (t : Spec.tier) :
  _decide_action lbl (Spec.tier_code t)
  = Spec.action_table (String.eqb lbl "no_defect") t.
Proof.
  unfold _decide_action.
  destruct (String.eqb lbl "no_defect"); destruct t; reflexivity.
Qed.

(** C5: the example scenario.  With the default configuration and the
    threshold 0.25, the rows [0.05,0.05,0.05,0.05,0.05,0.75],
    [0.1,0.1,0.8] and [0.7,0.2,0.1] give the sixth internal label as the
    configuration spells it (["tire flat"]), confidence 0.75, tier A, zone
    ["front"] and action Reject. *)
Theorem example_scenario :
  NO_DEFECT_THRESHOLD = 0.25
  /\ exists v,
       classify_probs
         [PNum 0.05; PNum 0.05; PNum 0.05; PNum 0.05; PNum 0.05; PNum 0.75]
         [PNum 0.1; PNum 0.1; PNum 0.8] [PNum 0.7; PNum 0.2; PNum 0.1] = Ok v
       /\ nth_error INTERNAL_DEFECT_LABELS 5 = Some "tire flat"
       /\ label v = map_internal_defect_to_config "tire flat"
       /\ label v = "tire flat"
       /\ confidence v = PNum 0.75
       /\ severity v = "A"
       /\ nth_error LOCATION_LABELS 0 = Some "front"
       /\ location v = "front"
       /\ action v = "Reject".
Proof.
  split; [reflexivity|].
  eexists. split; [vm_compute; reflexivity|].
  repeat split.
Qed.

(** *** Rows of NaN *)

Lemma max_from_first_nan (l : list prob) :
  forall b bi i k,
    Spec.first_nan l = Some k ->
    max_from (PNum b) bi i l = (PNaN, (i + k)%nat).
Proof.
  induction l as [|x l IH]; intros b bi i k Hk; simpl in Hk; [discriminate|].
  destruct x as [a|]; simpl in Hk.
  - destruct (Spec.first_nan l) as [k'|] eqn:F; [|discriminate].
    injection Hk as <-. simpl.
    destruct (negb (Qle_bool a b));
      rewrite (IH _ _ _ k' eq_refl); f_equal; lia.
  - injection Hk as <-. simpl. rewrite max_from_nan. f_equal; lia.
Qed.

Lemma torch_max_first_nan (l : list prob) (k : nat) :
  Spec.first_nan l = Some k -> torch_max l = Ok (PNaN, k).
Proof.
  destruct l as [|x l]; simpl; [discriminate|].
  destruct x as [a|]; simpl.
  - destruct (Spec.first_nan l) as [k'|] eqn:F; [|discriminate].
    intros [= <-]. rewrite (max_from_first_nan l a 0%nat 1%nat k' F).
    reflexivity.
  - intros [= <-]. rewrite max_from_nan. reflexivity.
Qed.

Lemma has_nan_first_nan (l : list prob) :
  Spec.has_nan l = true -> exists k, Spec.first_nan l = Some k.
Proof.
  induction l as [|x l IH]; simpl; [discriminate|].
  destruct x as [a|]; simpl.
  - intros Hn. destruct (IH Hn) as [k ->]. eauto.
  - eauto.
Qed.

(** A NaN of the row is what [torch_max] finds. *)
Lemma torch_max_nan (l : list prob) (c : prob) (i : nat) :
  In PNaN l -> torch_max l = Ok (c, i) -> c = PNaN.
Proof.
  intros Hin E.
  assert (Hn : Spec.has_nan l = true).
  { apply existsb_exists. exists PNaN. split; [exact Hin|reflexivity]. }
  destruct (has_nan_first_nan l Hn) as [k Hk].
  rewrite (torch_max_first_nan l k Hk) in E. injection E as <- _.
  reflexivity.
Qed.

Section Softmax.
Context `{Torch}.

Lemma has_nan_numbers (qs : list Q) : Spec.has_nan (map PNum qs) = false.
Proof. induction qs as [|q qs IH]; [reflexivity|exact IH]. Qed.

(** Only the rows of [nan_row] give a NaN, and they give nothing else. *)
Lemma softmax_has_nan (row : list logit) :
  Spec.has_nan (softmax row) = true ->
  softmax row = map (fun _ => PNaN) row.
Proof.
  unfold softmax. destruct (nan_row row); [reflexivity|].
  rewrite has_nan_numbers. discriminate.
Qed.

Lemma softmax_nan_logit (row : list logit) :
  In LNaN row -> softmax row = map (fun _ => PNaN) row.
Proof.
  intros Hin. unfold softmax.
  assert (E : existsb is_lnan row = true).
  { apply existsb_exists. exists LNaN. split; [exact Hin|reflexivity]. }
  unfold nan_row. rewrite E. reflexivity.
Qed.

End Softmax.

(** C8, refuted: a network whose logits are NaN is not turned down.  The
    row of defect probabilities is NaN throughout, and the engine returns a
    Verdict with the label of the class at index 0. *)
Lemma nan_row_not_rejected :
  (Spec.has_nan
     (@softmax Spec.demo_torch [LNaN; LNaN; LNaN; LNaN; LNaN; LNaN]) = true
   /\ exists v,
        @classify_image Spec.nan_classifier Spec.demo_torch "scan/a.png"
        = Ok v
        /\ label v = "dent" /\ confidence v = PNaN /\ action v = "Hold")
  /\ ~ Spec.degenerate_rows_rejected.
Proof.
  split.
  - split; [reflexivity|].
    eexists. split; [vm_compute; reflexivity|]. repeat split.
  - intros Hrej.
    destruct (Hrej Spec.nan_classifier Spec.demo_torch "scan/a.png"
                _ _ _ eq_refl (or_intror eq_refl)) as [e He].
    vm_compute in He. discriminate He.
Qed.

(** C8, as the code has it: the engine checks nothing about the rows the
    softmax gives it.  A NaN among the six defect logits makes the row of
    defect probabilities hold a NaN; and whenever that row holds a NaN it is
    NaN throughout, and the engine returns a Verdict, no error: its
    confidence is NaN, its label the mapped label of the class at index 0,
    ["dent"], and its action is not Pass. *)
Theorem degenerate_rows_yield_verdict `{Classifier} `{Torch}
  (image_path : string) (ld ls ll : list logit) :
  model_logits image_path = Ok (ld, ls, ll) ->
  List.length ld = 6%nat ->
  List.length (softmax ls) = 3%nat -> List.length (softmax ll) = 3%nat ->
  (In LNaN ld -> Spec.has_nan (softmax ld) = true)
  /\ (Spec.has_nan (softmax ld) = true ->
      Forall (fun p => p = PNaN) (softmax ld)
      /\ exists v,
           classify_image image_path = Ok v
           /\ confidence v = PNaN
           /\ nth_error INTERNAL_DEFECT_LABELS 0 = Some "dent"
           /\ label v = map_internal_defect_to_config "dent"
           /\ label v = "dent"
           /\ action v <> "Pass").
Proof.
  intros Hm Hd Hs Hl. split.
  - intros Hin. rewrite (softmax_nan_logit ld Hin).
    apply existsb_exists. exists PNaN. split; [|reflexivity].
    apply in_map_iff. exists LNaN. split; [reflexivity|exact Hin].
  - intros Hn. pose proof (softmax_has_nan ld Hn) as Hrow. split.
    + rewrite Hrow. apply Forall_forall. intros p Hp.
      apply in_map_iff in Hp. destruct Hp as (x & <- & _). reflexivity.
    + rewrite (classify_image_probs image_path ld ls ll Hm).
      assert (Hd' : List.length (softmax ld) = 6%nat)
        by (rewrite Hrow, length_map; exact Hd).
      assert (E : torch_max (softmax ld) = Ok (PNaN, 0%nat)).
      { rewrite Hrow. destruct ld as [|x ld]; [discriminate Hd|].
        cbn [map torch_max]. rewrite max_from_nan. reflexivity. }
      destruct (classify_probs_shape _ _ _ _ _ Hd' Hs Hl E)
        as (internal & v & Hi & Hv & Hconf & Hlab & _ & Hact).
      injection Hi as <-. cbn [prob_ltb] in Hlab.
      exists v. split; [exact Hv|]. split; [exact Hconf|].
      split; [reflexivity|]. split; [exact Hlab|].
      split; [rewrite Hlab; reflexivity|].
      rewrite Hact, Hlab. unfold _decide_action.
      change (map_internal_defect_to_config "dent") with "dent".
      cbn [String.eqb Ascii.eqb Bool.eqb].
      destruct (String.eqb (severity v) "A"); [discriminate|].
      destruct (String.eqb (severity v) "B"); discriminate.
Qed.

Lemma degenerate_rows_yield_verdict_witness :
  exists v,
    @classify_image Spec.nan_classifier Spec.demo_torch "scan/a.png" = Ok v
    /\ confidence v = PNaN /\ label v = "dent".
Proof.
  destruct (@degenerate_rows_yield_verdict Spec.nan_classifier
              Spec.demo_torch "scan/a.png" _ _ _
              eq_refl eq_refl eq_refl eq_refl) as [_ Hv].
  destruct (Hv eq_refl) as (_ & v & Hc & Hconf & _ & _ & Hlab & _).
  exists v. split; [exact Hc|]. split; assumption.
Defined.

End LocalAIFacts.

(** ** The result store *)

Module DBFacts.
Import DB.
Local Open Scope list_scope.

(** *** Lists of rows *)

Lemma NoDup_snoc {A : Type} (l : list A) (x : A) :
  NoDup l -> ~ In x l -> NoDup (l ++ [x]).
Proof.
  induction l as [|a l IH]; intros Hn Hx; simpl.
  - constructor; [intros []|constructor].
  - inversion Hn as [|? ? Ha Hl]; subst. constructor.
    + rewrite in_app_iff. intros [Hin|[->|[]]].
      * exact (Ha Hin).
      * apply Hx; left; reflexivity.
    + apply IH; [exact Hl|]. intros Hin; apply Hx; right; exact Hin.
Qed.

Lemma filter_all {A : Type} (f : A -> bool) (l : list A) :
  (forall x, In x l -> f x = true) -> filter f l = l.
Proof.
  induction l as [|a l IH]; intros Hf; simpl; [reflexivity|].
  rewrite (Hf a (or_introl eq_refl)). f_equal.
  apply IH. intros x Hx; apply Hf; right; exact Hx.
Qed.

Lemma filter_none {A : Type} (f : A -> bool) (l : list A) :
  (forall x, In x l -> f x = false) -> filter f l = [].
Proof.
  induction l as [|a l IH]; intros Hf; simpl; [reflexivity|].
  rewrite (Hf a (or_introl eq_refl)).
  apply IH. intros x Hx; apply Hf; right; exact Hx.
Qed.

Lemma max_rowid_nonneg (rs : list Row) : (0 <= max_rowid rs)%Z.
Proof. induction rs as [|r rs IH]; simpl; lia. Qed.

Lemma max_rowid_ge (rs : list Row) (r : Row) :
  In r rs -> (id r <= max_rowid rs)%Z.
Proof.
  induction rs as [|x rs IH]; simpl; [intros []|].
  intros [->|Hin]; [lia|]. specialize (IH Hin). lia.
Qed.

Lemma new_rowid_fresh (t : Table) (r : Row) :
  In r (rows t) -> (id r < new_rowid t)%Z.
Proof.
  intros Hin. pose proof (max_rowid_ge _ _ Hin). unfold new_rowid. lia.
Qed.

Lemma new_rowid_positive (t : Table) : (0 < new_rowid t)%Z.
Proof. pose proof (max_rowid_nonneg (rows t)). unfold new_rowid. lia. Qed.

Lemma new_rowid_seq (t : Table) : (seq t < new_rowid t)%Z.
Proof. unfold new_rowid. lia. Qed.

Lemma unique_conflict_true (rs : list Row) (p h : string) :
  unique_conflict rs p h = true
  <-> exists r, In r rs /\ (image_path r = p \/ image_hash r = h).
Proof.
  unfold unique_conflict. rewrite existsb_exists.
  split; intros [r [Hin Hr]]; exists r; split; try exact Hin.
  - apply orb_true_iff in Hr.
    destruct Hr as [Hr|Hr]; apply String.eqb_eq in Hr; auto.
  - apply orb_true_iff.
    destruct Hr as [Hr|Hr]; apply String.eqb_eq in Hr; auto.
Qed.

Lemma unique_conflict_false (rs : list Row) (p h : string) :
  unique_conflict rs p h = false
  <-> forall r, In r rs -> image_path r <> p /\ image_hash r <> h.
Proof.
  split.
  - intros Hf r Hin. split; intros Heq;
      assert (Ht : unique_conflict rs p h = true)
        by (apply unique_conflict_true; exists r; auto);
      congruence.
  - intros Hall. destruct (unique_conflict rs p h) eqn:Hc; [|reflexivity].
    apply unique_conflict_true in Hc. destruct Hc as [r [Hin Hr]].
    destruct (Hall r Hin) as [Hp Hh]. destruct Hr; contradiction.
Qed.

(** *** The schema's guarantees are kept by every statement *)

Lemma empty_table_ok : table_ok empty_table.
Proof. split; simpl; constructor. Qed.

Lemma table_ok_bump (t : Table) :
  table_ok t -> table_ok {| rows := rows t; seq := new_rowid t |}.
Proof.
  intros [Hi Hp Hh Hs]. split; simpl; try assumption.
  pose proof (new_rowid_seq t) as Hlt.
  eapply Forall_impl; [|exact Hs]. simpl. intros r Hr. lia.
Qed.

Lemma table_ok_append (t : Table) (r : Row) :
  table_ok t ->
  id r = new_rowid t ->
  unique_conflict (rows t) (image_path r) (image_hash r) = false ->
  table_ok {| rows := rows t ++ [r]; seq := new_rowid t |}.
Proof.
  intros [Hi Hp Hh Hs] Hid Hc.
  rewrite unique_conflict_false in Hc.
  split; simpl; rewrite ?map_app; simpl.
  - apply NoDup_snoc; [exact Hi|].
    rewrite in_map_iff. intros [x [Hx Hin]].
    pose proof (new_rowid_fresh t x Hin). lia.
  - apply NoDup_snoc; [exact Hp|].
    rewrite in_map_iff. intros [x [Hx Hin]].
    destruct (Hc x Hin) as [Hne _]. exact (Hne Hx).
  - apply NoDup_snoc; [exact Hh|].
    rewrite in_map_iff. intros [x [Hx Hin]].
    destruct (Hc x Hin) as [_ Hne]. exact (Hne Hx).
  - apply Forall_app. split.
    + pose proof (new_rowid_seq t) as Hlt.
      eapply Forall_impl; [|exact Hs]. simpl. intros x Hx. lia.
    + constructor; [|constructor].
      pose proof (new_rowid_positive t). lia.
Qed.

Lemma sql_insert_or_ignore_ok (t : Table) (v : Row) :
  table_ok t -> table_ok (snd (sql_insert_or_ignore t v)).
Proof.
  intros Hok. unfold sql_insert_or_ignore.
  destruct (unique_conflict (rows t) (image_path v) (image_hash v)) eqn:Hc;
    simpl.
  - apply table_ok_bump; exact Hok.
  - apply table_ok_append; [exact Hok|reflexivity|exact Hc].
Qed.

Lemma sql_insert_ok (t : Table) (v : Row) (rid : Z) (t' : Table) :
  table_ok t -> sql_insert t v = Ok (rid, t') -> table_ok t'.
Proof.
  intros Hok. unfold sql_insert.
  destruct (unique_conflict (rows t) (image_path v) (image_hash v)) eqn:Hc;
    [discriminate|].
  intros [= <- <-].
  apply table_ok_append; [exact Hok|reflexivity|exact Hc].
Qed.

(** The rows of an [UPDATE ... WHERE id = rid]: the paths stay pairwise
    distinct when no other row bears the new path. *)
Lemma update_paths_NoDup (rid : Z) (p : string) (upd : Row -> Row)
  (rs : list Row) :
  (forall r, image_path (upd r) = p) ->
  NoDup (map id rs) -> NoDup (map image_path rs) ->
  (forall r, In r rs -> id r <> rid -> image_path r <> p) ->
  NoDup (map image_path
           (map (fun r => if Z.eqb (id r) rid then upd r else r) rs)).
Proof.
  intros Hupd. induction rs as [|x rs IH]; intros Hi Hp Hother; simpl.
  - constructor.
  - inversion Hi as [|? ? Hxi Hi']; subst.
    inversion Hp as [|? ? Hxp Hp']; subst.
    assert (IH' := IH Hi' Hp' (fun r Hr => Hother r (or_intror Hr))).
    constructor; [|exact IH'].
    rewrite map_map, in_map_iff. intros [y [Hy Hin]].
    destruct (Z.eqb (id x) rid) eqn:Ex; destruct (Z.eqb (id y) rid) eqn:Ey.
    + apply Z.eqb_eq in Ex, Ey. apply Hxi. apply in_map_iff.
      exists y. split; [congruence|exact Hin].
    + apply Z.eqb_neq in Ey. rewrite Hupd in Hy.
      exact (Hother y (or_intror Hin) Ey Hy).
    + apply Z.eqb_neq in Ex. rewrite Hupd in Hy.
      apply (Hother x (or_introl eq_refl) Ex). symmetry; exact Hy.
    + apply Hxp. apply in_map_iff. exists y. split; assumption.
Qed.

Lemma sql_update_ok (t : Table) (rid : Z) (v : Row) (t' : Table) :
  table_ok t -> sql_update t rid v = Ok t' -> table_ok t'.
Proof.
  intros [Hi Hp Hh Hs]. unfold sql_update.
  destruct (existsb (fun r => Z.eqb (id r) rid) (rows t)) eqn:Ehit; simpl.
  - match goal with
    | |- context [if ?c then _ else _] => destruct c eqn:Eother
    end; [discriminate|].
    intros [= <-]. split; simpl.
    + rewrite map_map.
      erewrite map_ext; [exact Hi|].
      intros r. destruct (Z.eqb (id r) rid); reflexivity.
    + apply (update_paths_NoDup rid (image_path v) (fun r => overwrite r v));
        try assumption; [reflexivity|].
      intros r Hin Hne Heq.
      assert (Ht : existsb (fun r => negb (Z.eqb (id r) rid)
                                     && String.eqb (image_path r)
                                          (image_path v)) (rows t) = true).
      { apply existsb_exists. exists r. split; [exact Hin|].
        apply andb_true_iff. split.
        - apply negb_true_iff. apply Z.eqb_neq. exact Hne.
        - apply String.eqb_eq. exact Heq. }
      congruence.
    + rewrite map_map.
      erewrite map_ext; [exact Hh|].
      intros r. destruct (Z.eqb (id r) rid); reflexivity.
    + apply Forall_map. eapply Forall_impl; [|exact Hs].
      intros r Hr. destruct (Z.eqb (id r) rid); exact Hr.
  - intros [= <-]. split; simpl.
    + rewrite map_map.
      erewrite map_ext; [exact Hi|].
      intros r. destruct (Z.eqb (id r) rid); reflexivity.
    + rewrite map_map. erewrite map_ext_in; [exact Hp|].
      intros r Hin. simpl. destruct (Z.eqb (id r) rid) eqn:E; [|reflexivity].
      assert (Ht : existsb (fun r => Z.eqb (id r) rid) (rows t) = true)
        by (apply existsb_exists; exists r; auto).
      congruence.
    + rewrite map_map.
      erewrite map_ext; [exact Hh|].
      intros r. destruct (Z.eqb (id r) rid); reflexivity.
    + apply Forall_map. eapply Forall_impl; [|exact Hs].
      intros r Hr. destruct (Z.eqb (id r) rid); exact Hr.
Qed.

Lemma NoDup_map_filter {A B : Type} (g : A -> B) (f : A -> bool)
  (l : list A) :
  NoDup (map g l) -> NoDup (map g (filter f l)).
Proof.
  induction l as [|a l IH]; simpl; intros Hn; [constructor|].
  inversion Hn as [|? ? Ha Hl]; subst.
  destruct (f a); simpl; [|apply IH; exact Hl].
  constructor; [|apply IH; exact Hl].
  rewrite in_map_iff. intros [x [Hx Hin]].
  apply Ha. apply in_map_iff. exists x. split; [exact Hx|].
  apply filter_In in Hin. tauto.
Qed.

Lemma sql_delete_in_ok (t : Table) (ids : list Z) :
  table_ok t -> table_ok (snd (sql_delete_in t ids)).
Proof.
  intros [Hi Hp Hh Hs]. split; simpl; try (apply NoDup_map_filter; assumption).
  rewrite Forall_forall in *. intros r Hin.
  apply filter_In in Hin. apply Hs; tauto.
Qed.

(** *** The write operations *)

Section WriteFacts.
Context `{Hashlib}.

Lemma check_label_coerce (l : string) :
  check_label l = Ok (StoreSpec.coerce l).
Proof.
  unfold check_label, StoreSpec.coerce.
  destruct (contains Config.DEFECT_LABELS l); reflexivity.
Qed.

Lemma contains_In (ls : list string) (l : string) :
  contains ls l = true <-> In l ls.
Proof.
  unfold contains. rewrite existsb_exists. split.
  - intros [x [Hin Hx]]. apply String.eqb_eq in Hx. subst x. exact Hin.
  - intros Hin. exists l. split; [exact Hin|apply String.eqb_refl].
Qed.

Lemma first_label_configured : In "no_defect" Config.DEFECT_LABELS.
Proof. rewrite DEFECT_LABELS_value. left; reflexivity. Qed.

Lemma coerce_configured (l : string) :
  In (StoreSpec.coerce l) Config.DEFECT_LABELS.
Proof.
  unfold StoreSpec.coerce.
  destruct (contains Config.DEFECT_LABELS l) eqn:E.
  - apply contains_In in E. exact E.
  - exact first_label_configured.
Qed.

Lemma prepare_ok (fs : FileSystem) (now p l s loc : string) (sc : LocalAI.prob)
  (d a : string) (ts0 : option string) (c : list Byte.byte) :
  fs p = Readable c ->
  prepare fs now p l s loc sc d a ts0
  = Ok {| id := 0;
          file_name := path_name p;
          image_path := p;
          image_hash := sha256_hexdigest c;
          defect_type := StoreSpec.coerce l;
          severity := s;
          location := loc;
          score := sql_real sc;
          detail := d;
          action := a;
          ts := ts_or_now ts0 now |}.
Proof.
  intros Hf. unfold prepare, _file_sha256. rewrite Hf. simpl.
  rewrite check_label_coerce. reflexivity.
Qed.

Lemma prepare_missing (fs : FileSystem) (now p l s loc : string)
  (sc : LocalAI.prob) (d a : string) (ts0 : option string) (e : os_error) :
  fs p = Unreadable e ->
  prepare fs now p l s loc sc d a ts0 = Err (raised e).
Proof.
  intros Hf. unfold prepare, _file_sha256. rewrite Hf. reflexivity.
Qed.

(** Whether [prepare] succeeds is a matter of the file alone. *)
Lemma prepare_cases (fs : FileSystem) (now p l s loc : string)
  (sc : LocalAI.prob) (d a : string) (ts0 : option string) :
  (exists c, fs p = Readable c) \/ (exists e, fs p = Unreadable e).
Proof. destruct (fs p) as [c|e]; eauto. Qed.

Lemma insert_result_ok (fs : FileSystem) (now p l s loc : string)
  (sc : LocalAI.prob) (d a : string) (ts0 : option string) (db : Database) :
  db_ok db -> db_ok (snd (insert_result fs now p l s loc sc d a ts0 db)).
Proof.
  intros Hok. unfold insert_result.
  destruct (prepare fs now p l s loc sc d a ts0) as [v|e]; [|exact Hok].
  pose proof (sql_insert_or_ignore_ok (ensure_schema db) v Hok) as Hok'.
  destruct (sql_insert_or_ignore (ensure_schema db) v) as [n t'].
  exact Hok'.
Qed.

Lemma upsert_result_ok (fs : FileSystem) (now p l s loc : string)
  (sc : LocalAI.prob) (d a : string) (ts0 : option string) (db : Database) :
  db_ok db -> db_ok (snd (upsert_result fs now p l s loc sc d a ts0 db)).
Proof.
  intros Hok. unfold upsert_result.
  destruct (prepare fs now p l s loc sc d a ts0) as [v|e]; [|exact Hok].
  destruct (sql_select_id_by_hash (ensure_schema db) (image_hash v))
    as [rid|].
  - destruct (sql_update (ensure_schema db) rid v) as [t'|e] eqn:E;
      [|exact Hok].
    exact (sql_update_ok _ _ _ _ Hok E).
  - destruct (sql_insert (ensure_schema db) v) as [[rid t']|e] eqn:E;
      [|exact Hok].
    exact (sql_insert_ok _ _ _ _ Hok E).
Qed.

Lemma delete_results_ok (ids : list Z) (db : Database) :
  db_ok db -> db_ok (snd (delete_results ids db)).
Proof.
  intros Hok. destruct ids as [|i ids]; [exact Hok|].
  unfold delete_results.
  pose proof (sql_delete_in_ok (ensure_schema db) (i :: ids) Hok) as Hok'.
  destruct (sql_delete_in (ensure_schema db) (i :: ids)) as [n t'].
  exact Hok'.
Qed.

(** C1: on a readable file, [insert_result] raises nothing.  When the
    digest of the file or its path is that of a Record, it returns [False]
    and the Records are as before; when both are new, it returns [True] and
    exactly one Record, with this digest and path and a fresh id, is added.
    Either way no two Records share a digest afterwards. *)
Theorem insert_result_dedup (fs : FileSystem) (now p l s loc : string)
  (sc : LocalAI.prob) (d a : string) (ts0 : option string) (db : Database)
  (c : list Byte.byte) :
  db_ok db -> fs p = Readable c ->
  let out := insert_result fs now p l s loc sc d a ts0 db in
  ((exists r, In r (records db)
              /\ (image_hash r = sha256_hexdigest c \/ image_path r = p)) ->
   fst out = Ok false /\ records (snd out) = records db)
  /\ ((forall r, In r (records db) ->
                 image_hash r <> sha256_hexdigest c /\ image_path r <> p) ->
      fst out = Ok true
      /\ exists r, records (snd out) = (records db ++ [r])%list
                   /\ image_hash r = sha256_hexdigest c
                   /\ image_path r = p
                   /\ ~ In (id r) (map id (records db)))
  /\ NoDup (map image_hash (records (snd out))).
Proof.
  intros Hok Hf out.
  assert (Hout : db_ok (snd out)) by (apply insert_result_ok; exact Hok).
  split; [|split; [|exact (ok_hashes _ Hout)]].
  - intros [r [Hin Hr]]. subst out. unfold insert_result.
    rewrite (prepare_ok _ _ _ _ _ _ _ _ _ _ _ Hf).
    unfold sql_insert_or_ignore. simpl.
    assert (Hc : unique_conflict (rows (ensure_schema db)) p
                   (sha256_hexdigest c) = true).
    { apply unique_conflict_true. exists r. split; [exact Hin|tauto]. }
    rewrite Hc. simpl. split; reflexivity.
  - intros Hnew. subst out. unfold insert_result.
    rewrite (prepare_ok _ _ _ _ _ _ _ _ _ _ _ Hf).
    unfold sql_insert_or_ignore. simpl.
    assert (Hc : unique_conflict (rows (ensure_schema db)) p
                   (sha256_hexdigest c) = false).
    { apply unique_conflict_false. intros r Hin.
      destruct (Hnew r Hin). split; assumption. }
    rewrite Hc. simpl. split; [reflexivity|].
    eexists. split; [reflexivity|]. simpl.
    split; [reflexivity|]. split; [reflexivity|].
    rewrite in_map_iff. intros [x [Hx Hin]].
    pose proof (new_rowid_fresh (ensure_schema db) x Hin). lia.
Qed.

End WriteFacts.

Lemma demo_db_ok : db_ok StoreSpec.demo_db.
Proof.
  unfold StoreSpec.demo_db. apply insert_result_ok.
  exact empty_table_ok.
Defined.

Lemma insert_result_dedup_witness :
  fst (@insert_result StoreSpec.demo_hashlib StoreSpec.demo_fs
         StoreSpec.demo_now "copy/a.png" "scratch" "B" "rear"
         (LocalAI.PNum 0.5) EmptyString
         "Rework" None StoreSpec.demo_db) = Ok false.
Proof.
  destruct (@insert_result_dedup StoreSpec.demo_hashlib StoreSpec.demo_fs
              StoreSpec.demo_now "copy/a.png" "scratch" "B" "rear"
              (LocalAI.PNum 0.5)
              EmptyString
              "Rework" None StoreSpec.demo_db
              [Byte.x89; Byte.x50; Byte.x4e] demo_db_ok eq_refl)
    as [Hdup _].
  apply Hdup.
  eexists. split; [left; reflexivity|left; reflexivity].
Defined.

(** *** Upsert *)

Lemma find_none {A : Type} (f : A -> bool) (l : list A) :
  (forall x, In x l -> f x = false) -> find f l = None.
Proof.
  induction l as [|a l IH]; intros Hf; simpl; [reflexivity|].
  rewrite (Hf a (or_introl eq_refl)).
  apply IH. intros x Hx; apply Hf; right; exact Hx.
Qed.

Lemma find_snoc {A : Type} (f : A -> bool) (l : list A) (x : A) :
  (forall y, In y l -> f y = false) -> f x = true ->
  find f (l ++ [x]) = Some x.
Proof.
  induction l as [|a l IH]; intros Hf Hx; simpl.
  - rewrite Hx; reflexivity.
  - rewrite (Hf a (or_introl eq_refl)).
    apply IH; [|exact Hx]. intros y Hy; apply Hf; right; exact Hy.
Qed.

Lemma existsb_false {A : Type} (f : A -> bool) (l : list A) :
  (forall x, In x l -> f x = false) -> existsb f l = false.
Proof.
  induction l as [|a l IH]; intros Hf; simpl; [reflexivity|].
  rewrite (Hf a (or_introl eq_refl)). simpl.
  apply IH. intros x Hx; apply Hf; right; exact Hx.
Qed.

Lemma select_absent (t : Table) (h : string) :
  (forall r, In r (rows t) -> image_hash r <> h) ->
  sql_select_id_by_hash t h = None.
Proof.
  intros Hh. unfold sql_select_id_by_hash.
  rewrite find_none; [reflexivity|].
  intros r Hin. apply String.eqb_neq. exact (Hh r Hin).
Qed.

Lemma select_found (t : Table) (h : string) (rid : Z) :
  sql_select_id_by_hash t h = Some rid ->
  exists r, In r (rows t) /\ id r = rid /\ image_hash r = h.
Proof.
  unfold sql_select_id_by_hash.
  destruct (find _ (rows t)) as [r|] eqn:F; [|discriminate].
  intros [= <-]. apply find_some in F. destruct F as [Hin Hr].
  apply String.eqb_eq in Hr. exists r. auto.
Qed.

Lemma sql_insert_fresh (t : Table) (v : Row) :
  unique_conflict (rows t) (image_path v) (image_hash v) = false ->
  sql_insert t v
  = Ok (new_rowid t,
        {| rows := rows t ++ [stored (new_rowid t) v];
           seq := new_rowid t |}).
Proof. intros Hc. unfold sql_insert. rewrite Hc. reflexivity. Qed.

Lemma sql_insert_conflict (t : Table) (v : Row) :
  unique_conflict (rows t) (image_path v) (image_hash v) = true ->
  sql_insert t v = Err IntegrityError.
Proof. intros Hc. unfold sql_insert. rewrite Hc. reflexivity. Qed.

(** Updating the row appended last, under a path no earlier row bears. *)
Lemma sql_update_last (rs : list Row) (n : Z) (x v : Row) :
  (forall r, In r rs -> id r <> id x /\ image_path r <> image_path v) ->
  sql_update {| rows := rs ++ [x]; seq := n |} (id x) v
  = Ok {| rows := rs ++ [overwrite x v]; seq := n |}.
Proof.
  intros Hrs. unfold sql_update. simpl.
  assert (Hother :
    existsb (fun r => negb (Z.eqb (id r) (id x))
                      && String.eqb (image_path r) (image_path v))
            (rs ++ [x]) = false).
  { apply existsb_false. intros r Hin.
    apply in_app_iff in Hin. destruct Hin as [Hin|[<-|[]]].
    - destruct (Hrs r Hin) as [_ Hp].
      apply String.eqb_neq in Hp. rewrite Hp. apply andb_false_r.
    - rewrite Z.eqb_refl. reflexivity. }
  rewrite Hother, andb_false_r.
  rewrite map_app. simpl. rewrite Z.eqb_refl.
  rewrite (map_ext_in _ (fun r => r)); [rewrite map_id; reflexivity|].
  intros r Hin. destruct (Hrs r Hin) as [Hi _].
  apply Z.eqb_neq in Hi. rewrite Hi. reflexivity.
Qed.

(** *** File names and time stamps *)

Lemma split_nonempty (sep : ascii) (s : string) : split sep s <> [].
Proof.
  destruct s as [|c s]; simpl; [discriminate|].
  destruct (Ascii.eqb c sep); [discriminate|].
  destruct (split sep s); discriminate.
Qed.

Lemma split_plain (sep : ascii) (w : string) :
  ~ In sep (list_ascii_of_string w) -> split sep w = [w].
Proof.
  induction w as [|c w IH]; simpl; intros Hn; [reflexivity|].
  destruct (Ascii.eqb c sep) eqn:E.
  - apply Ascii.eqb_eq in E. exfalso. apply Hn. left. exact E.
  - rewrite IH; [reflexivity|]. intros Hin. apply Hn. right. exact Hin.
Qed.

Lemma split_app (sep : ascii) (a b : string) :
  split sep (a ++ String sep b)%string = split sep a ++ split sep b.
Proof.
  induction a as [|c a IH]; simpl.
  - rewrite Ascii.eqb_refl. reflexivity.
  - destruct (Ascii.eqb c sep); rewrite IH; [reflexivity|].
    pose proof (split_nonempty sep a) as Hne.
    destruct (split sep a) as [|w ws]; [congruence|reflexivity].
Qed.

Lemma last_snoc {A : Type} (l : list A) (x d : A) : last (l ++ [x]) d = x.
Proof.
  induction l as [|a l IH]; [reflexivity|].
  simpl. destruct (l ++ [x]) eqn:E; [|exact IH].
  destruct l; discriminate E.
Qed.

(** [Path(p).name] is the last component of [p]. *)
Lemma path_name_last (p name : string) :
  StoreSpec.last_component p name -> path_name p = name.
Proof.
  intros (Hne & Hdot & Hsl & Hp). unfold path_name.
  assert (Hkeep : (truthy name && negb (String.eqb name "."))%bool = true).
  { apply andb_true_iff. split.
    - destruct name; [congruence|reflexivity].
    - apply negb_true_iff. apply String.eqb_neq. exact Hdot. }
  destruct Hp as [->|[dir ->]].
  - rewrite (split_plain _ _ Hsl). cbn [filter]. rewrite Hkeep. reflexivity.
  - change (dir ++ "/" ++ name)%string with (dir ++ String "/" name)%string.
    rewrite split_app, (split_plain _ _ Hsl), filter_app.
    cbn [filter]. rewrite Hkeep. apply last_snoc.
Qed.

Lemma ts_or_now_given (t now : string) :
  t <> EmptyString -> ts_or_now (Some t) now = t.
Proof. destruct t; [congruence|reflexivity]. Qed.

Lemma ts_or_now_clock (ts0 : option string) (now : string) :
  ts0 = None \/ ts0 = Some EmptyString -> ts_or_now ts0 now = now.
Proof. intros [->| ->]; reflexivity. Qed.

Section UpsertFacts.
Context `{Hashlib}.

(** C10: when the digest of the file is that of no Record but its path is
    that of one, [upsert_result] takes its insert branch, the unique index
    on the path turns the row down, [sqlite3.IntegrityError] is raised and
    the Records are as before. *)
Theorem upsert_result_path_conflict (fs : FileSystem)
  (now p l s loc : string) (sc : LocalAI.prob) (d a : string)
  (ts0 : option string)
  (db : Database) (c : list Byte.byte) :
  fs p = Readable c ->
  (forall r, In r (records db) -> image_hash r <> sha256_hexdigest c) ->
  (exists r, In r (records db) /\ image_path r = p) ->
  let out := upsert_result fs now p l s loc sc d a ts0 db in
  sql_select_id_by_hash (ensure_schema db) (sha256_hexdigest c) = None
  /\ fst out = Err IntegrityError
  /\ records (snd out) = records db.
Proof.
  intros Hf Hnew [r [Hin Hp]] out.
  assert (Hsel := select_absent (ensure_schema db) _ Hnew).
  split; [exact Hsel|].
  subst out. unfold upsert_result.
  rewrite (prepare_ok _ _ _ _ _ _ _ _ _ _ _ Hf).
  cbn [image_hash]. rewrite Hsel.
  rewrite sql_insert_conflict.
  - split; reflexivity.
  - apply unique_conflict_true. exists r. split; [exact Hin|left; exact Hp].
Qed.

(** C2, as the code has it: two upserts of the same content, where the
    digest is that of no Record before the first call and neither path is
    that of an earlier Record.  The first call adds one Record and returns
    its id; the second returns the same id and adds nothing; the Record then
    bears the second call's path, severity, location, detail and action,
    the last component of that path as file name, the second call's label
    when it is a configured one and ["no_defect"] otherwise, the second
    call's score when it is a number and NULL when it is NaN, and the
    second call's timestamp when one is given and not empty, the reading of
    the clock otherwise. *)
Theorem upsert_result_twice (fs1 fs2 : FileSystem) (now1 now2 : string)
  (p1 l1 s1 loc1 : string) (sc1 : LocalAI.prob) (d1 a1 : string)
  (ts1 : option string)
  (p2 l2 s2 loc2 : string) (sc2 : LocalAI.prob) (d2 a2 : string)
  (ts2 : option string)
  (db : Database) (c1 c2 : list Byte.byte) :
  fs1 p1 = Readable c1 -> fs2 p2 = Readable c2 ->
  sha256_hexdigest c1 = sha256_hexdigest c2 ->
  (forall r, In r (records db) ->
             image_hash r <> sha256_hexdigest c1
             /\ image_path r <> p1 /\ image_path r <> p2) ->
  let o1 := upsert_result fs1 now1 p1 l1 s1 loc1 sc1 d1 a1 ts1 db in
  let o2 := upsert_result fs2 now2 p2 l2 s2 loc2 sc2 d2 a2 ts2 (snd o1) in
  exists N r1 r2,
    fst o1 = Ok N /\ fst o2 = Ok N
    /\ records (snd o1) = (records db ++ [r1])%list /\ id r1 = N
    /\ records (snd o2) = (records db ++ [r2])%list /\ id r2 = N
    /\ image_hash r2 = sha256_hexdigest c2
    /\ file_name r2 = path_name p2
    /\ (forall name, StoreSpec.last_component p2 name -> file_name r2 = name)
    /\ image_path r2 = p2
    /\ defect_type r2 = StoreSpec.coerce l2
    /\ severity r2 = s2
    /\ location r2 = loc2
    /\ (forall q, sc2 = LocalAI.PNum q -> score r2 = Some q)
    /\ (sc2 = LocalAI.PNaN -> score r2 = None)
    /\ detail r2 = d2
    /\ action r2 = a2
    /\ ts r2 = ts_or_now ts2 now2
    /\ (forall t, ts2 = Some t -> t <> EmptyString -> ts r2 = t)
    /\ (ts2 = None \/ ts2 = Some EmptyString -> ts r2 = now2).
Proof.
  intros Hf1 Hf2 Hsha Hnew o1 o2.
  set (t := ensure_schema db).
  set (v1 := {| id := 0; file_name := path_name p1; image_path := p1;
                image_hash := sha256_hexdigest c1;
                defect_type := StoreSpec.coerce l1; severity := s1;
                location := loc1; score := sql_real sc1; detail := d1;
                action := a1;
                ts := ts_or_now ts1 now1 |}).
  set (v2 := {| id := 0; file_name := path_name p2; image_path := p2;
                image_hash := sha256_hexdigest c2;
                defect_type := StoreSpec.coerce l2; severity := s2;
                location := loc2; score := sql_real sc2; detail := d2;
                action := a2;
                ts := ts_or_now ts2 now2 |}).
  set (N := new_rowid t).
  assert (E1 : o1 = (Ok N, Some {| rows := rows t ++ [stored N v1];
                                   seq := N |})).
  { subst o1. unfold upsert_result.
    rewrite (prepare_ok _ _ _ _ _ _ _ _ _ _ _ Hf1). fold v1 t.
    rewrite (select_absent t (image_hash v1)).
    - rewrite sql_insert_fresh; [reflexivity|].
      apply unique_conflict_false. intros r Hin.
      destruct (Hnew r Hin) as (Hh & Hp & _). split; assumption.
    - intros r Hin. exact (proj1 (Hnew r Hin)). }
  assert (E2 : o2 = (Ok N,
                     Some {| rows := rows t ++ [overwrite (stored N v1) v2];
                             seq := N |})).
  { subst o2. rewrite E1. unfold upsert_result.
    rewrite (prepare_ok _ _ _ _ _ _ _ _ _ _ _ Hf2). fold v2.
    cbn [snd ensure_schema].
    assert (Hsel : sql_select_id_by_hash
                     {| rows := rows t ++ [stored N v1]; seq := N |}
                     (image_hash v2) = Some N).
    { unfold sql_select_id_by_hash. cbn [rows].
      rewrite (find_snoc _ _ (stored N v1)); [reflexivity| |].
      - intros r Hin. apply String.eqb_neq. cbn [image_hash v2].
        rewrite <- Hsha. exact (proj1 (Hnew r Hin)).
      - apply String.eqb_eq. cbn. exact Hsha. }
    rewrite Hsel.
    change N with (id (stored N v1)) at 2.
    rewrite sql_update_last; [reflexivity|].
    intros r Hin. split.
    - pose proof (new_rowid_fresh t r Hin) as Hlt. cbn [id stored].
      fold N in Hlt. lia.
    - exact (proj2 (proj2 (Hnew r Hin))). }
  exists N, (stored N v1), (overwrite (stored N v1) v2).
  rewrite E2, E1.
  cbn [fst snd records ensure_schema rows id file_name image_path image_hash
       defect_type severity location score detail action ts stored overwrite
       v1 v2].
  repeat match goal with |- _ /\ _ => split end; try reflexivity.
  - exact Hsha.
  - intros name Hname. exact (path_name_last _ _ Hname).
  - intros q ->. reflexivity.
  - intros ->. reflexivity.
  - intros t0 -> Ht. exact (ts_or_now_given _ _ Ht).
  - intros Hts. exact (ts_or_now_clock _ _ Hts).
Qed.

End UpsertFacts.

Section LabelFacts.
Context `{Hashlib}.

Lemma coerce_spec (l : string) :
  (In l Config.DEFECT_LABELS -> StoreSpec.coerce l = l)
  /\ (~ In l Config.DEFECT_LABELS -> StoreSpec.coerce l = "no_defect").
Proof.
  unfold StoreSpec.coerce.
  destruct (contains Config.DEFECT_LABELS l) eqn:E.
  - split; [reflexivity|]. intros Hn. apply contains_In in E. contradiction.
  - split; [|reflexivity]. intros Hin. apply contains_In in Hin. congruence.
Qed.

Lemma insert_result_added (fs : FileSystem) (now p l s loc : string)
  (sc : LocalAI.prob) (d a : string) (ts0 : option string) (db db' : Database) :
  insert_result fs now p l s loc sc d a ts0 db = (Ok true, db') ->
  exists r, records db' = records db ++ [r]
            /\ defect_type r = StoreSpec.coerce l.
Proof.
  unfold insert_result.
  destruct (fs p) as [c|e0] eqn:Hf.
  - rewrite (prepare_ok _ _ _ _ _ _ _ _ _ _ _ Hf).
    unfold sql_insert_or_ignore.
    destruct (unique_conflict _ _ _); cbn; [discriminate|].
    intros [= <-]. eexists. split; reflexivity.
  - rewrite (prepare_missing _ _ _ _ _ _ _ _ _ _ _ Hf). discriminate.
Qed.

Lemma upsert_result_written (fs : FileSystem) (now p l s loc : string)
  (sc : LocalAI.prob) (d a : string) (ts0 : option string) (db db' : Database)
  (rid : Z) :
  upsert_result fs now p l s loc sc d a ts0 db = (Ok rid, db') ->
  (exists r, In r (records db') /\ id r = rid)
  /\ forall r, In r (records db') -> id r = rid ->
               defect_type r = StoreSpec.coerce l.
Proof.
  unfold upsert_result.
  destruct (fs p) as [c|e0] eqn:Hf;
    [|rewrite (prepare_missing _ _ _ _ _ _ _ _ _ _ _ Hf); discriminate].
  rewrite (prepare_ok _ _ _ _ _ _ _ _ _ _ _ Hf).
  set (v := {| id := 0; file_name := path_name p; image_path := p;
               image_hash := sha256_hexdigest c;
               defect_type := StoreSpec.coerce l; severity := s;
               location := loc; score := sql_real sc; detail := d;
               action := a; ts := ts_or_now ts0 now |}).
  set (t := ensure_schema db).
  destruct (sql_select_id_by_hash t (image_hash v)) as [rid0|] eqn:Hsel.
  - destruct (sql_update t rid0 v) as [t'|e] eqn:Hup; [|discriminate].
    intros [= <- <-].
    unfold sql_update in Hup.
    match type of Hup with
    | (if ?c then _ else _) = _ => destruct c; [discriminate|]
    end.
    injection Hup as <-. unfold records; cbn [ensure_schema rows].
    destruct (select_found _ _ _ Hsel) as (r0 & Hin0 & Hid0 & _).
    split.
    + exists (overwrite r0 v). split; [|exact Hid0].
      apply in_map_iff. exists r0. split; [|exact Hin0].
      apply Z.eqb_eq in Hid0. rewrite Hid0. reflexivity.
    + intros r Hin Hid. apply in_map_iff in Hin.
      destruct Hin as (x & Hx & _).
      destruct (Z.eqb (id x) rid0) eqn:Ex.
      * subst r. reflexivity.
      * subst r. apply Z.eqb_neq in Ex. contradiction.
  - unfold sql_insert.
    destruct (unique_conflict _ _ _); [discriminate|].
    intros [= <- <-]. unfold records; cbn [ensure_schema rows].
    split.
    + exists (stored (new_rowid t) v). split; [|reflexivity].
      apply in_app_iff. right. left. reflexivity.
    + intros r Hin Hid. apply in_app_iff in Hin.
      destruct Hin as [Hin|[<-|[]]]; [|reflexivity].
      pose proof (new_rowid_fresh t r Hin). lia.
Qed.

Lemma insert_result_label_blind (fs : FileSystem) (now p l l' s loc : string)
  (sc : LocalAI.prob) (d a : string) (ts0 : option string) (db : Database) :
  fst (insert_result fs now p l' s loc sc d a ts0 db)
  = fst (insert_result fs now p l s loc sc d a ts0 db).
Proof.
  unfold insert_result.
  destruct (fs p) as [c|e0] eqn:Hf.
  - rewrite !(prepare_ok _ _ _ _ _ _ _ _ _ _ _ Hf).
    unfold sql_insert_or_ignore. cbn [image_path image_hash].
    destruct (unique_conflict _ _ _); reflexivity.
  - rewrite !(prepare_missing _ _ _ _ _ _ _ _ _ _ _ Hf). reflexivity.
Qed.

Lemma upsert_result_label_blind (fs : FileSystem) (now p l l' s loc : string)
  (sc : LocalAI.prob) (d a : string) (ts0 : option string) (db : Database) :
  fst (upsert_result fs now p l' s loc sc d a ts0 db)
  = fst (upsert_result fs now p l s loc sc d a ts0 db).
Proof.
  unfold upsert_result.
  destruct (fs p) as [c|e0] eqn:Hf.
  - rewrite !(prepare_ok _ _ _ _ _ _ _ _ _ _ _ Hf).
    cbn [image_hash].
    destruct (sql_select_id_by_hash _ _) as [rid|].
    + unfold sql_update. cbn [image_path].
      match goal with
      | |- context [if ?c then _ else _] => destruct c; reflexivity
      end.
    + unfold sql_insert. cbn [image_path image_hash].
      destruct (unique_conflict _ _ _); reflexivity.
  - rewrite !(prepare_missing _ _ _ _ _ _ _ _ _ _ _ Hf). reflexivity.
Qed.

(** C7: the label a write stores is a configured one.  The first
    configured label is ["no_defect"]; a configured label is stored as it
    is and any other as ["no_defect"]; the Record [insert_result] adds and
    the Record under the id [upsert_result] returns bear that label; and
    what either operation returns or raises does not depend on the label
    handed in. *)
Theorem stored_label_configured (fs : FileSystem) (now p l s loc : string)
  (sc : LocalAI.prob) (d a : string) (ts0 : option string) (db : Database) :
  nth_error Config.DEFECT_LABELS 0 = Some "no_defect"
  /\ In (StoreSpec.coerce l) Config.DEFECT_LABELS
  /\ (In l Config.DEFECT_LABELS -> StoreSpec.coerce l = l)
  /\ (~ In l Config.DEFECT_LABELS -> StoreSpec.coerce l = "no_defect")
  /\ (forall db',
        insert_result fs now p l s loc sc d a ts0 db = (Ok true, db') ->
        exists r, records db' = records db ++ [r]
                  /\ defect_type r = StoreSpec.coerce l)
  /\ (forall rid db',
        upsert_result fs now p l s loc sc d a ts0 db = (Ok rid, db') ->
        (exists r, In r (records db') /\ id r = rid)
        /\ forall r, In r (records db') -> id r = rid ->
                     defect_type r = StoreSpec.coerce l)
  /\ (forall l',
        fst (insert_result fs now p l' s loc sc d a ts0 db)
        = fst (insert_result fs now p l s loc sc d a ts0 db)
        /\ fst (upsert_result fs now p l' s loc sc d a ts0 db)
           = fst (upsert_result fs now p l s loc sc d a ts0 db)).
Proof.
  split; [rewrite DEFECT_LABELS_value; reflexivity|].
  split; [apply coerce_configured|].
  split; [apply coerce_spec|].
  split; [apply coerce_spec|].
  split; [intros db'; apply insert_result_added|].
  split; [intros rid db'; apply upsert_result_written|].
  intros l'. split.
  - apply insert_result_label_blind.
  - apply upsert_result_label_blind.
Qed.

End LabelFacts.

Lemma stored_label_configured_witness :
  exists r,
    records (snd (@insert_result StoreSpec.demo_hashlib StoreSpec.demo_fs
                    StoreSpec.demo_now "in/b.png" "rust" "C" "side"
                    (LocalAI.PNum 0.6)
                    EmptyString
                    "Hold" None StoreSpec.demo_db))
    = records StoreSpec.demo_db ++ [r]
    /\ defect_type r = "no_defect".
Proof.
  destruct (@stored_label_configured StoreSpec.demo_hashlib StoreSpec.demo_fs
              StoreSpec.demo_now "in/b.png" "rust" "C" "side"
              (LocalAI.PNum 0.6) EmptyString
              "Hold" None StoreSpec.demo_db)
    as (_ & _ & _ & Hno & Hins & _).
  destruct (Hins (snd (@insert_result StoreSpec.demo_hashlib
                         StoreSpec.demo_fs StoreSpec.demo_now "in/b.png"
                         "rust" "C" "side"
                         (LocalAI.PNum 0.6) EmptyString "Hold" None
                         StoreSpec.demo_db)))
    as (r & Hr & Hl).
  - vm_compute. reflexivity.
  - exists r. split; [exact Hr|]. rewrite Hl. apply Hno.
    rewrite DEFECT_LABELS_value. vm_compute.
    intuition discriminate.
Defined.

Lemma upsert_result_path_conflict_witness :
  fst (@upsert_result StoreSpec.demo_hashlib StoreSpec.demo_fs_edited
         StoreSpec.demo_now "in/a.png" "crack" "B" "front"
         (LocalAI.PNum 0.7) EmptyString
         "Rework"
         None StoreSpec.demo_db) = Err IntegrityError.
Proof.
  destruct (@upsert_result_path_conflict StoreSpec.demo_hashlib
              StoreSpec.demo_fs_edited StoreSpec.demo_now "in/a.png" "crack"
              "B" "front"
              (LocalAI.PNum 0.7) EmptyString "Rework" None StoreSpec.demo_db
              [Byte.x89; Byte.x50; Byte.x00] eq_refl)
    as (_ & Herr & _).
  - intros r Hin. vm_compute in Hin. destruct Hin as [<-|[]].
    vm_compute. discriminate.
  - vm_compute. eexists. split; [left; reflexivity|reflexivity].
  - exact Herr.
Defined.

Lemma upsert_result_twice_witness :
  exists N,
    fst (@upsert_result StoreSpec.demo_hashlib StoreSpec.demo_fs
           StoreSpec.demo_now "in/a.png" "dent" "A" "front"
           (LocalAI.PNum 0.9) EmptyString
           "Reject"
           None None) = Ok N
    /\ fst (@upsert_result StoreSpec.demo_hashlib StoreSpec.demo_fs
              StoreSpec.demo_now "copy/a.png" "scratch" "C" "rear"
              (LocalAI.PNum 0.3)
              "checked by hand" "Hold" (Some "2025-02-03 04:05:06")
              (snd (@upsert_result StoreSpec.demo_hashlib StoreSpec.demo_fs
                      StoreSpec.demo_now "in/a.png" "dent" "A" "front"
                      (LocalAI.PNum 0.9)
                      EmptyString "Reject" None None))) = Ok N.
Proof.
  destruct (@upsert_result_twice StoreSpec.demo_hashlib StoreSpec.demo_fs
              StoreSpec.demo_fs StoreSpec.demo_now StoreSpec.demo_now
              "in/a.png" "dent" "A" "front"
              (LocalAI.PNum 0.9) EmptyString "Reject" None
              "copy/a.png" "scratch" "C" "rear"
              (LocalAI.PNum 0.3) "checked by hand" "Hold"
              (Some "2025-02-03 04:05:06") None
              [Byte.x89; Byte.x50; Byte.x4e] [Byte.x89; Byte.x50; Byte.x4e]
              eq_refl eq_refl eq_refl)
    as (N & r1 & r2 & H1 & H2 & _).
  - intros r [].
  - exists N. split; assumption.
Defined.

(** C2, refuted: the second upsert is handed the label ["rust"], which is
    not a configured one, and the score NaN; it returns the id of the first,
    and the one Record there is bears ["no_defect"] and the score NULL. *)
Lemma upsert_label_not_kept :
  (let o1 :=
     @upsert_result StoreSpec.demo_hashlib StoreSpec.demo_fs
       StoreSpec.demo_now "in/a.png" "dent" "A" "front" (LocalAI.PNum 0.9)
       EmptyString "Reject" (Some "2025-01-02 03:04:05") None in
   let o2 :=
     @upsert_result StoreSpec.demo_hashlib StoreSpec.demo_fs
       StoreSpec.demo_now "in/a.png" "rust" "B" "rear" LocalAI.PNaN
       EmptyString "Rework" (Some "2025-02-03 04:05:06") (snd o1) in
   fst o1 = Ok 1%Z /\ fst o2 = Ok 1%Z
   /\ map (fun r => (id r, defect_type r, score r)) (records (snd o2))
      = [(1%Z, "no_defect", None)])
  /\ ~ StoreSpec.upsert_keeps_latest_values.
Proof.
  split.
  - vm_compute. repeat split.
  - intros Hc.
    destruct (Hc StoreSpec.demo_hashlib StoreSpec.demo_fs StoreSpec.demo_fs
                StoreSpec.demo_now StoreSpec.demo_now
                "in/a.png" "dent" "A" "front" (LocalAI.PNum 0.9) EmptyString
                "Reject" "2025-01-02 03:04:05"
                "in/a.png" "rust" "B" "rear" LocalAI.PNaN EmptyString
                "Rework" "2025-02-03 04:05:06" None
                [Byte.x89; Byte.x50; Byte.x4e] [Byte.x89; Byte.x50; Byte.x4e]
                eq_refl eq_refl eq_refl
                (fun r (Hin : In r []) => match Hin with end))
      as (N & r & _ & _ & Hin & _ & _ & _ & Hl & _).
    vm_compute in Hin. destruct Hin as [<-|[]].
    vm_compute in Hl. discriminate Hl.
Qed.

(** *** Delete *)

Lemma length_filter_split {A : Type} (f : A -> bool) (l : list A) :
  List.length l
  = (List.length (filter f l)
     + List.length (filter (fun x => negb (f x)) l))%nat.
Proof.
  induction l as [|a l IH]; simpl; [reflexivity|].
  destruct (f a); simpl; lia.
Qed.

Lemma existsb_eqb_In (i : Z) (ids : list Z) :
  existsb (Z.eqb i) ids = true <-> In i ids.
Proof.
  rewrite existsb_exists. split.
  - intros [x [Hin Hx]]. apply Z.eqb_eq in Hx. subst x. exact Hin.
  - intros Hin. exists i. split; [exact Hin|apply Z.eqb_refl].
Qed.

(** Counting one more candidate [i0] among ids without repetition. *)
Lemma count_one_more (i0 : Z) (g : Z -> bool) (ids : list Z) :
  NoDup ids -> g i0 = false ->
  List.length (filter (fun i => Z.eqb i0 i || g i) ids)
  = ((if existsb (Z.eqb i0) ids then 1 else 0)
     + List.length (filter g ids))%nat.
Proof.
  intros Hn Hg. induction ids as [|i ids IH]; simpl; [reflexivity|].
  inversion Hn as [|? ? Hi Hn']; subst. specialize (IH Hn').
  destruct (Z.eqb i0 i) eqn:E; simpl.
  - apply Z.eqb_eq in E. subst i. rewrite Hg.
    assert (Hno : existsb (Z.eqb i0) ids = false).
    { destruct (existsb (Z.eqb i0) ids) eqn:Ex; [|reflexivity].
      apply existsb_eqb_In in Ex. contradiction. }
    rewrite Hno in IH. rewrite IH. simpl. reflexivity.
  - destruct (g i); simpl; rewrite IH; lia.
Qed.

(** With ids and rowids both free of repetition, as many rows bear one of
    the ids as ids are borne by a row. *)
Lemma count_hit_rows (rs : list Row) (ids : list Z) :
  NoDup (map id rs) -> NoDup ids ->
  List.length (filter (fun r => existsb (Z.eqb (id r)) ids) rs)
  = List.length (filter (fun i => existsb (fun r => Z.eqb (id r) i) rs) ids).
Proof.
  intros Hrs Hids. induction rs as [|x rs IH]; simpl.
  - induction ids as [|i ids IHi]; simpl; [reflexivity|].
    inversion Hids; subst. auto.
  - inversion Hrs as [|? ? Hx Hrs']; subst. specialize (IH Hrs').
    rewrite (count_one_more (id x)
               (fun i => existsb (fun r => Z.eqb (id r) i) rs) ids Hids).
    + destruct (existsb (Z.eqb (id x)) ids); simpl; rewrite IH; reflexivity.
    + apply existsb_false. intros r Hin. apply Z.eqb_neq. intros Heq.
      apply Hx. apply in_map_iff. exists r. split; assumption.
Qed.

Lemma filter_filter_existing (rs : list Row) (ids : list Z)
  (keep : bool) :
  filter (fun r =>
            Bool.eqb keep
              (existsb (Z.eqb (id r))
                 (filter (fun i => existsb (fun r' => Z.eqb (id r') i) rs)
                    ids))) rs
  = filter (fun r => Bool.eqb keep (existsb (Z.eqb (id r)) ids)) rs.
Proof.
  apply filter_ext_in. intros r Hin. f_equal.
  apply eq_true_iff_eq. rewrite !existsb_eqb_In, filter_In.
  split; [tauto|]. intros Hi. split; [exact Hi|].
  apply existsb_exists. exists r. split; [exact Hin|apply Z.eqb_refl].
Qed.

(** C9: deleting no id returns 0 and leaves the database as it is.
    Deleting [ids] keeps exactly the Records whose id is not among them, as
    they were and in their order, and returns the number of Records removed;
    ids that no Record bears change nothing, and with ids free of repetition
    the number returned is the number of ids that a Record bore. *)
Theorem delete_results_spec (ids : list Z) (db : Database) :
  delete_results [] db = (0%Z, db)
  /\ let out := delete_results ids db in
     (forall r, In r (records (snd out))
                <-> In r (records db) /\ ~ In (id r) ids)
     /\ records (snd out)
        = filter (fun r => negb (existsb (Z.eqb (id r)) ids)) (records db)
     /\ fst out
        = (Z.of_nat (List.length (records db))
           - Z.of_nat (List.length (records (snd out))))%Z
     /\ fst out
        = Z.of_nat (List.length
                      (filter (fun r => existsb (Z.eqb (id r)) ids)
                         (records db)))
     /\ records (snd (delete_results (StoreSpec.existing_ids db ids) db))
        = records (snd out)
     /\ fst (delete_results (StoreSpec.existing_ids db ids) db) = fst out
     /\ (db_ok db -> NoDup ids ->
         fst out = Z.of_nat (List.length (StoreSpec.existing_ids db ids))).
Proof.
  split; [reflexivity|]. intros out.
  assert (Hrec : records (snd out)
                 = filter (fun r => negb (existsb (Z.eqb (id r)) ids))
                     (records db)).
  { subst out. destruct ids as [|i ids]; simpl.
    - symmetry. apply filter_all. reflexivity.
    - reflexivity. }
  assert (Hcount : fst out
                   = Z.of_nat (List.length
                                 (filter (fun r => existsb (Z.eqb (id r)) ids)
                                    (records db)))).
  { subst out. destruct ids as [|i ids]; simpl.
    - rewrite filter_none; reflexivity.
    - reflexivity. }
  split.
  { intros r. rewrite Hrec, filter_In, negb_true_iff.
    rewrite <- existsb_eqb_In.
    destruct (existsb (Z.eqb (id r)) ids); intuition congruence. }
  split; [exact Hrec|].
  split.
  { rewrite Hcount, Hrec.
    rewrite (length_filter_split (fun r => existsb (Z.eqb (id r)) ids)
               (records db)) at 1.
    lia. }
  split; [exact Hcount|].
  assert (Hex : forall keep,
            filter (fun r => Bool.eqb keep
                               (existsb (Z.eqb (id r))
                                  (StoreSpec.existing_ids db ids)))
              (records db)
            = filter (fun r => Bool.eqb keep (existsb (Z.eqb (id r)) ids))
                (records db)).
  { intros keep. apply filter_filter_existing. }
  split; [|split].
  - rewrite Hrec.
    transitivity
      (filter (fun r => negb (existsb (Z.eqb (id r))
                                (StoreSpec.existing_ids db ids)))
         (records db)).
    + destruct (StoreSpec.existing_ids db ids) as [|i l]; simpl.
      * symmetry. apply filter_all. reflexivity.
      * reflexivity.
    + exact (Hex false).
  - rewrite Hcount.
    transitivity
      (Z.of_nat (List.length
                   (filter (fun r => existsb (Z.eqb (id r))
                                       (StoreSpec.existing_ids db ids))
                      (records db)))).
    + destruct (StoreSpec.existing_ids db ids) as [|i l]; simpl.
      * rewrite filter_none; reflexivity.
      * reflexivity.
    + f_equal. f_equal.
      etransitivity; [|etransitivity; [exact (Hex true)|]];
        apply filter_ext; intros r;
        destruct (existsb _ _); reflexivity.
  - intros Hok Hnd. rewrite Hcount. f_equal.
    apply count_hit_rows; [exact (ok_ids _ Hok)|exact Hnd].
Qed.

Lemma delete_results_spec_witness :
  fst (delete_results [7%Z; 1%Z; 9%Z] StoreSpec.demo_db) = 1%Z.
Proof.
  destruct (delete_results_spec [7%Z; 1%Z; 9%Z] StoreSpec.demo_db)
    as (_ & _ & _ & _ & _ & _ & _ & Hn).
  rewrite (Hn demo_db_ok
             ltac:(repeat constructor; simpl; intuition discriminate)).
  vm_compute. reflexivity.
Defined.

(** *** Queries *)

Section QueryFacts.
Context `{SqliteDate}.

Lemma insert_sorted_perm (r : Row) (l : list Row) :
  Permutation (insert_sorted r l) (r :: l).
Proof.
  induction l as [|x l IH]; simpl; [apply Permutation_refl|].
  destruct (order_before r x); [apply Permutation_refl|].
  eapply Permutation_trans; [apply perm_skip; exact IH|apply perm_swap].
Qed.

(** [ORDER BY] rearranges the rows and loses none. *)
Lemma order_by_perm (rs : list Row) : Permutation (order_by rs) rs.
Proof.
  induction rs as [|r rs IH]; simpl; [apply Permutation_refl|].
  eapply Permutation_trans; [apply insert_sorted_perm|].
  apply perm_skip; exact IH.
Qed.

(** C6: with every predicate left out, [search_results] returns the rows
    [fetch_results] returns under the same limit, in the same order. *)
Theorem search_results_without_predicates (limit : Z) (db : Database) :
  search_results None None None None None None None limit db
  = fetch_results limit db.
Proof.
  unfold search_results, fetch_results. cbn [where_clauses clause app].
  rewrite filter_all; [reflexivity|].
  intros r _. reflexivity.
Qed.

End QueryFacts.

End DBFacts.

(** ** More on the decision engine *)

Module EngineProps.
Import LocalAI LocalAIFacts.

(** *** Dictionaries *)

Lemma dict_find_none {V : Type} (d : dict V) (k : string) :
  dict_find d k = None <-> ~ In k (map fst d).
Proof.
  induction d as [|[k' v] d IH]; simpl.
  - split; [intros _ []|reflexivity].
  - destruct (String.eqb k' k) eqn:E.
    + apply String.eqb_eq in E. split; [discriminate|].
      intros Hn. exfalso. apply Hn. left. exact E.
    + apply String.eqb_neq in E. rewrite IH. split.
      * intros Hn [Hk|Hin]; [exact (E Hk)|exact (Hn Hin)].
      * intros Hn Hin. apply Hn. right. exact Hin.
Qed.

Lemma dict_find_some {V : Type} (d : dict V) (k : string) (v : V) :
  dict_find d k = Some v -> In (k, v) d.
Proof.
  induction d as [|[k' v'] d IH]; simpl; [discriminate|].
  destruct (String.eqb k' k) eqn:E.
  - apply String.eqb_eq in E. intros [= <-]. left. congruence.
  - intros Hf. right. exact (IH Hf).
Qed.

Lemma dict_getitem_ok {V : Type} (d : dict V) (k : string) :
  (exists v, dict_getitem d k = Ok v) <-> In k (map fst d).
Proof.
  unfold dict_getitem. destruct (dict_find d k) as [v|] eqn:E.
  - split; [|eauto]. intros _.
    apply dict_find_some in E. apply in_map_iff. exists (k, v). auto.
  - split.
    + intros [v Hv]. discriminate Hv.
    + intros Hin. apply dict_find_none in E. contradiction.
Qed.

Lemma dict_getitem_err {V : Type} (d : dict V) (k : string) (e : exn) :
  dict_getitem d k = Err e -> e = KeyError /\ ~ In k (map fst d).
Proof.
  unfold dict_getitem. destruct (dict_find d k) as [v|] eqn:E;
    [discriminate|].
  intros [= <-]. split; [reflexivity|]. apply dict_find_none. exact E.
Qed.

(** *** The description *)

(** X1: [_build_description] returns a text exactly when the label is
    ["no_defect"], whatever the tier and the zone, or when the zone is one
    of the three zones, the tier one of A, B, C and the label one of the six
    internal labels; in every other case it raises [KeyError]. *)
Theorem build_description_domain (lbl sev loc : string) :
  ((exists d, _build_description lbl sev loc = Ok d)
   <-> lbl = "no_defect"
       \/ (In loc LOCATION_LABELS /\ In sev ["A"; "B"; "C"]
           /\ In lbl INTERNAL_DEFECT_LABELS))
  /\ (forall e, _build_description lbl sev loc = Err e -> e = KeyError).
Proof.
  unfold _build_description.
  destruct (String.eqb lbl "no_defect") eqn:El.
  - apply String.eqb_eq in El. split; [|discriminate].
    split; [auto|eauto].
  - apply String.eqb_neq in El.
    pose proof (dict_getitem_ok korean_location loc) as Hloc.
    pose proof (dict_getitem_ok korean_severity sev) as Hsev.
    pose proof (dict_getitem_ok korean_label lbl) as Hlbl.
    pose proof (dict_getitem_err korean_location loc) as Eloc.
    pose proof (dict_getitem_err korean_severity sev) as Esev.
    pose proof (dict_getitem_err korean_label lbl) as Elbl.
    change (map fst korean_location) with LOCATION_LABELS in Hloc.
    change (map fst korean_severity) with ["C"; "B"; "A"] in Hsev.
    change (map fst korean_label) with INTERNAL_DEFECT_LABELS in Hlbl.
    assert (Hsev' : (exists v, dict_getitem korean_severity sev = Ok v)
                    <-> In sev ["A"; "B"; "C"]).
    { rewrite Hsev. simpl. tauto. }
    clear Hsev.
    destruct (dict_getitem korean_location loc) as [l|e1];
      cbv beta iota delta [Py.bind].
    2:{ split.
        - split.
          + intros [d Hd]. discriminate Hd.
          + intros [Hno|(H1 & _)]; [contradiction|].
            apply Hloc in H1. destruct H1 as [v Hv]. discriminate Hv.
        - intros e [= <-]. exact (proj1 (Eloc _ eq_refl)). }
    destruct (dict_getitem korean_severity sev) as [s|e2];
      cbv beta iota delta [Py.bind].
    2:{ split.
        - split.
          + intros [d Hd]. discriminate Hd.
          + intros [Hno|(_ & H2 & _)]; [contradiction|].
            apply Hsev' in H2. destruct H2 as [v Hv]. discriminate Hv.
        - intros e [= <-]. exact (proj1 (Esev _ eq_refl)). }
    destruct (dict_getitem korean_label lbl) as [k|e3];
      cbv beta iota delta [Py.bind].
    2:{ split.
        - split.
          + intros [d Hd]. discriminate Hd.
          + intros [Hno|(_ & _ & H3)]; [contradiction|].
            apply Hlbl in H3. destruct H3 as [v Hv]. discriminate Hv.
        - intros e [= <-]. exact (proj1 (Elbl _ eq_refl)). }
    split; [|discriminate].
    split; [|eauto].
    intros _. right. repeat split.
    + apply Hloc; eauto.
    + apply Hsev'; eauto.
    + apply Hlbl; eauto.
Qed.

Lemma build_description_domain_witness :
  _build_description "dent" "Z" "front" = Err KeyError.
Proof.
  destruct (build_description_domain "dent" "Z" "front") as [_ Herr].
  destruct (_build_description "dent" "Z" "front") as [d|e] eqn:E.
  - vm_compute in E. discriminate E.
  - rewrite (Herr e eq_refl). reflexivity.
Defined.

(** *** The verdict *)

Lemma classify_probs_inv (pd ps pl : list prob) (v : Verdict) :
  classify_probs pd ps pl = Ok v ->
  exists conf idx internal js sl jl ll d,
    torch_max pd = Ok (conf, idx)
    /\ nth_error INTERNAL_DEFECT_LABELS idx = Some internal
    /\ torch_argmax ps = Ok js
    /\ nth_error SEVERITY_LABELS js = Some sl
    /\ torch_argmax pl = Ok jl
    /\ nth_error LOCATION_LABELS jl = Some ll
    /\ _build_description
         (if prob_ltb conf (PNum NO_DEFECT_THRESHOLD) then "no_defect"
          else map_internal_defect_to_config internal)
         (_severity_to_abc sl) ll = Ok d
    /\ v = {| label :=
                if prob_ltb conf (PNum NO_DEFECT_THRESHOLD) then "no_defect"
                else map_internal_defect_to_config internal;
              confidence := conf;
              description := d;
              severity := _severity_to_abc sl;
              location := ll;
              action :=
                _decide_action
                  (if prob_ltb conf (PNum NO_DEFECT_THRESHOLD)
                   then "no_defect"
                   else map_internal_defect_to_config internal)
                  (_severity_to_abc sl) |}.
Proof.
  unfold classify_probs, getitem.
  destruct (torch_max pd) as [[conf idx]|e]; [|discriminate].
  cbv beta iota delta [Py.bind].
  destruct (nth_error INTERNAL_DEFECT_LABELS idx) as [internal|] eqn:Hi;
    [|discriminate].
  destruct (torch_argmax ps) as [js|e]; [|discriminate].
  destruct (nth_error SEVERITY_LABELS js) as [sl|] eqn:Hs; [|discriminate].
  destruct (torch_argmax pl) as [jl|e]; [|discriminate].
  destruct (nth_error LOCATION_LABELS jl) as [ll|] eqn:Hl; [|discriminate].
  destruct (_build_description _ _ _) as [d|e] eqn:Hd; [|discriminate].
  intros [= <-].
  exists conf, idx, internal, js, sl, jl, ll, d.
  repeat split; try reflexivity; assumption.
Qed.

Ltac in_list := repeat (first [left; reflexivity | right]).

(** The fields of a Verdict of the engine, by cases on the three winning
    indices and on the side of the threshold. *)
Lemma classify_probs_range (pd ps pl : list prob) (v : Verdict) :
  classify_probs pd ps pl = Ok v ->
  In (label v) Config.DEFECT_LABELS
  /\ In (severity v) ["A"; "B"; "C"]
  /\ In (location v) LOCATION_LABELS
  /\ In (action v) ["Pass"; "Reject"; "Rework"; "Hold"]
  /\ (action v = "Pass" <-> label v = "no_defect")
  /\ description v <> EmptyString
  /\ exists idx, torch_max pd = Ok (confidence v, idx).
Proof.
  intros Hv.
  destruct (classify_probs_inv _ _ _ _ Hv)
    as (conf & idx & internal & js & sl & jl & ll & d
        & Hmax & Hi & _ & Hs & _ & Hl & Hd & ->).
  cbn [label severity location action description confidence].
  set (b := prob_ltb conf (PNum NO_DEFECT_THRESHOLD)) in *; clearbody b.
  rewrite DEFECT_LABELS_value.
  assert (Hconf : exists idx0, torch_max pd = Ok (conf, idx0)) by eauto.
  clear Hmax Hv.
  do 7 (try destruct idx as [|idx]); try discriminate Hi;
    injection Hi as <-;
    (do 4 (try destruct js as [|js]); try discriminate Hs;
     injection Hs as <-);
    (do 4 (try destruct jl as [|jl]); try discriminate Hl;
     injection Hl as <-);
    destruct b; vm_compute in Hd; injection Hd as <-;
    (repeat split; try exact Hconf;
     try (vm_compute; in_list);
     try (vm_compute; discriminate);
     try (vm_compute; intros; discriminate);
     try (vm_compute; reflexivity)).
Qed.

(** X2: every Verdict the engine returns is well formed: its label is a
    configured label, its tier is A, B or C, its zone is one of the three
    zones, its action is Pass, Reject, Rework or Hold (never Scrap), the
    action is Pass exactly when the label is ["no_defect"], its description
    is not empty, and its confidence is the winning probability of the
    defect row, also when the label was forced to ["no_defect"]: an entry
    of the row, NaN when the row holds a NaN, and otherwise a number that no
    entry of the row exceeds. *)
Theorem verdict_well_formed (pd ps pl : list prob) (v : Verdict) :
  classify_probs pd ps pl = Ok v ->
  In (label v) Config.DEFECT_LABELS
  /\ In (severity v) ["A"; "B"; "C"]
  /\ In (location v) LOCATION_LABELS
  /\ In (action v) ["Pass"; "Reject"; "Rework"; "Hold"]
  /\ (action v = "Pass" <-> label v = "no_defect")
  /\ description v <> EmptyString
  /\ (exists idx, torch_max pd = Ok (confidence v, idx))
  /\ In (confidence v) pd
  /\ (In PNaN pd -> confidence v = PNaN)
  /\ (forall m, confidence v = PNum m ->
                forall p, In p pd -> exists q, p = PNum q /\ q <= m).
Proof.
  intros Hv.
  destruct (classify_probs_range pd ps pl v Hv)
    as (H1 & H2 & H3 & H4 & H5 & H6 & idx & E).
  destruct (torch_max_spec _ _ _ E) as [Hn Hup].
  repeat match goal with |- _ /\ _ => split end; try assumption.
  - exists idx. exact E.
  - exact (nth_error_In _ _ Hn).
  - intros Hnan. exact (torch_max_nan _ _ _ Hnan E).
  - intros m Hm p Hp. destruct p as [q|].
    + exists q. split; [reflexivity|]. exact (Hup m Hm q Hp).
    + pose proof (torch_max_nan _ _ _ Hp E) as Hc. congruence.
Qed.

Lemma verdict_well_formed_witness :
  exists v,
    classify_probs
      [PNum 0.1; PNum 0.6; PNum 0.1; PNum 0.1; PNum 0.05; PNum 0.05]
      [PNum 0.2; PNum 0.5; PNum 0.3] [PNum 0.1; PNum 0.3; PNum 0.6] = Ok v
    /\ In (label v) Config.DEFECT_LABELS.
Proof.
  destruct (classify_probs
              [PNum 0.1; PNum 0.6; PNum 0.1; PNum 0.1; PNum 0.05; PNum 0.05]
              [PNum 0.2; PNum 0.5; PNum 0.3] [PNum 0.1; PNum 0.3; PNum 0.6])
    as [v|e] eqn:E.
  - exists v. split; [reflexivity|].
    exact (proj1 (verdict_well_formed _ _ _ _ E)).
  - vm_compute in E. discriminate E.
Defined.

Lemma torch_max_err (l : list prob) (e : exn) :
  torch_max l = Err e -> e = IndexError /\ l = [].
Proof.
  destruct l as [|x l]; simpl; [|discriminate].
  intros [= <-]. split; reflexivity.
Qed.

Lemma torch_argmax_inv (l : list prob) (j : nat) :
  torch_argmax l = Ok j -> (j < List.length l)%nat.
Proof.
  unfold torch_argmax. destruct (torch_max l) as [[c i]|e] eqn:E;
    [|discriminate].
  intros [= <-]. exact (torch_max_index _ _ _ E).
Qed.

Lemma torch_argmax_err (l : list prob) (e : exn) :
  torch_argmax l = Err e -> e = IndexError /\ l = [].
Proof.
  unfold torch_argmax. destruct (torch_max l) as [[c i]|e0] eqn:E;
    [discriminate|].
  intros [= <-]. exact (torch_max_err _ _ E).
Qed.

(** X3: the engine raises nothing but [IndexError], and only on a row that
    is empty or longer than its list of labels (six defect classes, three
    severities, three zones); the description never fails on what the
    engine itself computed. *)
Theorem classify_probs_errors (pd ps pl : list prob) (e : exn) :
  classify_probs pd ps pl = Err e ->
  e = IndexError
  /\ (pd = [] \/ (6 < List.length pd)%nat
      \/ ps = [] \/ (3 < List.length ps)%nat
      \/ pl = [] \/ (3 < List.length pl)%nat).
Proof.
  unfold classify_probs, getitem.
  destruct (torch_max pd) as [[conf idx]|e0] eqn:Em;
    cbv beta iota delta [Py.bind].
  2:{ intros [= <-]. destruct (torch_max_err _ _ Em) as [-> ->]. auto. }
  pose proof (torch_max_index _ _ _ Em) as Hidx.
  destruct (nth_error INTERNAL_DEFECT_LABELS idx) as [internal|] eqn:Hi.
  2:{ intros [= <-]. split; [reflexivity|].
      apply nth_error_None in Hi. simpl in Hi. right; left. lia. }
  destruct (torch_argmax ps) as [js|e1] eqn:Es.
  2:{ intros [= <-]. destruct (torch_argmax_err _ _ Es) as [-> ->]. auto. }
  pose proof (torch_argmax_inv _ _ Es) as Hjs.
  destruct (nth_error SEVERITY_LABELS js) as [sl|] eqn:Hs.
  2:{ intros [= <-]. split; [reflexivity|].
      apply nth_error_None in Hs. simpl in Hs. do 3 right; left. lia. }
  destruct (torch_argmax pl) as [jl|e2] eqn:El.
  2:{ intros [= <-]. destruct (torch_argmax_err _ _ El) as [-> ->].
      split; [reflexivity|]. do 4 right; left. reflexivity. }
  pose proof (torch_argmax_inv _ _ El) as Hjl.
  destruct (nth_error LOCATION_LABELS jl) as [ll|] eqn:Hl.
  2:{ intros [= <-]. split; [reflexivity|].
      apply nth_error_None in Hl. simpl in Hl. do 5 right. lia. }
  set (b := prob_ltb conf (PNum NO_DEFECT_THRESHOLD)); clearbody b.
  clear Em Es El Hidx Hjs Hjl.
  intros Herr. exfalso.
  do 7 (try destruct idx as [|idx]); try discriminate Hi;
    injection Hi as <-;
    (do 4 (try destruct js as [|js]); try discriminate Hs;
     injection Hs as <-);
    (do 4 (try destruct jl as [|jl]); try discriminate Hl;
     injection Hl as <-);
    destruct b; vm_compute in Herr; discriminate Herr.
Qed.

Lemma classify_probs_errors_witness :
  classify_probs [] [PNum 0.2; PNum 0.5; PNum 0.3]
    [PNum 0.1; PNum 0.3; PNum 0.6] = Err IndexError.
Proof.
  destruct (classify_probs [] [PNum 0.2; PNum 0.5; PNum 0.3]
              [PNum 0.1; PNum 0.3; PNum 0.6]) as [v|e] eqn:E.
  - vm_compute in E. discriminate E.
  - rewrite (proj1 (classify_probs_errors _ _ _ _ E)). reflexivity.
Defined.

(** *** The label table *)

Lemma config_map_keys :
  map fst CONFIG_DEFECT_MAP = map _norm Config.DEFECT_LABELS.
Proof. vm_compute. reflexivity. Qed.

Lemma config_map_lookup (lbl : string) :
  In lbl Config.DEFECT_LABELS ->
  dict_find CONFIG_DEFECT_MAP (_norm lbl) = Some lbl.
Proof.
  rewrite DEFECT_LABELS_value. intros Hin.
  repeat (destruct Hin as [<-|Hin]; [vm_compute; reflexivity|]).
  destruct Hin.
Qed.

Lemma config_map_values (k v : string) :
  dict_find CONFIG_DEFECT_MAP k = Some v -> In v Config.DEFECT_LABELS.
Proof.
  intros Hf. apply dict_find_some in Hf.
  rewrite CONFIG_DEFECT_MAP_value in Hf. rewrite DEFECT_LABELS_value.
  repeat (destruct Hf as [[= _ <-]|Hf]; [in_list|]).
  destruct Hf.
Qed.

(** X4: the internal-to-configured label map.  A name that normalises (lower
    case, blanks to underscores) like a configured label is mapped to that
    label; a name that normalises like none is returned as it is; and
    mapping twice is mapping once. *)
Theorem map_internal_defect_spec (name : string) :
  (forall lbl, In lbl Config.DEFECT_LABELS -> _norm name = _norm lbl ->
               map_internal_defect_to_config name = lbl)
  /\ ((forall lbl, In lbl Config.DEFECT_LABELS -> _norm name <> _norm lbl) ->
      map_internal_defect_to_config name = name)
  /\ map_internal_defect_to_config (map_internal_defect_to_config name)
     = map_internal_defect_to_config name.
Proof.
  unfold map_internal_defect_to_config, dict_get.
  split; [|split].
  - intros lbl Hin Hn. rewrite Hn, (config_map_lookup lbl Hin). reflexivity.
  - intros Hno.
    destruct (dict_find CONFIG_DEFECT_MAP (_norm name)) as [v|] eqn:E;
      [|reflexivity].
    exfalso. apply dict_find_some in E.
    assert (Hk : In (_norm name) (map fst CONFIG_DEFECT_MAP)).
    { apply in_map_iff. exists (_norm name, v). auto. }
    rewrite config_map_keys in Hk. apply in_map_iff in Hk.
    destruct Hk as (lbl & Hl & Hin). exact (Hno lbl Hin (eq_sym Hl)).
  - destruct (dict_find CONFIG_DEFECT_MAP (_norm name)) as [v|] eqn:E.
    + rewrite (config_map_lookup v (config_map_values _ _ E)). reflexivity.
    + rewrite E. reflexivity.
Qed.

Lemma map_internal_defect_spec_witness :
  map_internal_defect_to_config "Tire Flat" = "tire flat"
  /\ map_internal_defect_to_config "rust" = "rust".
Proof.
  destruct (map_internal_defect_spec "Tire Flat") as (Hhit & _ & _).
  destruct (map_internal_defect_spec "rust") as (_ & Hmiss & _).
  split.
  - apply Hhit; [rewrite DEFECT_LABELS_value; in_list|reflexivity].
  - apply Hmiss. rewrite DEFECT_LABELS_value. intros lbl Hin.
    repeat (destruct Hin as [<-|Hin]; [vm_compute; discriminate|]).
    destruct Hin.
Defined.

End EngineProps.

(** ** More on the result store *)

Module StoreProps.
Import DB DBFacts StoreRun.
Local Open Scope list_scope.

(** *** The order of a result set *)

Lemma string_compare_refl (s : string) : String.compare s s = Eq.
Proof.
  pose proof (String.compare_antisym s s) as H.
  destruct (String.compare s s); simpl in H; congruence.
Qed.

Lemma ascii_compare_lt_trans (a b c : ascii) :
  Ascii.compare a b = Lt -> Ascii.compare b c = Lt -> Ascii.compare a c = Lt.
Proof.
  unfold Ascii.compare. rewrite !N.compare_lt_iff. apply N.lt_trans.
Qed.

Lemma string_compare_lt_trans (s1 : string) :
  forall s2 s3,
    String.compare s1 s2 = Lt -> String.compare s2 s3 = Lt ->
    String.compare s1 s3 = Lt.
Proof.
  induction s1 as [|c1 s1 IH]; intros [|c2 s2] [|c3 s3]; simpl;
    try discriminate; try reflexivity.
  destruct (Ascii.compare c1 c2) eqn:E12; try discriminate;
    destruct (Ascii.compare c2 c3) eqn:E23; try discriminate.
  - apply Ascii.compare_eq_iff in E12, E23. subst c2 c3.
    rewrite (proj2 (N.compare_eq_iff _ _) eq_refl : Ascii.compare c1 c1 = Eq).
    apply IH.
  - apply Ascii.compare_eq_iff in E12. subst c2. rewrite E23. reflexivity.
  - apply Ascii.compare_eq_iff in E23. subst c3. rewrite E12. reflexivity.
  - rewrite (ascii_compare_lt_trans _ _ _ E12 E23). reflexivity.
Qed.

Lemma null_compare_refl (a : option string) : null_compare a a = Eq.
Proof. destruct a; simpl; [apply string_compare_refl|reflexivity]. Qed.

Lemma null_compare_eq (a b : option string) :
  null_compare a b = Eq -> a = b.
Proof.
  destruct a, b; simpl; try discriminate; try reflexivity.
  intros E. apply String.compare_eq_iff in E. congruence.
Qed.

Lemma null_compare_antisym (a b : option string) :
  null_compare a b = CompOpp (null_compare b a).
Proof.
  destruct a, b; simpl; try reflexivity. apply String.compare_antisym.
Qed.

Lemma null_compare_lt_trans (a b c : option string) :
  null_compare a b = Lt -> null_compare b c = Lt -> null_compare a c = Lt.
Proof.
  destruct a, b, c; simpl; try discriminate; try reflexivity.
  apply string_compare_lt_trans.
Qed.

Lemma null_compare_gt_trans (a b c : option string) :
  null_compare a b = Gt -> null_compare b c = Gt -> null_compare a c = Gt.
Proof.
  intros Hab Hbc.
  rewrite null_compare_antisym in Hab, Hbc |- *.
  assert (Hba : null_compare b a = Lt)
    by (destruct (null_compare b a); simpl in Hab; congruence).
  assert (Hcb : null_compare c b = Lt)
    by (destruct (null_compare c b); simpl in Hbc; congruence).
  rewrite (null_compare_lt_trans _ _ _ Hcb Hba). reflexivity.
Qed.

Section Order.
Context `{SqliteDate}.

Lemma order_before_trans (a b c : Row) :
  order_before a b = true -> order_before b c = true ->
  order_before a c = true.
Proof.
  unfold order_before.
  destruct (null_compare (sql_datetime (ts a)) (sql_datetime (ts b)))
    eqn:Eab; try discriminate;
    destruct (null_compare (sql_datetime (ts b)) (sql_datetime (ts c)))
      eqn:Ebc; try discriminate.
  - apply null_compare_eq in Eab, Ebc. rewrite Eab, Ebc, null_compare_refl.
    intros H1 H2. apply Z.leb_le in H1, H2. apply Z.leb_le. lia.
  - apply null_compare_eq in Eab. rewrite Eab, Ebc. reflexivity.
  - apply null_compare_eq in Ebc. rewrite <- Ebc, Eab. reflexivity.
  - rewrite (null_compare_gt_trans _ _ _ Eab Ebc). reflexivity.
Qed.

Lemma order_before_total (a b : Row) :
  order_before a b = false -> order_before b a = true.
Proof.
  unfold order_before. rewrite (null_compare_antisym _ (sql_datetime (ts a))).
  destruct (null_compare (sql_datetime (ts a)) (sql_datetime (ts b)));
    simpl; try discriminate; try reflexivity.
  intros H1. apply Z.leb_gt in H1. apply Z.leb_le. lia.
Qed.

Lemma insert_sorted_In (r x : Row) (l : list Row) :
  In x (insert_sorted r l) <-> x = r \/ In x l.
Proof.
  induction l as [|y l IH]; simpl.
  - intuition.
  - destruct (order_before r y); simpl; [intuition|].
    rewrite IH. intuition.
Qed.

Lemma insert_sorted_sorted (r : Row) (l : list Row) :
  StronglySorted before l -> StronglySorted before (insert_sorted r l).
Proof.
  induction 1 as [|y l Hs IH Hy]; simpl.
  - constructor; constructor.
  - destruct (order_before r y) eqn:E.
    + constructor; [constructor; assumption|].
      constructor; [exact E|].
      rewrite Forall_forall in *. intros z Hz.
      exact (order_before_trans _ _ _ E (Hy z Hz)).
    + constructor; [exact IH|].
      rewrite Forall_forall in *. intros z Hz.
      apply insert_sorted_In in Hz. destruct Hz as [->|Hz].
      * exact (order_before_total _ _ E).
      * exact (Hy z Hz).
Qed.

Lemma order_by_sorted (rs : list Row) : StronglySorted before (order_by rs).
Proof.
  induction rs as [|r rs IH]; simpl; [constructor|].
  apply insert_sorted_sorted. exact IH.
Qed.

Lemma insert_sorted_head (r : Row) (l : list Row) :
  Forall (before r) l -> insert_sorted r l = r :: l.
Proof.
  destruct l as [|y l]; simpl; [reflexivity|].
  intros Hf. inversion Hf as [|? ? Hy _]; subst.
  unfold before in Hy. rewrite Hy. reflexivity.
Qed.

(** Filtering a sorted list and then inserting is inserting and then
    filtering. *)
Lemma filter_insert_sorted (p : Row -> bool) (r : Row) (l : list Row) :
  StronglySorted before l ->
  filter p (insert_sorted r l)
  = if p r then insert_sorted r (filter p l) else filter p l.
Proof.
  induction 1 as [|y l Hs IH Hy]; simpl.
  - destruct (p r); reflexivity.
  - destruct (order_before r y) eqn:E.
    + simpl. destruct (p r) eqn:Pr; [|reflexivity].
      symmetry. apply (insert_sorted_head r (filter p (y :: l))).
      rewrite Forall_forall in *. intros z Hz.
      apply filter_In in Hz. destruct Hz as [[<-|Hz] _]; [exact E|].
      exact (order_before_trans _ _ _ E (Hy z Hz)).
    + simpl. rewrite IH.
      destruct (p r), (p y); simpl; try rewrite E; reflexivity.
Qed.

Lemma order_by_filter (p : Row -> bool) (rs : list Row) :
  order_by (filter p rs) = filter p (order_by rs).
Proof.
  induction rs as [|r rs IH]; simpl; [reflexivity|].
  rewrite (filter_insert_sorted p r _ (order_by_sorted rs)).
  destruct (p r); simpl; rewrite IH; reflexivity.
Qed.

End Order.

(** *** Reading *)

Lemma firstn_whole {A : Type} (l : list A) :
  forall n, (List.length l <= n)%nat -> firstn n l = l.
Proof.
  induction l as [|a l IH]; intros [|n] Hn; simpl in *;
    try reflexivity; try lia.
  f_equal. apply IH. lia.
Qed.

Lemma firstn_length_le {A : Type} (l : list A) :
  forall n, (List.length (firstn n l) <= n)%nat.
Proof.
  induction l as [|a l IH]; intros [|n]; simpl; try lia.
  specialize (IH n). lia.
Qed.

Lemma firstn_In {A : Type} (l : list A) :
  forall n x, In x (firstn n l) -> In x l.
Proof.
  induction l as [|a l IH]; intros [|n] x; simpl; try tauto.
  intros [->|Hx]; [left; reflexivity|right; exact (IH _ _ Hx)].
Qed.

Lemma firstn_sorted {A : Type} (R : A -> A -> Prop) (l : list A) :
  StronglySorted R l -> forall n, StronglySorted R (firstn n l).
Proof.
  induction 1 as [|a l Hs IH Ha]; intros [|n]; simpl; try constructor.
  - apply IH.
  - rewrite Forall_forall in *. intros x Hx.
    apply Ha. exact (firstn_In _ _ _ Hx).
Qed.

Lemma map_sorted {A B : Type} (R : A -> A -> Prop) (R' : B -> B -> Prop)
  (f : A -> B) (l : list A) :
  (forall a b, R a b -> R' (f a) (f b)) ->
  StronglySorted R l -> StronglySorted R' (map f l).
Proof.
  intros Hf. induction 1 as [|a l Hs IH Ha]; simpl; constructor.
  - exact IH.
  - rewrite Forall_forall in *. intros y Hy.
    apply in_map_iff in Hy. destruct Hy as (x & <- & Hx).
    apply Hf. exact (Ha x Hx).
Qed.

Lemma sql_limit_whole {A : Type} (limit : Z) (l : list A) :
  (limit < 0 \/ Z.of_nat (List.length l) <= limit)%Z ->
  sql_limit limit l = l.
Proof.
  intros Hl. unfold sql_limit.
  destruct (limit <? 0)%Z eqn:E; [reflexivity|].
  apply Z.ltb_ge in E. apply firstn_whole. lia.
Qed.

Lemma sql_limit_In {A : Type} (limit : Z) (l : list A) (x : A) :
  In x (sql_limit limit l) -> In x l.
Proof.
  unfold sql_limit. destruct (limit <? 0)%Z; [tauto|apply firstn_In].
Qed.

Lemma sql_limit_sorted {A : Type} (R : A -> A -> Prop) (limit : Z)
  (l : list A) :
  StronglySorted R l -> StronglySorted R (sql_limit limit l).
Proof.
  intros Hs. unfold sql_limit.
  destruct (limit <? 0)%Z; [exact Hs|apply firstn_sorted; exact Hs].
Qed.

Section QueryProps.
Context `{SqliteDate}.

Lemma newer_first_select (a b : Row) :
  before a b -> newer_first (select_cols a) (select_cols b).
Proof.
  unfold before, order_before, newer_first, sel_ts, sel_id, select_cols.
  simpl.
  destruct (null_compare (sql_datetime (ts a)) (sql_datetime (ts b)));
    try discriminate; [|tauto].
  intros Hle. apply Z.leb_le in Hle. exact Hle.
Qed.

(** X5: [fetch_results] returns rows of stored Records only, most recent
    first by [datetime(ts)] and by descending id among equal times, at most
    [limit] of them when the limit is not negative, and all of them when the
    limit is negative or at least the number of Records. *)
Theorem fetch_results_ordered (limit : Z) (db : Database) :
  let out := fst (fetch_results limit db) in
  StronglySorted newer_first out
  /\ (forall row, In row out ->
                  exists r, In r (records db) /\ row = select_cols r)
  /\ ((0 <= limit)%Z -> (Z.of_nat (List.length out) <= limit)%Z)
  /\ ((limit < 0 \/ Z.of_nat (List.length (records db)) <= limit)%Z ->
      Permutation out (map select_cols (records db))).
Proof.
  unfold fetch_results, records. cbn [fst].
  set (rs := rows (ensure_schema db)).
  split; [|split; [|split]].
  - apply (map_sorted before); [exact newer_first_select|].
    apply sql_limit_sorted. apply order_by_sorted.
  - intros row Hin. apply in_map_iff in Hin.
    destruct Hin as (r & <- & Hr). exists r. split; [|reflexivity].
    apply sql_limit_In in Hr.
    exact (Permutation_in _ (order_by_perm rs) Hr).
  - intros Hl. rewrite length_map. unfold sql_limit.
    destruct (limit <? 0)%Z eqn:E; [apply Z.ltb_lt in E; lia|].
    pose proof (firstn_length_le (order_by rs) (Z.to_nat limit)). lia.
  - intros Hl. rewrite sql_limit_whole.
    + apply Permutation_map. apply order_by_perm.
    + rewrite (Permutation_length (order_by_perm rs)). exact Hl.
Qed.

Lemma search_results_rows
  (defect_type severity action location keyword date_from date_to
   : option string) (limit : Z) (db : Database) :
  fst (search_results defect_type severity action location keyword date_from
         date_to limit db)
  = map select_cols
      (sql_limit limit
         (filter (matches defect_type severity action location keyword
                    date_from date_to)
            (order_by (records db)))).
Proof.
  unfold search_results, matches, records. cbn [fst].
  rewrite order_by_filter. reflexivity.
Qed.

(** X6: [search_results] returns, of the rows in the order of
    [fetch_results], those that pass every predicate given, cut at the
    limit: the WHERE clause and the ORDER BY commute. *)
Theorem search_results_filters_fetch_order
  (defect_type severity action location keyword date_from date_to
   : option string) (limit : Z) (db : Database) :
  fst (search_results defect_type severity action location keyword date_from
         date_to limit db)
  = map select_cols
      (sql_limit limit
         (filter (matches defect_type severity action location keyword
                    date_from date_to)
            (order_by (records db))))
  /\ fst (fetch_results limit db)
     = map select_cols (sql_limit limit (order_by (records db))).
Proof.
  split; [apply search_results_rows|reflexivity].
Qed.

(** X7: with a label and a severity given and no limit, [search_results]
    returns exactly the stored Records that bear both, each once per
    Record; an argument that is the empty text counts as left out. *)
Theorem search_results_conjunction (x y : string) (db : Database) :
  truthy x = true -> truthy y = true ->
  (forall row,
     In row (fst (search_results (Some x) (Some y) None None None None None
                    (-1) db))
     <-> exists r, In r (records db) /\ row = select_cols r
                   /\ DB.defect_type r = x /\ DB.severity r = y)
  /\ (forall row,
        In row (fst (search_results (Some x) (Some y) None None None None
                       None (-1) db)) ->
        sel_defect_type row = x /\ sel_severity row = y)
  /\ search_results (Some EmptyString) (Some y) None None None None None
       (-1) db
     = search_results None (Some y) None None None None None (-1) db.
Proof.
  intros Hx Hy.
  assert (Hiff : forall row,
     In row (fst (search_results (Some x) (Some y) None None None None None
                    (-1) db))
     <-> exists r, In r (records db) /\ row = select_cols r
                   /\ DB.defect_type r = x /\ DB.severity r = y).
  { intros row.
    rewrite search_results_rows.
    rewrite sql_limit_whole by (left; lia).
    rewrite in_map_iff. unfold matches, where_clauses, clause.
    rewrite Hx, Hy. cbn [app forallb].
    split.
    - intros (r & <- & Hr). apply filter_In in Hr. destruct Hr as [Hr Hm].
      rewrite andb_true_r in Hm. apply andb_true_iff in Hm.
      destruct Hm as [H1 H2]. apply String.eqb_eq in H1, H2.
      exists r. repeat split; try assumption.
      exact (Permutation_in _ (order_by_perm _) Hr).
    - intros (r & Hr & -> & H1 & H2). exists r. split; [reflexivity|].
      apply filter_In. split.
      + exact (Permutation_in _ (Permutation_sym (order_by_perm _)) Hr).
      + rewrite andb_true_r. apply andb_true_iff.
        split; apply String.eqb_eq; assumption. }
  split; [exact Hiff|]. split.
  - intros row Hin. apply Hiff in Hin.
    destruct Hin as (r & _ & -> & H1 & H2). split; assumption.
  - reflexivity.
Qed.

End QueryProps.

Lemma fetch_results_ordered_witness :
  Permutation
    (fst (@fetch_results StoreSpec.demo_sqlite 200 StoreSpec.demo_db))
    (map select_cols (records StoreSpec.demo_db)).
Proof.
  destruct (@fetch_results_ordered StoreSpec.demo_sqlite 200
              StoreSpec.demo_db) as (_ & _ & _ & Hall).
  apply Hall. right. vm_compute. discriminate.
Defined.

Lemma search_results_conjunction_witness :
  @search_results StoreSpec.demo_sqlite (Some EmptyString) (Some "A") None
    None None None None (-1) StoreSpec.demo_db
  = @search_results StoreSpec.demo_sqlite None (Some "A") None None None
      None None (-1) StoreSpec.demo_db.
Proof.
  destruct (@search_results_conjunction StoreSpec.demo_sqlite "dent" "A"
              StoreSpec.demo_db eq_refl eq_refl) as (_ & _ & Hempty).
  exact Hempty.
Defined.

(** *** Writing *)

Section WriteProps.
Context `{Hashlib}.

Lemma prepare_values (fs : FileSystem) (now p l s loc : string)
  (sc : LocalAI.prob) (d a : string)
  (ts0 : option string) (c : list Byte.byte) :
  fs p = Readable c ->
  prepare fs now p l s loc sc d a ts0
  = Ok (bound_values now p l s loc sc d a ts0 c).
Proof. intros Hf. exact (prepare_ok _ _ _ _ _ _ _ _ _ _ _ Hf). Qed.

(** The three outcomes of [insert_result]. *)
Lemma insert_result_cases (fs : FileSystem) (now p l s loc : string)
  (sc : LocalAI.prob) (d a : string) (ts0 : option string) (db : Database) :
  let t := ensure_schema db in
  (exists e,
     fs p = Unreadable e
     /\ insert_result fs now p l s loc sc d a ts0 db
        = (Err (raised e), Some t))
  \/ (exists c,
        fs p = Readable c
        /\ unique_conflict (rows t) p (sha256_hexdigest c) = true
        /\ insert_result fs now p l s loc sc d a ts0 db
           = (Ok false, Some {| rows := rows t; seq := new_rowid t |}))
  \/ (exists c,
        fs p = Readable c
        /\ unique_conflict (rows t) p (sha256_hexdigest c) = false
        /\ insert_result fs now p l s loc sc d a ts0 db
           = (Ok true,
              Some {| rows :=
                        rows t
                        ++ [stored (new_rowid t)
                              (bound_values now p l s loc sc d a ts0 c)];
                      seq := new_rowid t |})).
Proof.
  intros t. unfold insert_result. fold t.
  destruct (fs p) as [c|e0] eqn:Hf.
  - rewrite (prepare_values _ _ _ _ _ _ _ _ _ _ _ Hf).
    unfold sql_insert_or_ignore. cbn [image_path image_hash bound_values].
    destruct (unique_conflict (rows t) p (sha256_hexdigest c)) eqn:Hc.
    + right; left. exists c.
      split; [reflexivity|]. split; [exact Hc|]. reflexivity.
    + right; right. exists c.
      split; [reflexivity|]. split; [exact Hc|]. reflexivity.
  - left. exists e0.
    rewrite (prepare_missing _ _ _ _ _ _ _ _ _ _ _ Hf). split; reflexivity.
Qed.

(** The outcomes of [upsert_result]. *)
Lemma upsert_result_cases (fs : FileSystem) (now p l s loc : string)
  (sc : LocalAI.prob) (d a : string) (ts0 : option string) (db : Database) :
  let t := ensure_schema db in
  (exists e,
     fs p = Unreadable e
     /\ upsert_result fs now p l s loc sc d a ts0 db
        = (Err (raised e), Some t))
  \/ (exists c,
        fs p = Readable c
        /\ let v := bound_values now p l s loc sc d a ts0 c in
           match sql_select_id_by_hash t (sha256_hexdigest c) with
           | Some rid =>
               match sql_update t rid v with
               | Ok t' =>
                   upsert_result fs now p l s loc sc d a ts0 db
                   = (Ok rid, Some t')
               | Err e =>
                   upsert_result fs now p l s loc sc d a ts0 db
                   = (Err e, Some t)
               end
           | None =>
               match sql_insert t v with
               | Ok (rid, t') =>
                   upsert_result fs now p l s loc sc d a ts0 db
                   = (Ok rid, Some t')
               | Err e =>
                   upsert_result fs now p l s loc sc d a ts0 db
                   = (Err e, Some t)
               end
           end).
Proof.
  intros t. unfold upsert_result. fold t.
  destruct (fs p) as [c|e0] eqn:Hf.
  - right. exists c. split; [reflexivity|].
    rewrite (prepare_values _ _ _ _ _ _ _ _ _ _ _ Hf).
    cbn [image_hash bound_values].
    destruct (sql_select_id_by_hash t (sha256_hexdigest c)) as [rid|].
    + destruct (sql_update t rid _) as [t'|e]; reflexivity.
    + destruct (sql_insert t _) as [[rid t']|e]; reflexivity.
  - left. exists e0.
    rewrite (prepare_missing _ _ _ _ _ _ _ _ _ _ _ Hf). split; reflexivity.
Qed.

(** X8: [insert_result] never alters or removes a Record: the Records
    before are the first Records after, at most one is added behind them,
    and none is added when it returns [False] or raises. *)
Theorem insert_result_appends (fs : FileSystem) (now p l s loc : string)
  (sc : LocalAI.prob) (d a : string) (ts0 : option string) (db : Database) :
  let out := insert_result fs now p l s loc sc d a ts0 db in
  exists added,
    records (snd out) = records db ++ added
    /\ (List.length added <= 1)%nat
    /\ (fst out <> Ok true -> added = []).
Proof.
  intros out. subst out.
  destruct (insert_result_cases fs now p l s loc sc d a ts0 db)
    as [(e0 & _ & E)|[(c & _ & _ & E)|(c & _ & _ & E)]]; rewrite E.
  - exists []. rewrite app_nil_r. repeat split. simpl; lia.
  - exists []. rewrite app_nil_r. repeat split. simpl; lia.
  - eexists. split; [reflexivity|]. split; [simpl; lia|].
    intros Hne. exfalso. apply Hne. reflexivity.
Qed.

End WriteProps.

Lemma insert_result_appends_witness :
  records (snd (@insert_result StoreSpec.demo_hashlib StoreSpec.demo_fs
                  StoreSpec.demo_now "copy/a.png" "scratch" "B" "rear"
                  (LocalAI.PNum 0.5)
                  EmptyString "Rework" None StoreSpec.demo_db))
  = records StoreSpec.demo_db.
Proof.
  destruct (@insert_result_appends StoreSpec.demo_hashlib StoreSpec.demo_fs
              StoreSpec.demo_now "copy/a.png" "scratch" "B" "rear"
              (LocalAI.PNum 0.5)
              EmptyString "Rework" None StoreSpec.demo_db)
    as (added & Hrec & _ & Hnone).
  rewrite Hrec, Hnone; [apply app_nil_r|].
  vm_compute. discriminate.
Defined.

(** *** Updating in place *)

Lemma NoDup_map_inj {A B : Type} (f : A -> B) (l : list A) (x y : A) :
  NoDup (map f l) -> In x l -> In y l -> f x = f y -> x = y.
Proof.
  induction l as [|a l IH]; simpl; [tauto|].
  intros Hn Hx Hy Hf. inversion Hn as [|? ? Ha Hl]; subst.
  destruct Hx as [->|Hx]; destruct Hy as [->|Hy]; try reflexivity.
  - exfalso. apply Ha. rewrite Hf. apply in_map. exact Hy.
  - exfalso. apply Ha. rewrite <- Hf. apply in_map. exact Hx.
  - exact (IH Hl Hx Hy Hf).
Qed.

Lemma find_map_same {A : Type} (g : A -> bool) (f : A -> A) (l : list A) :
  (forall x, g (f x) = g x) ->
  find g (map f l) = option_map f (find g l).
Proof.
  intros Hg. induction l as [|a l IH]; simpl; [reflexivity|].
  rewrite Hg. destruct (g a); [reflexivity|exact IH].
Qed.

Lemma existsb_map {A B : Type} (g : B -> bool) (f : A -> B) (l : list A) :
  existsb g (map f l) = existsb (fun x => g (f x)) l.
Proof.
  induction l as [|a l IH]; simpl; [reflexivity|]. rewrite IH. reflexivity.
Qed.

Lemma existsb_ext_in {A : Type} (g g' : A -> bool) (l : list A) :
  (forall x, In x l -> g x = g' x) -> existsb g l = existsb g' l.
Proof.
  induction l as [|a l IH]; intros Hg; simpl; [reflexivity|].
  rewrite (Hg a (or_introl eq_refl)). f_equal.
  apply IH. intros x Hx. apply Hg. right. exact Hx.
Qed.

(** The row function of [UPDATE ... WHERE id = rid]. *)
Lemma sql_update_inv (t : Table) (rid : Z) (v : Row) (t' : Table) :
  sql_update t rid v = Ok t' ->
  t' = {| rows := map (fun r => if Z.eqb (id r) rid then overwrite r v
                                else r) (rows t);
          seq := seq t |}
  /\ (existsb (fun r => Z.eqb (id r) rid) (rows t)
      && existsb (fun r => negb (Z.eqb (id r) rid)
                           && String.eqb (image_path r) (image_path v))
           (rows t)) = false.
Proof.
  unfold sql_update.
  match goal with
  | |- context [if ?c then _ else _] => destruct c eqn:E
  end; [discriminate|].
  intros [= <-]. split; reflexivity.
Qed.

Lemma sql_update_again (t : Table) (rid : Z) (v : Row) (t' : Table) :
  sql_update t rid v = Ok t' -> sql_update t' rid v = Ok t'.
Proof.
  intros Hup. destruct (sql_update_inv _ _ _ _ Hup) as [-> Hc].
  unfold sql_update. cbn [rows seq].
  set (f := fun r => if Z.eqb (id r) rid then overwrite r v else r).
  assert (Hid : forall r, id (f r) = id r).
  { intros r. unfold f. destruct (Z.eqb (id r) rid); reflexivity. }
  rewrite !existsb_map.
  rewrite (existsb_ext_in (fun x => Z.eqb (id (f x)) rid)
             (fun r => Z.eqb (id r) rid))
    by (intros x _; rewrite Hid; reflexivity).
  rewrite (existsb_ext_in
             (fun x => negb (Z.eqb (id (f x)) rid)
                       && String.eqb (image_path (f x)) (image_path v))
             (fun r => negb (Z.eqb (id r) rid)
                       && String.eqb (image_path r) (image_path v))).
  2:{ intros x _. rewrite Hid. unfold f.
      destruct (Z.eqb (id x) rid); reflexivity. }
  rewrite Hc. f_equal. f_equal.
  rewrite map_map. apply map_ext. intros r. unfold f.
  destruct (Z.eqb (id r) rid) eqn:E.
  - cbn [id overwrite]. rewrite E. reflexivity.
  - rewrite E. reflexivity.
Qed.

Lemma sql_select_after_update (t : Table) (rid : Z) (v : Row)
  (h : string) :
  sql_select_id_by_hash
    {| rows := map (fun r => if Z.eqb (id r) rid then overwrite r v else r)
                 (rows t);
       seq := seq t |} h
  = sql_select_id_by_hash t h.
Proof.
  unfold sql_select_id_by_hash. cbn [rows].
  rewrite find_map_same.
  - destruct (find _ (rows t)) as [r|]; simpl; [|reflexivity].
    destruct (Z.eqb (id r) rid); reflexivity.
  - intros r. destruct (Z.eqb (id r) rid); reflexivity.
Qed.

Section UpdateProps.
Context `{Hashlib}.

(** X9: [upsert_result] leaves every Record but the one whose id it
    returns as it was, adds at most one Record and removes none; when it
    raises, the Records are as before. *)
Theorem upsert_result_frame (fs : FileSystem) (now p l s loc : string)
  (sc : LocalAI.prob) (d a : string) (ts0 : option string) (db : Database) :
  let out := upsert_result fs now p l s loc sc d a ts0 db in
  (forall e, fst out = Err e -> records (snd out) = records db)
  /\ (forall rid, fst out = Ok rid ->
        (forall r, id r <> rid ->
                   (In r (records (snd out)) <-> In r (records db)))
        /\ (List.length (records db) <= List.length (records (snd out))
            <= List.length (records db) + 1)%nat).
Proof.
  intros out. subst out.
  destruct (upsert_result_cases fs now p l s loc sc d a ts0 db)
    as [(e0 & _ & E)|(c & _ & E)].
  { rewrite E. split; [reflexivity|discriminate]. }
  cbv zeta in E.
  destruct (sql_select_id_by_hash _ _) as [rid0|].
  - destruct (sql_update _ rid0 _) as [t'|e] eqn:Hup; rewrite E;
      [|split; [reflexivity|discriminate]].
    destruct (sql_update_inv _ _ _ _ Hup) as [-> _].
    split; [discriminate|]. intros rid [= <-].
    unfold records. cbn [snd ensure_schema rows]. split.
    + intros r Hr. rewrite in_map_iff. split.
      * intros (x & Hx & Hin).
        destruct (Z.eqb (id x) rid0) eqn:Ex.
        -- subst r. apply Z.eqb_eq in Ex. contradiction.
        -- subst r. exact Hin.
      * intros Hin. exists r. split; [|exact Hin].
        apply Z.eqb_neq in Hr. rewrite Hr. reflexivity.
    + rewrite length_map. lia.
  - destruct (sql_insert _ _) as [[rid t']|e] eqn:Hins; rewrite E;
      [|split; [reflexivity|discriminate]].
    unfold sql_insert in Hins.
    destruct (unique_conflict _ _ _); [discriminate|].
    injection Hins as <- <-.
    split; [discriminate|]. intros rid [= <-].
    unfold records. cbn [snd ensure_schema rows]. split.
    + intros r Hr. rewrite in_app_iff. split; [|tauto].
      intros [Hin|[<-|[]]]; [exact Hin|].
      exfalso. apply Hr. reflexivity.
    + rewrite length_app. simpl. lia.
Qed.

(** X10: a second [upsert_result] with the same arguments, file and clock
    reading returns the same id and leaves the database as the first left
    it. *)
Theorem upsert_result_idempotent (fs : FileSystem) (now p l s loc : string)
  (sc : LocalAI.prob) (d a : string)
  (ts0 : option string) (db : Database) (rid : Z) :
  fst (upsert_result fs now p l s loc sc d a ts0 db) = Ok rid ->
  upsert_result fs now p l s loc sc d a ts0
    (snd (upsert_result fs now p l s loc sc d a ts0 db))
  = upsert_result fs now p l s loc sc d a ts0 db.
Proof.
  destruct (upsert_result_cases fs now p l s loc sc d a ts0 db)
    as [(e0 & _ & E)|(c & Hf & E)].
  { rewrite E. discriminate. }
  cbv zeta in E.
  set (t := ensure_schema db) in *.
  set (v := bound_values now p l s loc sc d a ts0 c) in *.
  destruct (sql_select_id_by_hash t (sha256_hexdigest c)) as [rid0|]
    eqn:Hsel.
  - destruct (sql_update t rid0 v) as [t'|e] eqn:Hup; rewrite E;
      [|discriminate].
    intros _. cbn [snd]. unfold upsert_result.
    rewrite (prepare_values _ _ _ _ _ _ _ _ _ _ _ Hf). fold v.
    cbn [ensure_schema]. change (image_hash v) with (sha256_hexdigest c).
    destruct (sql_update_inv _ _ _ _ Hup) as [Ht' _].
    rewrite Ht' at 1. rewrite sql_select_after_update, Hsel.
    rewrite (sql_update_again _ _ _ _ Hup). reflexivity.
  - destruct (sql_insert t v) as [[rid1 t']|e] eqn:Hins; rewrite E;
      [|discriminate].
    intros _. cbn [snd]. unfold upsert_result.
    rewrite (prepare_values _ _ _ _ _ _ _ _ _ _ _ Hf). fold v.
    cbn [ensure_schema]. change (image_hash v) with (sha256_hexdigest c).
    unfold sql_insert in Hins.
    destruct (unique_conflict (rows t) (image_path v) (image_hash v))
      eqn:Hc; [discriminate|].
    injection Hins as <- <-.
    pose proof (proj1 (unique_conflict_false _ _ _) Hc) as Hc'.
    clear Hc. rename Hc' into Hc.
    assert (Hsel' :
      sql_select_id_by_hash
        {| rows := rows t ++ [stored (new_rowid t) v];
           seq := new_rowid t |} (sha256_hexdigest c)
      = Some (new_rowid t)).
    { unfold sql_select_id_by_hash. cbn [rows].
      rewrite (find_snoc _ _ (stored (new_rowid t) v)); [reflexivity| |].
      - intros r Hin. apply String.eqb_neq. exact (proj2 (Hc r Hin)).
      - apply String.eqb_eq. reflexivity. }
    rewrite Hsel'.
    change (new_rowid t) with (id (stored (new_rowid t) v)) at 2.
    rewrite sql_update_last; [reflexivity|].
    intros r Hin. split.
    + pose proof (new_rowid_fresh t r Hin). cbn [id stored]. lia.
    + exact (proj1 (Hc r Hin)).
Qed.

(** X11: what [upsert_result] raises.  On a file that cannot be opened or
    read it raises the error [open] or [read] raised, [FileNotFoundError]
    where there is no file, [IsADirectoryError] on a directory,
    [PermissionError] where access is denied, and the Records are as they
    were.  On a readable one, in a store that satisfies the unique indices,
    it raises [sqlite3.IntegrityError], leaving the Records as they were,
    exactly when its path is that of a Record with another digest, and
    otherwise it returns an id. *)
Theorem upsert_result_raises (fs : FileSystem) (now p l s loc : string)
  (sc : LocalAI.prob) (d a : string) (ts0 : option string) (db : Database) :
  db_ok db ->
  let out := upsert_result fs now p l s loc sc d a ts0 db in
  (forall e, fs p = Unreadable e ->
     fst out = Err (raised e) /\ records (snd out) = records db)
  /\ (fs p = Unreadable ENOENT -> fst out = Err FileNotFoundError)
  /\ (fs p = Unreadable EISDIR -> fst out = Err IsADirectoryError)
  /\ (fs p = Unreadable EACCES -> fst out = Err PermissionError)
  /\ (forall c, fs p = Readable c ->
        ((exists r, In r (records db) /\ image_path r = p
                    /\ image_hash r <> sha256_hexdigest c) ->
         fst out = Err IntegrityError /\ records (snd out) = records db)
        /\ ((forall r, In r (records db) -> image_path r = p ->
                       image_hash r = sha256_hexdigest c) ->
            exists rid, fst out = Ok rid)).
Proof.
  intros Hok out. subst out.
  destruct (upsert_result_cases fs now p l s loc sc d a ts0 db)
    as [(e0 & Hf & E)|(c & Hf & E)].
  { rewrite E. cbn [fst snd].
    split.
    { intros e Hf'. rewrite Hf in Hf'. injection Hf' as <-.
      split; reflexivity. }
    do 3 (split;
          [intros Hf'; rewrite Hf in Hf'; injection Hf' as ->; reflexivity|]).
    intros c1 Hc. congruence. }
  split; [congruence|]. do 3 (split; [congruence|]).
  intros c' Hf'. assert (c' = c) by congruence.
  subst c'. clear Hf'. cbv zeta in E.
  set (t := ensure_schema db) in *.
  set (v := bound_values now p l s loc sc d a ts0 c) in *.
  unfold records. fold t.
  destruct (sql_select_id_by_hash t (sha256_hexdigest c)) as [rid0|]
    eqn:Hsel.
  - destruct (select_found _ _ _ Hsel) as (r0 & Hin0 & Hid0 & Hh0).
    assert (Hother : forall r, In r (rows t) ->
              (id r <> rid0 <-> image_hash r <> sha256_hexdigest c)).
    { intros r Hin. split; intros Hne Heq; apply Hne.
      - assert (r = r0)
          by (apply (NoDup_map_inj image_hash (rows t));
              [exact (ok_hashes _ Hok)|exact Hin|exact Hin0|congruence]).
        subst r. exact Hid0.
      - assert (r = r0)
          by (apply (NoDup_map_inj id (rows t));
              [exact (ok_ids _ Hok)|exact Hin|exact Hin0|congruence]).
        subst r. exact Hh0. }
    unfold sql_update in E.
    assert (Hhit : existsb (fun r => Z.eqb (id r) rid0) (rows t) = true).
    { apply existsb_exists. exists r0. split; [exact Hin0|].
      apply Z.eqb_eq. exact Hid0. }
    rewrite Hhit in E. cbn [andb] in E.
    match type of E with
    | context [if ?c then _ else _] => destruct c eqn:Hconf
    end; rewrite E; cbn [fst snd ensure_schema].
    + split; [intros _; split; reflexivity|].
      intros Hall. exfalso.
      apply existsb_exists in Hconf. destruct Hconf as (r & Hin & Hr).
      apply andb_true_iff in Hr. destruct Hr as [Hr1 Hr2].
      apply negb_true_iff, Z.eqb_neq in Hr1. apply String.eqb_eq in Hr2.
      apply (proj1 (Hother r Hin) Hr1). exact (Hall r Hin Hr2).
    + split; [|eauto].
      intros (r & Hin & Hp & Hh). exfalso.
      assert (Ht : existsb
                     (fun r => negb (Z.eqb (id r) rid0)
                               && String.eqb (image_path r) (image_path v))
                     (rows t) = true).
      { apply existsb_exists. exists r. split; [exact Hin|].
        apply andb_true_iff. split.
        - apply negb_true_iff, Z.eqb_neq. apply (Hother r Hin). exact Hh.
        - apply String.eqb_eq. exact Hp. }
      congruence.
  - assert (Hnone : forall r, In r (rows t) ->
                      image_hash r <> sha256_hexdigest c).
    { intros r Hin Heq.
      unfold sql_select_id_by_hash in Hsel.
      destruct (find _ (rows t)) as [x|] eqn:F; [discriminate|].
      pose proof (List.find_none _ _ F r Hin) as Hn. cbv beta in Hn.
      apply String.eqb_neq in Hn. contradiction. }
    unfold sql_insert in E.
    destruct (unique_conflict (rows t) (image_path v) (image_hash v))
      eqn:Hc; rewrite E; cbn [fst snd ensure_schema].
    + split; [intros _; split; reflexivity|].
      intros Hall. exfalso.
      destruct (proj1 (unique_conflict_true _ _ _) Hc)
        as (r & Hin & [Hp|Hh]).
      * exact (Hnone r Hin (Hall r Hin Hp)).
      * exact (Hnone r Hin Hh).
    + split; [|eauto].
      intros (r & Hin & Hp & _). exfalso.
      exact (proj1 (proj1 (unique_conflict_false _ _ _) Hc r Hin) Hp).
Qed.

End UpdateProps.

Lemma upsert_result_frame_witness :
  (List.length
     (records (snd (@upsert_result StoreSpec.demo_hashlib StoreSpec.demo_fs
                      StoreSpec.demo_now "in/b.png" "crack" "B" "side"
                      (LocalAI.PNum 0.8)
                      EmptyString "Rework" None StoreSpec.demo_db)))
   <= 2)%nat.
Proof.
  destruct (@upsert_result_frame StoreSpec.demo_hashlib StoreSpec.demo_fs
              StoreSpec.demo_now "in/b.png" "crack" "B" "side"
              (LocalAI.PNum 0.8)
              EmptyString "Rework" None StoreSpec.demo_db) as [_ Hok].
  destruct (Hok 2%Z) as [_ [_ Hlen]].
  - vm_compute. reflexivity.
  - exact Hlen.
Defined.

Lemma upsert_result_idempotent_witness :
  @upsert_result StoreSpec.demo_hashlib StoreSpec.demo_fs
    StoreSpec.demo_now "copy/a.png" "scratch" "C" "rear"
    (LocalAI.PNum 0.3) EmptyString
    "Hold" None
    (snd (@upsert_result StoreSpec.demo_hashlib StoreSpec.demo_fs
            StoreSpec.demo_now "copy/a.png" "scratch" "C" "rear"
            (LocalAI.PNum 0.3)
            EmptyString "Hold" None StoreSpec.demo_db))
  = @upsert_result StoreSpec.demo_hashlib StoreSpec.demo_fs
      StoreSpec.demo_now "copy/a.png" "scratch" "C" "rear"
      (LocalAI.PNum 0.3) EmptyString
      "Hold" None StoreSpec.demo_db.
Proof.
  apply (@upsert_result_idempotent StoreSpec.demo_hashlib StoreSpec.demo_fs
           StoreSpec.demo_now "copy/a.png" "scratch" "C" "rear"
           (LocalAI.PNum 0.3)
           EmptyString "Hold" None StoreSpec.demo_db 1%Z).
  vm_compute. reflexivity.
Defined.

Lemma upsert_result_raises_witness :
  (exists rid,
     fst (@upsert_result StoreSpec.demo_hashlib StoreSpec.demo_fs
            StoreSpec.demo_now "copy/a.png" "scratch" "C" "rear"
            (LocalAI.PNum 0.3) EmptyString "Hold" None StoreSpec.demo_db)
     = Ok rid)
  /\ fst (@upsert_result StoreSpec.demo_hashlib StoreSpec.demo_fs
            StoreSpec.demo_now "in" "scratch" "C" "rear" (LocalAI.PNum 0.3)
            EmptyString "Hold" None StoreSpec.demo_db)
     = Err IsADirectoryError.
Proof.
  split.
  - destruct (@upsert_result_raises StoreSpec.demo_hashlib StoreSpec.demo_fs
                StoreSpec.demo_now "copy/a.png" "scratch" "C" "rear"
                (LocalAI.PNum 0.3) EmptyString "Hold" None StoreSpec.demo_db
                demo_db_ok)
      as (_ & _ & _ & _ & Hsome).
    destruct (Hsome [Byte.x89; Byte.x50; Byte.x4e] eq_refl) as [_ Hfine].
    apply Hfine.
    intros r Hin Hp. vm_compute in Hin. destruct Hin as [<-|[]].
    vm_compute in Hp. discriminate Hp.
  - destruct (@upsert_result_raises StoreSpec.demo_hashlib StoreSpec.demo_fs
                StoreSpec.demo_now "in" "scratch" "C" "rear"
                (LocalAI.PNum 0.3) EmptyString "Hold" None StoreSpec.demo_db
                demo_db_ok)
      as (_ & _ & Hdir & _).
    exact (Hdir eq_refl).
Defined.

(** *** Written, then read *)

Section RoundTrip.
Context `{Hashlib} `{SqliteDate}.

Lemma select_cols_stored (rid : Z) (now p l s loc : string) (sc : LocalAI.prob)
  (d a : string) (ts0 : option string) (c : list Byte.byte) :
  select_cols (stored rid (bound_values now p l s loc sc d a ts0 c))
  = shown_row rid now p l s loc sc d a ts0.
Proof. reflexivity. Qed.

Lemma select_cols_overwrite (r : Row) (now p l s loc : string)
  (sc : LocalAI.prob) (d a : string)
  (ts0 : option string) (c : list Byte.byte) :
  select_cols (overwrite r (bound_values now p l s loc sc d a ts0 c))
  = shown_row (id r) now p l s loc sc d a ts0.
Proof. reflexivity. Qed.

Lemma fetch_results_shows (limit : Z) (db : Database) (r : Row) :
  In r (records db) ->
  (limit < 0 \/ Z.of_nat (List.length (records db)) <= limit)%Z ->
  In (select_cols r) (fst (fetch_results limit db)).
Proof.
  intros Hin Hl. unfold fetch_results. cbn [fst].
  apply in_map. rewrite sql_limit_whole.
  - exact (Permutation_in _ (Permutation_sym (order_by_perm _)) Hin).
  - rewrite (Permutation_length (order_by_perm _)). exact Hl.
Qed.

Lemma written_row_shown (fs : FileSystem) (now p l s loc : string)
  (sc : LocalAI.prob) (d a : string) (ts0 : option string) (db : Database)
  (limit : Z) :
  let oi := insert_result fs now p l s loc sc d a ts0 db in
  let ou := upsert_result fs now p l s loc sc d a ts0 db in
  (fst oi = Ok true ->
   (limit < 0 \/ Z.of_nat (List.length (records (snd oi))) <= limit)%Z ->
   exists rid,
     In (shown_row rid now p l s loc sc d a ts0)
       (fst (fetch_results limit (snd oi))))
  /\ (forall rid,
        fst ou = Ok rid ->
        (limit < 0 \/ Z.of_nat (List.length (records (snd ou))) <= limit)%Z ->
        In (shown_row rid now p l s loc sc d a ts0)
          (fst (fetch_results limit (snd ou)))).
Proof.
  intros oi ou. split.
  - subst oi.
    destruct (insert_result_cases fs now p l s loc sc d a ts0 db)
      as [(e0 & _ & E)|[(c & _ & _ & E)|(c & _ & _ & E)]]; rewrite E;
      try discriminate.
    intros _ Hl. exists (new_rowid (ensure_schema db)).
    rewrite <- (select_cols_stored _ _ _ _ _ _ _ _ _ _ c).
    apply fetch_results_shows; [|exact Hl].
    unfold records. cbn [snd ensure_schema rows].
    apply in_app_iff. right. left. reflexivity.
  - subst ou.
    destruct (upsert_result_cases fs now p l s loc sc d a ts0 db)
      as [(e0 & _ & E)|(c & _ & E)].
    { rewrite E. discriminate. }
    cbv zeta in E.
    set (t := ensure_schema db) in *.
    set (v := bound_values now p l s loc sc d a ts0 c) in *.
    destruct (sql_select_id_by_hash t (sha256_hexdigest c)) as [rid0|]
      eqn:Hsel.
    + destruct (sql_update t rid0 v) as [t'|e] eqn:Hup; rewrite E;
        [|discriminate].
      intros rid [= <-] Hl.
      destruct (sql_update_inv _ _ _ _ Hup) as [Ht' _].
      destruct (select_found _ _ _ Hsel) as (r0 & Hin0 & Hid0 & _).
      rewrite <- Hid0.
      rewrite <- (select_cols_overwrite r0 _ _ _ _ _ _ _ _ _ c). fold v.
      apply fetch_results_shows; [|exact Hl].
      unfold records. cbn [snd ensure_schema]. rewrite Ht'. cbn [rows].
      apply in_map_iff. exists r0. split; [|exact Hin0].
      rewrite Hid0, Z.eqb_refl. reflexivity.
    + destruct (sql_insert t v) as [[rid1 t']|e] eqn:Hins; rewrite E;
        [|discriminate].
      intros rid [= <-] Hl.
      unfold sql_insert in Hins.
      destruct (unique_conflict _ _ _); [discriminate|].
      injection Hins as <- <-.
      rewrite <- (select_cols_stored _ _ _ _ _ _ _ _ _ _ c). fold v.
      apply fetch_results_shows; [|exact Hl].
      unfold records. cbn [snd ensure_schema rows].
      apply in_app_iff. right. left. reflexivity.
Qed.

(** X12: what is written is what is read back.  After [insert_result]
    returned [True], or [upsert_result] returned an id, [fetch_results]
    (with a limit that does not cut the table) shows a row with that id,
    the path given, the last component of the path as file name, the label
    given when it is configured and ["no_defect"] otherwise, the severity,
    location, detail and action given, as score the number given, or NULL
    ([None]) when the score given is NaN, and the timestamp given, or the
    clock reading when none or an empty one is given. *)
Theorem written_row_is_shown (fs : FileSystem) (now p l s loc : string)
  (sc : LocalAI.prob) (d a : string) (ts0 : option string) (db : Database)
  (limit : Z) (name stamp : string) :
  StoreSpec.last_component p name ->
  (exists t, ts0 = Some t /\ t <> EmptyString /\ stamp = t)
  \/ ((ts0 = None \/ ts0 = Some EmptyString) /\ stamp = now) ->
  let shown := fun rid : Z =>
    (rid, p, name, StoreSpec.coerce l, s, loc,
     match sc with
     | LocalAI.PNum q => Some q
     | LocalAI.PNaN => None
     end, d, a, stamp) in
  let oi := insert_result fs now p l s loc sc d a ts0 db in
  let ou := upsert_result fs now p l s loc sc d a ts0 db in
  (fst oi = Ok true ->
   (limit < 0 \/ Z.of_nat (List.length (records (snd oi))) <= limit)%Z ->
   exists rid, In (shown rid) (fst (fetch_results limit (snd oi))))
  /\ (forall rid,
        fst ou = Ok rid ->
        (limit < 0 \/ Z.of_nat (List.length (records (snd ou))) <= limit)%Z ->
        In (shown rid) (fst (fetch_results limit (snd ou)))).
Proof.
  intros Hname Hstamp shown.
  assert (Hshown : forall rid,
            shown rid = shown_row rid now p l s loc sc d a ts0).
  { intros rid. unfold shown, shown_row.
    rewrite (path_name_last _ _ Hname).
    assert (Hts : ts_or_now ts0 now = stamp).
    { destruct Hstamp as [(t & -> & Ht & ->)|[Hts ->]].
      - exact (ts_or_now_given _ _ Ht).
      - exact (ts_or_now_clock _ _ Hts). }
    rewrite Hts. destruct sc; reflexivity. }
  cbv zeta. split.
  - intros Hok Hl.
    destruct (proj1 (written_row_shown fs now p l s loc sc d a ts0 db limit)
                Hok Hl) as [rid Hin].
    exists rid. rewrite Hshown. exact Hin.
  - intros rid Hok Hl. rewrite Hshown.
    exact (proj2 (written_row_shown fs now p l s loc sc d a ts0 db limit)
             rid Hok Hl).
Qed.

End RoundTrip.

Lemma written_row_is_shown_witness :
  In (2%Z, "in/b.png", "b.png", "no_defect", "B", "side", None, "by hand",
      "Rework", StoreSpec.demo_now)
    (fst (@fetch_results StoreSpec.demo_sqlite 200
            (snd (@upsert_result StoreSpec.demo_hashlib StoreSpec.demo_fs
                    StoreSpec.demo_now "in/b.png" "rust" "B" "side"
                    LocalAI.PNaN "by hand" "Rework" None
                    StoreSpec.demo_db)))).
Proof.
  destruct (@written_row_is_shown StoreSpec.demo_hashlib
              StoreSpec.demo_sqlite StoreSpec.demo_fs StoreSpec.demo_now
              "in/b.png" "rust" "B" "side" LocalAI.PNaN "by hand" "Rework"
              None StoreSpec.demo_db 200 "b.png" StoreSpec.demo_now)
    as [_ Hup].
  - split; [discriminate|]. split; [discriminate|]. split.
    + simpl. intuition discriminate.
    + right. exists "in". reflexivity.
  - right. split; [left; reflexivity|reflexivity].
  - apply Hup.
    + vm_compute. reflexivity.
    + right. vm_compute. discriminate.
Defined.

(** *** Deleting *)

Lemma delete_results_records (ids : list Z) (db : Database) :
  records (snd (delete_results ids db))
  = filter (fun r => negb (existsb (Z.eqb (id r)) ids)) (records db).
Proof.
  destruct ids as [|i ids]; simpl; [|reflexivity].
  symmetry. apply filter_all. reflexivity.
Qed.

Lemma delete_results_In (ids : list Z) (db : Database) (r : Row) :
  In r (records (snd (delete_results ids db)))
  <-> In r (records db) /\ ~ In (id r) ids.
Proof.
  rewrite delete_results_records, filter_In, negb_true_iff.
  rewrite <- existsb_eqb_In.
  destruct (existsb (Z.eqb (id r)) ids); intuition congruence.
Qed.

Lemma delete_results_count (ids : list Z) (db : Database) :
  fst (delete_results ids db)
  = Z.of_nat (List.length
                (filter (fun r => existsb (Z.eqb (id r)) ids)
                   (records db))).
Proof.
  destruct ids as [|i ids]; simpl; [|reflexivity].
  rewrite filter_none; reflexivity.
Qed.

Lemma filter_idem {A : Type} (f : A -> bool) (l : list A) :
  filter f (filter f l) = filter f l.
Proof.
  induction l as [|a l IH]; simpl; [reflexivity|].
  destruct (f a) eqn:E; simpl; [rewrite E, IH|]; auto.
Qed.

(** X13: deleting the same ids a second time deletes nothing: it returns 0
    and leaves the database as the first call left it; and deleting the ids
    of all Records empties the table and returns their number. *)
Theorem delete_results_again (ids : list Z) (db : Database) :
  delete_results ids (snd (delete_results ids db))
  = (0%Z, snd (delete_results ids db))
  /\ records (snd (delete_results (map id (records db)) db)) = []
  /\ fst (delete_results (map id (records db)) db)
     = Z.of_nat (List.length (records db)).
Proof.
  split; [|split].
  - destruct ids as [|i ids]; [reflexivity|].
    unfold delete_results, sql_delete_in. cbn [snd ensure_schema rows seq].
    rewrite filter_idem. f_equal.
    rewrite filter_none; [reflexivity|].
    intros r Hin. apply filter_In in Hin. destruct Hin as [_ Hr].
    apply negb_true_iff in Hr. exact Hr.
  - rewrite delete_results_records. apply filter_none. intros r Hin.
    apply negb_false_iff. apply existsb_eqb_In. apply in_map. exact Hin.
  - rewrite delete_results_count. rewrite filter_all; [reflexivity|].
    intros r Hin. apply existsb_eqb_In. apply in_map. exact Hin.
Qed.

(** *** Runs *)

Section RunProps.
Context `{Hashlib}.

Lemma step_ok (c : call) (db : Database) :
  db_ok db -> db_ok (step c db).
Proof.
  intros Hok.
  destruct c as [|fs now p l s loc sc d a ts0|fs now p l s loc sc d a ts0
                |ids]; simpl.
  - exact Hok.
  - apply insert_result_ok; exact Hok.
  - apply upsert_result_ok; exact Hok.
  - apply delete_results_ok; exact Hok.
Qed.

Lemma run_ok (calls : list call) :
  forall db, db_ok db -> db_ok (run calls db).
Proof.
  induction calls as [|c calls IH]; intros db Hok; simpl; [exact Hok|].
  apply IH. apply step_ok. exact Hok.
Qed.

Lemma step_labelled (c : call) (db : Database) :
  labelled db -> labelled (step c db).
Proof.
  unfold labelled. intros Hl.
  destruct c as [|fs now p l s loc sc d a ts0|fs now p l s loc sc d a ts0
                |ids]; simpl.
  - exact Hl.
  - destruct (insert_result_cases fs now p l s loc sc d a ts0 db)
      as [(e0 & _ & E)|[(c & _ & _ & E)|(c & _ & _ & E)]]; rewrite E;
      try exact Hl.
    unfold records. cbn [snd ensure_schema rows].
    apply Forall_app. split; [exact Hl|].
    constructor; [|constructor]. apply coerce_configured.
  - destruct (upsert_result_cases fs now p l s loc sc d a ts0 db)
      as [(e0 & _ & E)|(c & _ & E)]; [rewrite E; exact Hl|].
    cbv zeta in E.
    destruct (sql_select_id_by_hash _ _) as [rid0|].
    + destruct (sql_update _ rid0 _) as [t'|e] eqn:Hup; rewrite E;
        [|exact Hl].
      destruct (sql_update_inv _ _ _ _ Hup) as [-> _].
      unfold records. cbn [snd ensure_schema rows].
      apply Forall_map. unfold records in Hl.
      eapply Forall_impl; [|exact Hl].
      intros r Hr. destruct (Z.eqb (id r) rid0); [|exact Hr].
      apply coerce_configured.
    + destruct (sql_insert _ _) as [[rid t']|e] eqn:Hins; rewrite E;
        [|exact Hl].
      unfold sql_insert in Hins.
      destruct (unique_conflict _ _ _); [discriminate|].
      injection Hins as <- <-.
      unfold records. cbn [snd ensure_schema rows].
      apply Forall_app. split; [exact Hl|].
      constructor; [|constructor]. apply coerce_configured.
  - rewrite delete_results_records. unfold records in *.
    rewrite Forall_forall in *. intros r Hin.
    apply filter_In in Hin. apply Hl. tauto.
Qed.

Lemma run_labelled (calls : list call) :
  forall db, labelled db -> labelled (run calls db).
Proof.
  induction calls as [|c calls IH]; intros db Hl; simpl; [exact Hl|].
  apply IH. apply step_labelled. exact Hl.
Qed.

(** X14: whatever calls of [ensure_schema], [insert_result],
    [upsert_result] and [delete_results] are made on a new database, and
    whichever of them raise, no two Records share an id, a path or a digest,
    every id is positive, and every Record bears a configured label. *)
Theorem run_keeps_schema (calls : list call) :
  let db := run calls None in
  NoDup (map id (records db))
  /\ NoDup (map image_path (records db))
  /\ NoDup (map image_hash (records db))
  /\ Forall (fun r => (0 < id r)%Z) (records db)
  /\ Forall (fun r => In (defect_type r) Config.DEFECT_LABELS) (records db).
Proof.
  intros db.
  assert (Hok : db_ok db) by (apply run_ok; exact empty_table_ok).
  assert (Hl : labelled db) by (apply run_labelled; constructor).
  destruct Hok as [Hi Hp Hh Hs].
  repeat split; try assumption.
  eapply Forall_impl; [|exact Hs]. intros r Hr. cbv beta in Hr. lia.
Qed.

(** The ids of a database after one call: those it had, or larger than
    any it ever had. *)
Lemma step_ids (c : call) (db : Database) (r : Row) :
  In r (records (step c db)) ->
  (exists r0, In r0 (records db) /\ id r0 = id r)
  \/ (seq (ensure_schema db) < id r)%Z.
Proof.
  destruct c as [|fs now p l s loc sc d a ts0|fs now p l s loc sc d a ts0
                |ids]; simpl.
  - intros Hin. left. exists r. auto.
  - destruct (insert_result_cases fs now p l s loc sc d a ts0 db)
      as [(e0 & _ & E)|[(c & _ & _ & E)|(c & _ & _ & E)]]; rewrite E;
      try (intros Hin; left; exists r; split; [exact Hin|reflexivity]).
    unfold records. cbn [snd ensure_schema rows]. intros Hin.
    apply in_app_iff in Hin. destruct Hin as [Hin|[<-|[]]].
    + left. exists r. auto.
    + right. cbn [id stored]. apply new_rowid_seq.
  - destruct (upsert_result_cases fs now p l s loc sc d a ts0 db)
      as [(e0 & _ & E)|(c & _ & E)].
    { rewrite E. intros Hin. left. exists r. auto. }
    cbv zeta in E.
    destruct (sql_select_id_by_hash _ _) as [rid0|].
    + destruct (sql_update _ rid0 _) as [t'|e] eqn:Hup; rewrite E;
        [|intros Hin; left; exists r; auto].
      destruct (sql_update_inv _ _ _ _ Hup) as [-> _].
      unfold records. cbn [snd ensure_schema rows]. intros Hin.
      apply in_map_iff in Hin. destruct Hin as (x & Hx & Hin).
      left. exists x. split; [exact Hin|].
      subst r. destruct (Z.eqb (id x) rid0); reflexivity.
    + destruct (sql_insert _ _) as [[rid t']|e] eqn:Hins; rewrite E;
        [|intros Hin; left; exists r; auto].
      unfold sql_insert in Hins.
      destruct (unique_conflict _ _ _); [discriminate|].
      injection Hins as <- <-.
      unfold records. cbn [snd ensure_schema rows]. intros Hin.
      apply in_app_iff in Hin. destruct Hin as [Hin|[<-|[]]].
      * left. exists r. auto.
      * right. cbn [id stored]. apply new_rowid_seq.
  - intros Hr. apply delete_results_In in Hr. left. exists r. tauto.
Qed.

(** The counter of [sqlite_sequence] never goes back. *)
Lemma step_seq (c : call) (db : Database) :
  (seq (ensure_schema db) <= seq (ensure_schema (step c db)))%Z.
Proof.
  destruct c as [|fs now p l s loc sc d a ts0|fs now p l s loc sc d a ts0
                |ids]; simpl.
  - lia.
  - destruct (insert_result_cases fs now p l s loc sc d a ts0 db)
      as [(e0 & _ & E)|[(c & _ & _ & E)|(c & _ & _ & E)]]; rewrite E;
      cbn [snd ensure_schema seq];
      pose proof (new_rowid_seq (ensure_schema db)); lia.
  - destruct (upsert_result_cases fs now p l s loc sc d a ts0 db)
      as [(e0 & _ & E)|(c & _ & E)]; [rewrite E; cbn; lia|].
    cbv zeta in E.
    destruct (sql_select_id_by_hash _ _) as [rid0|].
    + destruct (sql_update _ rid0 _) as [t'|e] eqn:Hup; rewrite E;
        [|cbn; lia].
      destruct (sql_update_inv _ _ _ _ Hup) as [-> _]. cbn. lia.
    + destruct (sql_insert _ _) as [[rid t']|e] eqn:Hins; rewrite E;
        [|cbn; lia].
      unfold sql_insert in Hins.
      destruct (unique_conflict _ _ _); [discriminate|].
      injection Hins as <- <-. cbn [snd ensure_schema seq].
      pose proof (new_rowid_seq (ensure_schema db)). lia.
  - destruct ids as [|i ids]; cbn; lia.
Qed.

Lemma run_ids (calls : list call) :
  forall db r,
    In r (records (run calls db)) ->
    (exists r0, In r0 (records db) /\ id r0 = id r)
    \/ (seq (ensure_schema db) < id r)%Z.
Proof.
  induction calls as [|c calls IH]; intros db r Hin; simpl in Hin.
  - left. exists r. auto.
  - destruct (IH _ _ Hin) as [(r1 & Hin1 & Hid1)|Hlt].
    + destruct (step_ids c db r1 Hin1) as [(r0 & Hin0 & Hid0)|Hlt].
      * left. exists r0. split; [exact Hin0|congruence].
      * right. lia.
    + right. pose proof (step_seq c db). lia.
Qed.

(** X15: ids are never reused.  Once a Record has been deleted, no Record
    of any later state of the database bears its id, whatever calls
    follow. *)
Theorem deleted_id_never_returns (db : Database) (ids : list Z)
  (r0 : Row) (calls : list call) (r : Row) :
  db_ok db -> In r0 (records db) -> In (id r0) ids ->
  In r (records (run calls (snd (delete_results ids db)))) ->
  id r <> id r0.
Proof.
  intros Hok Hin0 Hids Hin.
  pose proof (delete_results_In ids db) as Hdel.
  assert (Hseq : seq (ensure_schema (snd (delete_results ids db)))
                 = seq (ensure_schema db)).
  { destruct ids as [|i ids]; [destruct Hids|]. reflexivity. }
  pose proof (ok_seq _ Hok) as Hs. rewrite Forall_forall in Hs.
  specialize (Hs r0 Hin0). cbv beta in Hs.
  destruct (run_ids _ _ _ Hin) as [(r1 & Hin1 & Hid1)|Hlt].
  - apply Hdel in Hin1. destruct Hin1 as [Hin1 Hnot].
    intros Heq. apply Hnot.
    assert (r1 = r0)
      by (apply (NoDup_map_inj id (records db));
          [exact (ok_ids _ Hok)|exact Hin1|exact Hin0|congruence]).
    subst r1. exact Hids.
  - rewrite Hseq in Hlt. lia.
Qed.

End RunProps.

Lemma deleted_id_never_returns_witness :
  Forall (fun r => id r <> 1%Z)
    (records
       (@run StoreSpec.demo_hashlib
          [Insert StoreSpec.demo_fs StoreSpec.demo_now "in/a.png"
             "dent" "A" "front" (LocalAI.PNum 0.9) EmptyString "Reject" None;
           Upsert StoreSpec.demo_fs StoreSpec.demo_now "in/b.png"
             "crack" "B" "side" (LocalAI.PNum 0.8) EmptyString "Rework" None]
          (snd (delete_results [1%Z] StoreSpec.demo_db)))).
Proof.
  apply Forall_forall. intros r Hin.
  eapply (@deleted_id_never_returns StoreSpec.demo_hashlib StoreSpec.demo_db
           [1%Z]
           {| id := 1; file_name := "a.png"; image_path := "in/a.png";
              image_hash :=
                @sha256_hexdigest StoreSpec.demo_hashlib
                  [Byte.x89; Byte.x50; Byte.x4e];
              defect_type := "dent"; severity := "A"; location := "front";
              score := Some 0.9; detail := EmptyString; action := "Reject";
              ts := StoreSpec.demo_now |}
           _ r demo_db_ok).
  - vm_compute. left. reflexivity.
  - left. reflexivity.
  - exact Hin.
Defined.

(** *** Searching by text *)

Lemma sql_like_percent (pattern text : string) :
  sql_like (String "%" pattern) text
  = sql_like pattern text
    || match text with
       | EmptyString => false
       | String _ t => sql_like (String "%" pattern) t
       end.
Proof.
  destruct text; reflexivity.
Qed.

Lemma sql_like_any (text : string) : sql_like "%" text = true.
Proof.
  induction text as [|c t IH]; [reflexivity|].
  rewrite sql_like_percent, IH. apply orb_true_r.
Qed.

Lemma sql_like_prefix (rest post : string) :
  sql_like rest post = true ->
  forall a a' : string,
    lower a = lower a' ->
    sql_like (a ++ rest)%string (a' ++ post)%string = true.
Proof.
  intros Hrest. induction a as [|p a IH]; intros [|c a'] Hl;
    try discriminate Hl; [exact Hrest|].
  injection Hl as Hc Hl. specialize (IH a' Hl).
  cbn [String.append]. destruct (Ascii.eqb p "%") eqn:Ep.
  - apply Ascii.eqb_eq in Ep. subst p.
    rewrite sql_like_percent, sql_like_percent, IH.
    rewrite orb_true_l. apply orb_true_r.
  - cbn [sql_like]. rewrite Ep, Hc, Ascii.eqb_refl, orb_true_r. exact IH.
Qed.

Lemma sql_like_contains (a a' pre post : string) :
  lower a = lower a' ->
  sql_like ("%" ++ a ++ "%")%string (pre ++ a' ++ post)%string = true.
Proof.
  intros Hl. change ("%" ++ a ++ "%")%string with (String "%" (a ++ "%")).
  induction pre as [|c pre IH]; rewrite sql_like_percent.
  - cbn [String.append].
    rewrite (sql_like_prefix "%" post (sql_like_any post) a a' Hl).
    reflexivity.
  - cbn [String.append]. rewrite IH. apply orb_true_r.
Qed.

Lemma sql_like_percents (pattern text : string) :
  forallb (Ascii.eqb "%") (list_ascii_of_string pattern) = true ->
  truthy pattern = true ->
  sql_like pattern text = true.
Proof.
  induction pattern as [|p pattern IH]; intros Hall Hne;
    [discriminate Hne|].
  cbn [list_ascii_of_string forallb] in Hall.
  apply andb_true_iff in Hall. destruct Hall as [Hp Hall].
  apply Ascii.eqb_eq in Hp. subst p.
  destruct pattern as [|q pattern]; [apply sql_like_any|].
  rewrite sql_like_percent, (IH Hall eq_refl). reflexivity.
Qed.

Lemma filter_length_bound {A : Type} (f : A -> bool) (l : list A) :
  (List.length (filter f l) <= List.length l)%nat.
Proof.
  induction l as [|a l IH]; simpl; [lia|].
  destruct (f a); simpl; lia.
Qed.

Section SearchProps.
Context `{SqliteDate}.

Lemma search_results_In
  (defect_type severity action location keyword date_from date_to
   : option string) (limit : Z) (db : Database) (r : Row) :
  (limit < 0 \/ Z.of_nat (List.length (records db)) <= limit)%Z ->
  In r (records db) ->
  matches defect_type severity action location keyword date_from date_to r
  = true ->
  In (select_cols r)
    (fst (search_results defect_type severity action location keyword
            date_from date_to limit db)).
Proof.
  intros Hl Hin Hm. rewrite search_results_rows.
  apply in_map. rewrite sql_limit_whole.
  - apply filter_In. split; [|exact Hm].
    exact (Permutation_in _ (Permutation_sym (order_by_perm _)) Hin).
  - destruct Hl as [Hl|Hl]; [left; exact Hl|right].
    pose proof (filter_length_bound
                  (matches defect_type severity action location keyword
                     date_from date_to) (order_by (records db))) as Hf.
    rewrite (Permutation_length (order_by_perm (records db))) in Hf.
    lia.
Qed.

(** X21: searching by text finds what holds the text.  With a location
    text [a] given, a Record whose location holds [a] somewhere, in any
    mix of upper and lower case, is among the rows returned; with a keyword
    [a] given, so is a Record whose file name, detail or location holds it;
    provided the limit does not cut the result. *)
Theorem search_finds_text (a a' pre post : string) (limit : Z)
  (db : Database) (r : Row) :
  truthy a = true -> lower a = lower a' ->
  (limit < 0 \/ Z.of_nat (List.length (records db)) <= limit)%Z ->
  In r (records db) ->
  (DB.location r = (pre ++ a' ++ post)%string ->
   In (select_cols r)
     (fst (search_results None None None (Some a) None None None limit db)))
  /\ (file_name r = (pre ++ a' ++ post)%string
      \/ detail r = (pre ++ a' ++ post)%string
      \/ DB.location r = (pre ++ a' ++ post)%string ->
      In (select_cols r)
        (fst (search_results None None None None (Some a) None None limit
                db))).
Proof.
  intros Ha Hl Hlim Hin.
  pose proof (sql_like_contains a a' pre post Hl) as Hlike.
  split.
  - intros Hloc. apply search_results_In; [exact Hlim|exact Hin|].
    unfold matches, where_clauses, clause. rewrite Ha.
    cbn [app forallb]. rewrite Hloc, Hlike. reflexivity.
  - intros Hcol. apply search_results_In; [exact Hlim|exact Hin|].
    unfold matches, where_clauses, clause. rewrite Ha.
    cbn [app forallb]. rewrite andb_true_r.
    destruct Hcol as [Hc|[Hc|Hc]]; rewrite Hc, Hlike;
      rewrite ?orb_true_r; reflexivity.
Qed.

(** X22: the location text goes into the LIKE pattern as it is, its
    wildcards not escaped: a location text made of [%] signs only restricts
    nothing, the search then returns what [fetch_results] returns. *)
Theorem search_wildcard_unescaped (a : string) (limit : Z) (db : Database) :
  truthy a = true ->
  forallb (Ascii.eqb "%") (list_ascii_of_string a) = true ->
  search_results None None None (Some a) None None None limit db
  = fetch_results limit db.
Proof.
  intros Ha Hall. unfold search_results, fetch_results, where_clauses, clause.
  rewrite Ha. cbn [app]. rewrite filter_all; [reflexivity|].
  intros r _. cbn [forallb]. rewrite andb_true_r.
  apply sql_like_percents; [|reflexivity].
  change ("%" ++ a ++ "%")%string with (String "%" (a ++ "%")).
  cbn [list_ascii_of_string forallb]. rewrite Ascii.eqb_refl.
  clear Ha. induction a as [|c a IH]; [reflexivity|].
  cbn [list_ascii_of_string forallb String.append] in Hall |- *.
  apply andb_true_iff in Hall. destruct Hall as [Hc Hall].
  rewrite Hc. exact (IH Hall).
Qed.

End SearchProps.

Lemma search_finds_text_witness :
  Forall
    (fun r =>
       In (select_cols r)
         (fst (@search_results StoreSpec.demo_sqlite None None None
                 (Some "RON") None None None (-1) StoreSpec.demo_db)))
    (records StoreSpec.demo_db).
Proof.
  apply Forall_forall. intros r Hin.
  apply (proj1 (@search_finds_text StoreSpec.demo_sqlite "RON" "ron" "f" "t"
                  (-1) StoreSpec.demo_db r eq_refl eq_refl
                  (or_introl eq_refl) Hin)).
  vm_compute in Hin. destruct Hin as [<-|[]]. reflexivity.
Defined.

Lemma search_wildcard_unescaped_witness :
  @search_results StoreSpec.demo_sqlite None None None (Some "%%") None
    None None 10 StoreSpec.demo_db
  = @fetch_results StoreSpec.demo_sqlite 10 StoreSpec.demo_db.
Proof.
  exact (@search_wildcard_unescaped StoreSpec.demo_sqlite "%%" 10
           StoreSpec.demo_db eq_refl eq_refl).
Defined.

End StoreProps.

(** ** The window's code around the engine and the store *)

Module CallerProps.
Import LocalAI MainApp.
Local Open Scope list_scope.

(** *** The paths of a folder upload *)

Lemma contains_iff (ls : list string) (x : string) :
  contains ls x = true <-> In x ls.
Proof.
  unfold contains. rewrite existsb_exists. split.
  - intros [y [Hin Hy]]. apply String.eqb_eq in Hy. subst y. exact Hin.
  - intros Hin. exists x. split; [exact Hin|apply String.eqb_refl].
Qed.

Lemma contains_false (ls : list string) (x : string) :
  contains ls x = false <-> ~ In x ls.
Proof.
  rewrite <- contains_iff. destruct (contains ls x); split;
    congruence || (intros Hn; exfalso; apply Hn; reflexivity) || auto.
Qed.

Lemma unique_paths_loop_In (candidates existing seen : list string)
  (f : string) :
  In f (unique_paths_loop candidates existing seen)
  <-> In f candidates /\ ~ In f seen /\ ~ In f existing.
Proof.
  revert seen. induction candidates as [|c rest IH]; intros seen; simpl.
  - tauto.
  - destruct (contains seen c) eqn:Es.
    + apply contains_iff in Es. rewrite IH. split.
      * tauto.
      * intros ([->|Hin] & Hs & He); [contradiction|tauto].
    + apply contains_false in Es.
      destruct (contains existing c) eqn:Ee.
      * apply contains_iff in Ee. rewrite IH. simpl. split.
        -- intros (Hin & Hs & He). repeat split; auto.
        -- intros ([->|Hin] & Hs & He); [contradiction|].
           repeat split; auto. intros [->|Hf]; [|exact (Hs Hf)].
           apply He. exact Ee.
      * apply contains_false in Ee. simpl. rewrite IH. simpl. split.
        -- intros [<-|(Hin & Hs & He)]; [tauto|].
           repeat split; auto.
        -- intros ([->|Hin] & Hs & He); [left; reflexivity|].
           destruct (string_dec c f) as [->|Hne]; [left; reflexivity|].
           right. repeat split; auto. intros [Hc|Hf]; [exact (Hne Hc)|].
           exact (Hs Hf).
Qed.

Lemma unique_paths_loop_NoDup (candidates existing seen : list string) :
  NoDup (unique_paths_loop candidates existing seen).
Proof.
  revert seen. induction candidates as [|c rest IH]; intros seen; simpl.
  - constructor.
  - destruct (contains seen c); [apply IH|].
    destruct (contains existing c); [apply IH|].
    constructor; [|apply IH].
    rewrite unique_paths_loop_In. intros (_ & Hs & _).
    apply Hs. left. reflexivity.
Qed.

Lemma unique_paths_loop_filter (candidates existing : list string) :
  forall seen,
    NoDup candidates -> (forall f, In f candidates -> ~ In f seen) ->
    unique_paths_loop candidates existing seen
    = filter (fun f => negb (contains existing f)) candidates.
Proof.
  induction candidates as [|c rest IH]; intros seen Hn Hs; simpl;
    [reflexivity|].
  inversion Hn as [|? ? Hc Hrest]; subst.
  assert (Es : contains seen c = false).
  { apply contains_false. apply Hs. left. reflexivity. }
  rewrite Es.
  assert (Hs' : forall f, In f rest -> ~ In f (c :: seen)).
  { intros f Hin [->|Hf]; [exact (Hc Hin)|].
    exact (Hs f (or_intror Hin) Hf). }
  destruct (contains existing c); simpl; rewrite (IH _ Hrest Hs');
    reflexivity.
Qed.

(** X16: the paths [on_upload_folder] goes on to classify: each of them is
    a candidate that is not an existing path, every such candidate is among
    them, none occurs twice, and when the candidates are distinct they are
    the candidates that are not existing paths, in the candidates' order. *)
Theorem unique_paths_spec (candidates existing : list string) :
  NoDup (unique_paths candidates existing)
  /\ (forall f, In f (unique_paths candidates existing)
                <-> In f candidates /\ ~ In f existing)
  /\ (NoDup candidates ->
      unique_paths candidates existing
      = filter (fun f => negb (contains existing f)) candidates).
Proof.
  unfold unique_paths. split; [apply unique_paths_loop_NoDup|]. split.
  - intros f. rewrite unique_paths_loop_In. simpl. tauto.
  - intros Hn. apply unique_paths_loop_filter; [exact Hn|].
    intros f _ [].
Qed.

Lemma unique_paths_spec_witness :
  unique_paths ["d/a.png"; "d/b.png"; "d/c.png"] ["d/b.png"]
  = ["d/a.png"; "d/c.png"].
Proof.
  destruct (unique_paths_spec ["d/a.png"; "d/b.png"; "d/c.png"]
              ["d/b.png"]) as (_ & _ & Hf).
  rewrite Hf; [reflexivity|].
  repeat constructor; simpl; intuition discriminate.
Defined.

Section UploadProps.
Context `{SqliteDate}.

(** X17: when the table holds at most 100000 Records, none of the paths
    [on_upload_folder] goes on to classify is the path of a Record. *)
Theorem upload_skips_stored_paths (db : DB.Database)
  (candidates : list string) (f : string) :
  (Z.of_nat (List.length (DB.records db)) <= 100000)%Z ->
  In f (unique_paths candidates (existing_paths db)) ->
  In f candidates
  /\ forall r, In r (DB.records db) -> DB.image_path r <> f.
Proof.
  intros Hlen Hin.
  unfold unique_paths in Hin. apply unique_paths_loop_In in Hin.
  destruct Hin as (Hc & _ & Hne). split; [exact Hc|].
  intros r Hr Hp. apply Hne. unfold existing_paths.
  apply in_map_iff. exists (DB.select_cols r). split; [exact Hp|].
  apply StoreProps.fetch_results_shows; [exact Hr|right; exact Hlen].
Qed.

End UploadProps.

Lemma upload_skips_stored_paths_witness :
  In "in/b.png" ["in/a.png"; "in/b.png"]
  /\ Forall (fun r => DB.image_path r <> "in/b.png")
       (DB.records StoreSpec.demo_db).
Proof.
  destruct (@upload_skips_stored_paths StoreSpec.demo_sqlite
              StoreSpec.demo_db ["in/a.png"; "in/b.png"] "in/b.png")
    as [Hc Hno].
  - vm_compute. discriminate.
  - vm_compute. left. reflexivity.
  - split; [exact Hc|]. apply Forall_forall. exact Hno.
Defined.

(** *** The fields handed to the store *)









End CallerProps.

(** ** The configuration *)

Module ConfigProps.
Local Open Scope list_scope.

(** *** Parsing the label list *)

Lemma rstrip_idem (s : string) : rstrip (rstrip s) = rstrip s.
Proof.
  induction s as [|c s IH]; simpl; [reflexivity|].
  destruct (rstrip s) as [|c' t] eqn:E.
  - destruct (is_space c) eqn:Ec; simpl; [reflexivity|].
    rewrite Ec. reflexivity.
  - simpl in IH |- *. rewrite IH. reflexivity.
Qed.

Lemma lstrip_head (s : string) (c : ascii) (t : string) :
  lstrip s = String c t -> is_space c = false.
Proof.
  induction s as [|a s IH]; simpl; [discriminate|].
  destruct (is_space a) eqn:E; [exact IH|].
  intros [= <- _]. exact E.
Qed.

Lemma rstrip_keeps_head (c : ascii) (t : string) :
  is_space c = false -> exists t', rstrip (String c t) = String c t'.
Proof.
  intros Hc. simpl. destruct (rstrip t) as [|c' t'].
  - rewrite Hc. eauto.
  - eauto.
Qed.

Lemma strip_idem (s : string) : strip (strip s) = strip s.
Proof.
  unfold strip. destruct (lstrip s) as [|c t] eqn:E; [reflexivity|].
  destruct (rstrip_keeps_head c t (lstrip_head _ _ _ E)) as [t' Ht'].
  rewrite Ht'. cbn [lstrip]. rewrite (lstrip_head _ _ _ E).
  rewrite <- Ht'. apply rstrip_idem.
Qed.

Lemma lstrip_chars (s : string) (x : ascii) :
  In x (list_ascii_of_string (lstrip s)) -> In x (list_ascii_of_string s).
Proof.
  induction s as [|a s IH]; simpl; [tauto|].
  destruct (is_space a); simpl; [intros Hx; right; exact (IH Hx)|tauto].
Qed.

Lemma rstrip_chars (s : string) (x : ascii) :
  In x (list_ascii_of_string (rstrip s)) -> In x (list_ascii_of_string s).
Proof.
  induction s as [|a s IH]; simpl; [tauto|].
  destruct (rstrip s) as [|c t].
  - destruct (is_space a); simpl; tauto.
  - simpl in *. tauto.
Qed.

Lemma split_no_sep (sep : ascii) (s : string) (w : string) :
  In w (split sep s) -> ~ In sep (list_ascii_of_string w).
Proof.
  revert w. induction s as [|c s IH]; intros w; simpl.
  - intros [<-|[]]. simpl. tauto.
  - destruct (Ascii.eqb c sep) eqn:E.
    + intros [<-|Hin]; [simpl; tauto|exact (IH _ Hin)].
    + apply Ascii.eqb_neq in E.
      destruct (split sep s) as [|w0 ws].
      * intros [<-|[]]. simpl. intros [Hc|[]]. exact (E Hc).
      * intros [<-|Hin].
        -- simpl. intros [Hc|Hin]; [exact (E Hc)|].
           exact (IH w0 (or_introl eq_refl) Hin).
        -- exact (IH w (or_intror Hin)).
Qed.

(** X20: every label the configuration line is parsed into is not empty,
    holds no comma, and has no white space at either end (stripping it
    again changes nothing), whatever the line. *)
Theorem parse_labels_clean (line lbl : string) :
  In lbl (Config.parse_labels line) ->
  lbl <> EmptyString
  /\ strip lbl = lbl
  /\ ~ In ","%char (list_ascii_of_string lbl).
Proof.
  unfold Config.parse_labels. intros Hin.
  apply filter_In in Hin. destruct Hin as [Hin Ht].
  apply in_map_iff in Hin. destruct Hin as (w & <- & Hw).
  split; [|split].
  - intros E. rewrite E in Ht. discriminate Ht.
  - apply strip_idem.
  - intros Hc. apply (split_no_sep _ _ _ Hw).
    apply lstrip_chars. apply rstrip_chars. exact Hc.
Qed.

Lemma parse_labels_clean_witness :
  strip "glass shatter" = "glass shatter".
Proof.
  apply (parse_labels_clean " dent ,, glass shatter , " "glass shatter").
  vm_compute. right. left. reflexivity.
Defined.

(** *** The severity codes *)

(** X23: whatever severity name the model gives, the code
    [_severity_to_abc] makes of it is a key of [SEVERITY_MAP_REVERSE]; the
    name found there is one of [SEVERITY_UI], and [SEVERITY_MAP] takes that
    name back to the code. *)
Theorem severity_code_ui_name (sev : string) :
  exists ui,
    In ui Config.SEVERITY_UI
    /\ dict_getitem Config.SEVERITY_MAP_REVERSE
         (LocalAI._severity_to_abc sev) = Ok ui
    /\ dict_getitem Config.SEVERITY_MAP ui
       = Ok (LocalAI._severity_to_abc sev).
Proof.
  unfold LocalAI._severity_to_abc.
  destruct (String.eqb (lower sev) "severe");
    [|destruct (String.eqb (lower sev) "moderate")].
  - exists "High". vm_compute. tauto.
  - exists "Medium". vm_compute. tauto.
  - exists "Low". vm_compute. tauto.
Qed.

End ConfigProps.
